(** * Kraken database core: k-mer primitives, bin index and bin-local lookup

    A shallow embedding of [krakendb.hpp] / [krakendb.cpp] (classes
    [KrakenDBIndex] and [KrakenDB]) together with the properties the
    specification states about them.

    Conventions.
    - [uint64_t] values are integers of [Z] in [0, 2^64); arithmetic that can
      wrap is written with [wrap64].  [int64_t] values are integers in
      [-2^63, 2^63); signed arithmetic that leaves this range is undefined.
    - A mapped file is a [region], a list of bytes; a [char*] into it is a
      byte offset.  The host is little-endian.
    - A call ends in an [outcome]: a normal return, a call of [errx] (message
      and process exit), or behaviour that C++ leaves undefined (a read
      outside the mapped region, a null dereference, a shift by at least the
      width of the operand, signed overflow). *)

From Stdlib Require Import ZArith List Lia Bool Ascii String Strings.Byte.
Import ListNotations.
Local Open Scope Z_scope.

(* ================================================================== *)
(** * Outcomes *)

Inductive outcome (A : Type) : Type :=
| Ret (a : A)
| Errx (code : Z) (msg : string)
| Undef
| OutOfFuel.

Arguments Ret {A} a.
Arguments Errx {A} code msg.
Arguments Undef {A}.
Arguments OutOfFuel {A}.

Definition bind {A B : Type} (c : outcome A) (f : A -> outcome B) : outcome B :=
  match c with
  | Ret a => f a
  | Errx code msg => Errx code msg
  | Undef => Undef
  | OutOfFuel => OutOfFuel
  end.

Notation "x <- c ;; f" := (bind c (fun x => f))
  (at level 61, c at next level, right associativity).

(** Exit codes of <sysexits.h>. *)
Definition EX_DATAERR : Z := 65.
Definition EX_SOFTWARE : Z := 70.

(* ================================================================== *)
(** * Machine integers *)

Definition wrap64 (z : Z) : Z := z mod 2 ^ 64.
Definition wrap8 (z : Z) : Z := z mod 2 ^ 8.

(** Conversion of a [uint64_t] to [int64_t] (two's complement). *)
Definition to_int64 (z : Z) : Z := (z + 2 ^ 63) mod 2 ^ 64 - 2 ^ 63.

(** Result of a signed 64-bit operation: undefined on overflow. *)
Definition int64_ok (z : Z) : outcome Z :=
  if (- 2 ^ 63 <=? z) && (z <? 2 ^ 63) then Ret z else Undef.

(** [a << n] and [a >> n] on [uint64_t]. *)
Definition shl_u64 (a n : Z) : outcome Z :=
  if (0 <=? n) && (n <? 64) then Ret (wrap64 (Z.shiftl a n)) else Undef.

Definition shr_u64 (a n : Z) : outcome Z :=
  if (0 <=? n) && (n <? 64) then Ret (Z.shiftr a n) else Undef.

(** [a << n] on [int] (32 bits, signed), for [a >= 0]. *)
Definition shl_int (a n : Z) : outcome Z :=
  if (0 <=? n) && (n <? 32) && (Z.shiftl a n <? 2 ^ 31)
  then Ret (Z.shiftl a n) else Undef.

(* ================================================================== *)
(** * Mapped regions *)

Definition region : Type := list byte.

Definition byte_val (b : byte) : Z := Z.of_N (Byte.to_N b).

Definition byte_of_Z (z : Z) : byte :=
  match Byte.of_N (Z.to_N (z mod 256)) with
  | Some b => b
  | None => x00
  end.

(** Value of a little-endian byte sequence. *)
Fixpoint le_value (bs : list byte) : Z :=
  match bs with
  | [] => 0
  | b :: t => byte_val b + 256 * le_value t
  end.

(** The [n] little-endian bytes of [z]. *)
Fixpoint le_bytes (n : nat) (z : Z) : list byte :=
  match n with
  | O => []
  | S n' => byte_of_Z z :: le_bytes n' (z / 256)
  end.

Definition read_bytes (r : region) (off len : Z) : outcome (list byte) :=
  if (0 <=? off) && (0 <=? len) && (off + len <=? Z.of_nat (List.length r))
  then Ret (firstn (Z.to_nat len) (skipn (Z.to_nat off) r))
  else Undef.

(** [memcpy(&x, r + off, len)] (or [FAST_COPY]) into a zeroed [uint64_t x]. *)
Definition load_le (r : region) (off len : Z) : outcome Z :=
  if 8 <? len then Undef
  else bs <- read_bytes r off len ;; Ret (le_value bs).

(** [strncmp(s1, s2, n)]: stops at the first difference, at a NUL, or after
    [n] characters. *)
Fixpoint strncmp (s1 s2 : list byte) (n : nat) {struct n} : outcome Z :=
  match n with
  | O => Ret 0
  | S n' =>
      match s1, s2 with
      | c1 :: t1, c2 :: t2 =>
          if byte_val c1 =? byte_val c2
          then (if byte_val c1 =? 0 then Ret 0 else strncmp t1 t2 n')
          else Ret (byte_val c1 - byte_val c2)
      | _, _ => Undef
      end
  end.

(** A string literal: its characters and the terminating NUL. *)
Definition c_string (s : string) : list byte := list_byte_of_string s ++ [x00].

Definition strlen (s : string) : Z := Z.of_nat (String.length s).

(* ================================================================== *)
(** * k-mer primitives *)

(** XOR mask for minimizer bin keys. *)
Definition INDEX2_XOR_MASK : Z := 0xe37e28c4271b5a2d.

(** [reverse_complement(uint64_t kmer, uint8_t n)]. *)
Definition reverse_complement (kmer n : Z) : outcome Z :=
  let kmer := Z.lor (Z.land (Z.shiftr kmer 2) 0x3333333333333333)
                    (wrap64 (Z.shiftl (Z.land kmer 0x3333333333333333) 2)) in
  let kmer := Z.lor (Z.land (Z.shiftr kmer 4) 0x0F0F0F0F0F0F0F0F)
                    (wrap64 (Z.shiftl (Z.land kmer 0x0F0F0F0F0F0F0F0F) 4)) in
  let kmer := Z.lor (Z.land (Z.shiftr kmer 8) 0x00FF00FF00FF00FF)
                    (wrap64 (Z.shiftl (Z.land kmer 0x00FF00FF00FF00FF) 8)) in
  let kmer := Z.lor (Z.land (Z.shiftr kmer 16) 0x0000FFFF0000FFFF)
                    (wrap64 (Z.shiftl (Z.land kmer 0x0000FFFF0000FFFF) 16)) in
  let kmer := Z.lor (Z.shiftr kmer 32) (wrap64 (Z.shiftl kmer 32)) in
  shr_u64 (wrap64 (wrap64 (-1) - kmer)) (wrap64 (8 * 8 - Z.shiftl n 1)).

(** [canonical_representation(uint64_t kmer, uint8_t n)]. *)
Definition canonical_representation (kmer n : Z) : outcome Z :=
  revcom <- reverse_complement kmer n ;;
  Ret (if kmer <? revcom then kmer else revcom).

(** ** Bit-level description of [reverse_complement] (used in proofs) *)

(** One swap of adjacent [s]-bit groups selected by the mask [M]. *)
Definition swap_step (s M x : Z) : Z :=
  Z.lor (Z.land (Z.shiftr x s) M) (wrap64 (Z.shiftl (Z.land x M) s)).

(** The five swaps: the 2-bit groups of a 64-bit word in reverse order. *)
Definition swap_groups (x : Z) : Z :=
  let x := swap_step 2 0x3333333333333333 x in
  let x := swap_step 4 0x0F0F0F0F0F0F0F0F x in
  let x := swap_step 8 0x00FF00FF00FF00FF x in
  let x := swap_step 16 0x0000FFFF0000FFFF x in
  Z.lor (Z.shiftr x 32) (wrap64 (Z.shiftl x 32)).

(** Source position of bit [p] after one swap. *)
Definition step_src (s M p : Z) : Z := if Z.testbit M p then p + s else p - s.

(** What a swap needs of its mask at bit [p]. *)
Definition mask_ok_at (s M p : Z) : bool :=
  if Z.testbit M p
  then (p + s <? 64) && ((p <? s) || negb (Z.testbit M (p - s)))
  else (s <=? p) && Z.testbit M (p - s).

(** Source position of bit [p] after the five swaps. *)
Definition groups_src (p : Z) : Z :=
  step_src 2 0x3333333333333333
    (step_src 4 0x0F0F0F0F0F0F0F0F
       (step_src 8 0x00FF00FF00FF00FF
          (step_src 16 0x0000FFFF0000FFFF
             (if p <? 32 then p + 32 else p - 32)))).

Definition bits64 : list Z := map Z.of_nat (seq 0 64).

(** Position in [x] of bit [i] of the reverse complement of an [n]-mer. *)
Definition rc_src (n i : Z) : Z := 2 * n - 2 - i + 2 * (i mod 2).

(** The value [reverse_complement] returns where its shift is defined. *)
Definition rc_value (x n : Z) : Z :=
  Z.shiftr (wrap64 (wrap64 (-1) - swap_groups x)) (64 - 2 * n).

(* ================================================================== *)
(** * [KrakenDBIndex] *)

(** File type code on a Kraken DB index; the next byte gives the number of
    indexed nt.  The v2 index corresponds to a DB sorted by scrambled order. *)
Definition KRAKEN_INDEX_STRING : string := "KRAKIDX".
Definition KRAKEN_INDEX2_STRING : string := "KRAKIX2".

Record KrakenDBIndex : Type := {
  idx_type : Z;          (* uint8_t *)
  idx_fptr : region;     (* char *fptr *)
  nt : Z                 (* uint8_t *)
}.

(** [KrakenDBIndex::KrakenDBIndex(char *ptr)]. *)
Definition KrakenDBIndex_open (ptr : region) : outcome KrakenDBIndex :=
  c1 <- strncmp ptr (c_string KRAKEN_INDEX_STRING)
                (Z.to_nat (strlen KRAKEN_INDEX_STRING)) ;;
  ty <- (if negb (c1 =? 0) then
           c2 <- strncmp ptr (c_string KRAKEN_INDEX2_STRING)
                         (Z.to_nat (strlen KRAKEN_INDEX2_STRING)) ;;
           if negb (c2 =? 0)
           then Errx EX_DATAERR "illegal Kraken DB index format"
           else Ret 2
         else Ret 1) ;;
  n <- load_le ptr (strlen KRAKEN_INDEX_STRING) 1 ;;
  Ret {| idx_type := ty; idx_fptr := ptr; nt := n |}.

Definition index_type (ix : KrakenDBIndex) : Z := idx_type ix.
Definition indexed_nt (ix : KrakenDBIndex) : Z := nt ix.

(** [get_array()]: offset of the offset array within the index file. *)
Definition get_array (ix : KrakenDBIndex) : Z := strlen KRAKEN_INDEX_STRING + 1.

(** [KrakenDBIndex::at(uint64_t idx)]; [TESTING] tells whether the guard is
    compiled in. *)
Definition index_at (TESTING : bool) (ix : KrakenDBIndex) (idx : Z) : outcome Z :=
  let array := get_array ix in
  _ <- (if TESTING then
          lim <- shl_u64 1 (nt ix * 2) ;;
          if idx >? wrap64 (1 + lim)
          then Errx EX_SOFTWARE "KrakenDBIndex::at() called with illegal index"
          else Ret tt
        else Ret tt) ;;
  load_le (idx_fptr ix) (array + 8 * idx) 8.

(* ================================================================== *)
(** * [KrakenDB] *)

(** File type code for Jellyfish/Kraken DBs. *)
Definition DATABASE_FILE_TYPE : string := "JFLISTDN".

Record KrakenDB : Type := {
  fptr : option region;               (* char *fptr, NULL when unset *)
  index_ptr : option KrakenDBIndex;   (* KrakenDBIndex *index_ptr *)
  k : Z;                              (* uint8_t *)
  key_bits : Z;                       (* uint64_t *)
  key_len : Z;                        (* uint64_t *)
  val_len : Z;                        (* uint64_t *)
  key_ct : Z                          (* uint64_t *)
}.

(** [KrakenDB::KrakenDB(char *ptr)]. *)
Definition KrakenDB_open (ptr : region) : outcome KrakenDB :=
  c <- strncmp ptr (c_string DATABASE_FILE_TYPE)
               (Z.to_nat (strlen DATABASE_FILE_TYPE)) ;;
  if negb (c =? 0) then Errx EX_DATAERR "database in improper format"
  else
    kb <- load_le ptr 8 8 ;;
    vl <- load_le ptr 16 8 ;;
    kc <- load_le ptr 48 8 ;;
    if negb (vl =? 4) then Errx EX_DATAERR "can only handle 4 byte DB values"
    else
      Ret {| fptr := Some ptr;
             index_ptr := None;
             k := wrap8 (kb / 2);
             key_bits := kb;
             key_len := wrap64 (kb / 8 + (if negb (kb mod 8 =? 0) then 1 else 0));
             val_len := vl;
             key_ct := kc |}.

(** [KrakenDB::set_index]. *)
Definition set_index (db : KrakenDB) (i_ptr : KrakenDBIndex) : KrakenDB :=
  {| fptr := fptr db; index_ptr := Some i_ptr; k := k db;
     key_bits := key_bits db; key_len := key_len db;
     val_len := val_len db; key_ct := key_ct db |}.

Definition pair_size (db : KrakenDB) : Z := wrap64 (key_len db + val_len db).

Definition header_size (db : KrakenDB) : Z :=
  wrap64 (72 + 2 * (4 + 8 * key_bits db)).

(** [get_pair_ptr()]: start of the pair array, as an offset into the file. *)
Definition get_pair_ptr (db : KrakenDB) : option Z :=
  match fptr db with
  | None => None
  | Some _ => Some (header_size db)
  end.

(** Copy of [len] bytes found [off] bytes after [ptr] into a zeroed
    [uint64_t]. *)
Definition db_load (db : KrakenDB) (ptr : option Z) (off len : Z) : outcome Z :=
  match fptr db, ptr with
  | Some r, Some p => load_le r (p + off) len
  | _, _ => Undef
  end.

(** ** Bin keys *)

(** The loop shared by both overloads of [bin_key]; [count] iterations. *)
Fixpoint bin_key_loop (count : nat) (nt xor_mask mask kmer min_bin_key : Z)
  : outcome Z :=
  match count with
  | O => Ret min_bin_key
  | S count' =>
      c <- canonical_representation (Z.land kmer mask) nt ;;
      let temp_bin_key := Z.lxor xor_mask c in
      let min_bin_key :=
        if temp_bin_key <? min_bin_key then temp_bin_key else min_bin_key in
      bin_key_loop count' nt xor_mask mask (Z.shiftr kmer 2) min_bin_key
  end.

(** [bin_key(uint64_t kmer, uint64_t idx_nt)]. *)
Definition bin_key_nt (db : KrakenDB) (kmer idx_nt : Z) : outcome Z :=
  let nt := wrap8 idx_nt in
  let xor_mask := INDEX2_XOR_MASK in
  m <- shl_int 1 (nt * 2) ;;
  let mask := wrap64 m in
  let mask := wrap64 (mask - 1) in
  let xor_mask := Z.land xor_mask mask in
  let min_bin_key := wrap64 (-1) in
  bin_key_loop (Z.to_nat (wrap64 (key_bits db / 2 - nt + 1)))
               nt xor_mask mask kmer min_bin_key.

(** [bin_key(uint64_t kmer)]: minimizer length and order of the bound index. *)
Definition bin_key (db : KrakenDB) (kmer : Z) : outcome Z :=
  match index_ptr db with
  | None => Undef
  | Some ix =>
      let nt := indexed_nt ix in
      let idx_type := index_type ix in
      let xor_mask := if idx_type =? 1 then 0 else INDEX2_XOR_MASK in
      m <- shl_int 1 (nt * 2) ;;
      let mask := wrap64 m in
      let mask := wrap64 (mask - 1) in
      let xor_mask := Z.land xor_mask mask in
      let min_bin_key := wrap64 (-1) in
      bin_key_loop (Z.to_nat (wrap64 (key_bits db / 2 - nt + 1)))
                   nt xor_mask mask kmer min_bin_key
  end.

(** ** Building the index *)

(** [v[i]++] on a [vector<uint64_t>]. *)
Fixpoint vec_incr (v : list Z) (i : nat) : outcome (list Z) :=
  match v, i with
  | [], _ => Undef
  | c :: t, O => Ret (wrap64 (c + 1) :: t)
  | c :: t, S i' => t' <- vec_incr t i' ;; Ret (c :: t')
  end.

(** The counting loop of [make_index], [n] iterations from pair [i] on.  The
    increments are atomic, so the counts are those of the sequential loop. *)
Fixpoint count_bins (db : KrakenDB) (nt : Z) (ptr : option Z)
         (n : nat) (i : Z) (bin_counts : list Z) : outcome (list Z) :=
  match n with
  | O => Ret bin_counts
  | S n' =>
      kmer <- db_load db ptr (wrap64 (i * pair_size db)) (key_len db) ;;
      b_key <- bin_key_nt db kmer nt ;;
      bin_counts <- vec_incr bin_counts (Z.to_nat b_key) ;;
      count_bins db nt ptr n' (i + 1) bin_counts
  end.

(** [bin_offsets[i] = bin_offsets[i-1] + bin_counts[i-1]], after
    [bin_offsets[i-1] = prev]. *)
Fixpoint offsets_from (prev : Z) (bin_counts : list Z) : list Z :=
  match bin_counts with
  | [] => []
  | c :: t => let next := wrap64 (prev + c) in next :: offsets_from next t
  end.

(** The offset array computed by [make_index(index_filename, nt)]. *)
Definition make_index_offsets (db : KrakenDB) (nt : Z) : outcome (list Z) :=
  entries <- shl_u64 1 (nt * 2) ;;
  let bin_counts := repeat 0 (Z.to_nat entries) in
  let ptr := get_pair_ptr db in
  bin_counts <- count_bins db nt ptr (Z.to_nat (key_ct db)) 0 bin_counts ;;
  Ret (0 :: offsets_from 0 bin_counts).

(** [KrakenDB::make_index(index_filename, nt)]: the contents written to the
    index file. *)
Definition make_index (db : KrakenDB) (nt : Z) : outcome region :=
  bin_offsets <- make_index_offsets db nt ;;
  Ret (list_byte_of_string KRAKEN_INDEX2_STRING
       ++ [byte_of_Z nt]
       ++ flat_map (le_bytes 8) bin_offsets).

(** ** Variables passed by address *)

(** Addresses of the variables reached through the pointer parameters of
    [kmer_query]: variables of the caller, and the locals of a running call
    of [kmer_query] (one frame per recursion depth). *)
Inductive addr : Type :=
| Caller (n : nat)
| Frame (depth slot : nat).

Definition addr_eqb (a b : addr) : bool :=
  match a, b with
  | Caller n, Caller m => Nat.eqb n m
  | Frame d s, Frame d' s' => Nat.eqb d d' && Nat.eqb s s'
  | _, _ => false
  end.

(** A pointer parameter; [None] is [NULL]. *)
Definition pointer : Type := option addr.

(** Accesses made through pointers, most recent first. *)
Inductive access : Type :=
| ReadCell (a : addr)
| WriteCell (a : addr) (v : Z).

Record memory : Type := {
  cells : addr -> Z;
  accesses : list access
}.

Definition M (A : Type) : Type := memory -> outcome (A * memory).

Definition ret {A : Type} (a : A) : M A := fun m => Ret (a, m).

Definition mbind {A B : Type} (c : M A) (f : A -> M B) : M B :=
  fun m => r <- c m ;; f (fst r) (snd r).

Notation "x <~ c ;; f" := (mbind c (fun x => f))
  (at level 61, c at next level, right associativity).

Definition lift {A : Type} (c : outcome A) : M A :=
  fun m => a <- c ;; Ret (a, m).

Definition update (f : addr -> Z) (a : addr) (v : Z) : addr -> Z :=
  fun b => if addr_eqb a b then v else f b.

(** [*p]. *)
Definition deref (p : pointer) : M Z :=
  fun m =>
    match p with
    | None => Undef
    | Some a => Ret (cells m a, {| cells := cells m; accesses := ReadCell a :: accesses m |})
    end.

(** [*p = v]. *)
Definition assign (p : pointer) (v : Z) : M unit :=
  fun m =>
    match p with
    | None => Undef
    | Some a => Ret (tt, {| cells := update (cells m) a v;
                            accesses := WriteCell a v :: accesses m |})
    end.

(** Direct use of a local variable whose address is taken. *)
Definition get_local (a : addr) : M Z := fun m => Ret (cells m a, m).

Definition set_local (a : addr) (v : Z) : M unit :=
  fun m => Ret (tt, {| cells := update (cells m) a v; accesses := accesses m |}).

(** ** Lookup *)

(** [index_ptr->at(idx)]. *)
Definition index_ptr_at (TESTING : bool) (db : KrakenDB) (idx : Z) : outcome Z :=
  match index_ptr db with
  | None => Undef
  | Some ix => index_at TESTING ix idx
  end.

(** The key of pair [mid]: [key_len] bytes copied into [comp_kmer], trimmed
    to [key_bits] bits. *)
Definition comp_kmer_at (db : KrakenDB) (ptr : option Z) (pair_sz mid : Z)
  : outcome Z :=
  comp_kmer <- db_load db ptr (wrap64 (pair_sz * mid)) (key_len db) ;;
  m <- shl_u64 1 (key_bits db) ;;
  Ret (Z.land comp_kmer (wrap64 (m - 1))).

(** The returned pointer [ptr + pair_sz * mid + key_len], an offset into the
    file. *)
Definition value_ptr (db : KrakenDB) (ptr : option Z) (pair_sz mid : Z)
  : outcome Z :=
  match ptr with
  | None => Undef
  | Some p => Ret (p + wrap64 (pair_sz * mid) + key_len db)
  end.

(** Binary search with large window.  [inl p]: the function returns [p] from
    within the loop; [inr (min, max)]: the loop ends with this window. *)
Fixpoint binary_search (fuel : nat) (db : KrakenDB) (ptr : option Z)
         (pair_sz kmer min max : Z) : outcome (Z + Z * Z) :=
  match fuel with
  | O => OutOfFuel
  | S fuel' =>
      lim <- int64_ok (min + 15) ;;
      if lim <=? max then
        width <- int64_ok (max - min) ;;
        mid <- int64_ok (min + Z.quot width 2) ;;
        comp_kmer <- comp_kmer_at db ptr pair_sz mid ;;
        if kmer >? comp_kmer then
          min <- int64_ok (mid + 1) ;;
          binary_search fuel' db ptr pair_sz kmer min max
        else if kmer <? comp_kmer then
          max <- int64_ok (mid - 1) ;;
          binary_search fuel' db ptr pair_sz kmer min max
        else
          p <- value_ptr db ptr pair_sz mid ;; Ret (inl p)
      else Ret (inr (min, max))
  end.

(** Linear search once window shrinks.  [Some p]: the function returns [p];
    [None]: the loop ends. *)
Fixpoint linear_search (fuel : nat) (db : KrakenDB) (ptr : option Z)
         (pair_sz kmer mid max : Z) : outcome (option Z) :=
  match fuel with
  | O => OutOfFuel
  | S fuel' =>
      if mid <=? max then
        comp_kmer <- comp_kmer_at db ptr pair_sz mid ;;
        if kmer =? comp_kmer then
          p <- value_ptr db ptr pair_sz mid ;; Ret (Some p)
        else
          mid <- int64_ok (mid + 1) ;;
          linear_search fuel' db ptr pair_sz kmer mid max
      else Ret None
  end.

(** The two loops of [kmer_query] on the window [[min, max]]. *)
Definition window_search (db : KrakenDB) (ptr : option Z)
           (pair_sz kmer min max : Z) : outcome (option Z) :=
  r <- binary_search (S (Z.to_nat (max - min))) db ptr pair_sz kmer min max ;;
  match r with
  | inl p => Ret (Some p)
  | inr (min, max) =>
      linear_search (S (Z.to_nat (max - min + 1))) db ptr pair_sz kmer min max
  end.

(** [kmer_query(kmer, last_bin_key, min_pos, max_pos, retry_on_failure)];
    [depth] bounds the depth of the recursion.  The result is the returned
    pointer, [None] for [NULL]. *)
Fixpoint kmer_query_rec (depth : nat) (TESTING : bool) (db : KrakenDB) (kmer : Z)
         (last_bin_key min_pos max_pos : pointer) (retry_on_failure : bool)
  : M (option Z) :=
  match depth with
  | O => fun _ => OutOfFuel
  | S depth' =>
      let ptr := get_pair_ptr db in
      let pair_sz := pair_size db in
      (* Use provided values if they exist and are valid *)
      provided <~ (if retry_on_failure then
                     lo <~ deref min_pos ;;
                     hi <~ deref max_pos ;;
                     ret (lo <=? hi)
                   else ret false) ;;
      window <~ (if (provided : bool) then
                   b_key <~ deref last_bin_key ;;
                   min <~ deref min_pos ;;
                   max <~ deref max_pos ;;
                   ret (b_key, min, max)
                 else
                   b_key <~ lift (bin_key db kmer) ;;
                   lo <~ lift (index_ptr_at TESTING db b_key) ;;
                   hi <~ lift (index_ptr_at TESTING db (wrap64 (b_key + 1))) ;;
                   let min := to_int64 lo in
                   let max := to_int64 (wrap64 (hi - 1)) in
                   _ <~ (if retry_on_failure then
                           _ <~ assign last_bin_key b_key ;;
                           _ <~ assign min_pos min ;;
                           assign max_pos max
                         else ret tt) ;;
                   ret (b_key, min, max)) ;;
      let min := snd (fst window) in
      let max := snd window in
      found <~ lift (window_search db ptr pair_sz kmer min max) ;;
      match found with
      | Some p => ret (Some p)
      | None =>
          (* ROF implies the provided values might be out of date *)
          if retry_on_failure then
            b_key <~ lift (bin_key db kmer) ;;
            last <~ deref last_bin_key ;;
            (* If bin key hasn't changed, search fails *)
            if b_key =? last then ret None
            else
              lo <~ lift (index_ptr_at TESTING db b_key) ;;
              hi <~ lift (index_ptr_at TESTING db (wrap64 (b_key + 1))) ;;
              let min := to_int64 lo in
              let max := to_int64 (wrap64 (hi - 1)) in
              (* Recursive call w/ adjusted search params and w/o retry;
                 b_key, min and max are passed by address *)
              _ <~ set_local (Frame depth 0) b_key ;;
              _ <~ set_local (Frame depth 1) min ;;
              _ <~ set_local (Frame depth 2) max ;;
              answer <~ kmer_query_rec depth' TESTING db kmer
                          (Some (Frame depth 0)) (Some (Frame depth 1))
                          (Some (Frame depth 2)) false ;;
              b_key <~ get_local (Frame depth 0) ;;
              min <~ get_local (Frame depth 1) ;;
              max <~ get_local (Frame depth 2) ;;
              (* Update caller's search params due to bin key change *)
              _ <~ (match last_bin_key with
                    | Some _ =>
                        _ <~ assign last_bin_key b_key ;;
                        _ <~ assign min_pos min ;;
                        assign max_pos max
                    | None => ret tt
                    end) ;;
              ret answer
          else ret None
      end
  end.

(** The recursion of [kmer_query] is one call deep. *)
Definition kmer_query (TESTING : bool) (db : KrakenDB) (kmer : Z)
           (last_bin_key min_pos max_pos : pointer) (retry_on_failure : bool)
  : M (option Z) :=
  kmer_query_rec 2 TESTING db kmer last_bin_key min_pos max_pos retry_on_failure.

(** [kmer_query(uint64_t kmer)]. *)
Definition kmer_query_1 (TESTING : bool) (db : KrakenDB) (kmer : Z) : M (option Z) :=
  kmer_query TESTING db kmer None None None false.

(** [*p] for the [uint32_t *p] that a query returns. *)
Definition load_value (db : KrakenDB) (p : Z) : outcome Z :=
  match fptr db with
  | None => Undef
  | Some r => load_le r p 4
  end.

(* ================================================================== *)
(** * Test helpers ([test_kraken.cpp]) *)

(** [string_to_kmer(const string& dna_str)]; an invalid character ends the
    process with [exit(1)]. *)
Fixpoint string_to_kmer_from (dna_str : string) (kmer : Z) : outcome Z :=
  match dna_str with
  | EmptyString => Ret kmer
  | String c rest =>
      let kmer := wrap64 (Z.shiftl kmer 2) in
      if (Ascii.eqb c "A"%char || Ascii.eqb c "a"%char)%bool then
        string_to_kmer_from rest (Z.lor kmer 0)
      else if (Ascii.eqb c "C"%char || Ascii.eqb c "c"%char)%bool then
        string_to_kmer_from rest (Z.lor kmer 1)
      else if (Ascii.eqb c "G"%char || Ascii.eqb c "g"%char)%bool then
        string_to_kmer_from rest (Z.lor kmer 2)
      else if (Ascii.eqb c "T"%char || Ascii.eqb c "t"%char)%bool then
        string_to_kmer_from rest (Z.lor kmer 3)
      else Errx 1 "Invalid character in DNA string"
  end.

Definition string_to_kmer (dna_str : string) : outcome Z :=
  string_to_kmer_from dna_str 0.

(* ================================================================== *)
(** * Specification-side definitions *)

(** ** Minimizers, in the words of the specification *)

(** The [j]-th length-[nt] kmer_substring of [kmer]: the low [2 nt] bits after [j]
    right shifts by 2. *)
Definition kmer_substring (kmer nt : Z) (j : nat) : Z :=
  Z.land (Z.shiftr kmer (2 * Z.of_nat j)) (4 ^ nt - 1).

(** XOR mask of an index version: 0 for v1, [0xe37e28c4271b5a2d] for v2. *)
Definition version_xor_mask (version : Z) : Z :=
  if version =? 2 then 0xe37e28c4271b5a2d else 0.

Definition effective_xor (xor_mask nt : Z) : Z := Z.land xor_mask (4 ^ nt - 1).

Definition is_minimum (m : Z) (l : list Z) : Prop :=
  In m l /\ forall v, In v l -> m <= v.

(** ** Values computed by the bin-key loop (used in proofs) *)

Definition canonical_value (x n : Z) : Z := Z.min x (rc_value x n).

Fixpoint bin_key_loop_value (count : nat) (nt xor_mask mask kmer min_bin_key : Z) : Z :=
  match count with
  | O => min_bin_key
  | S count' =>
      bin_key_loop_value count' nt xor_mask mask (Z.shiftr kmer 2)
        (Z.min (Z.lxor xor_mask (canonical_value (Z.land kmer mask) nt)) min_bin_key)
  end.

(** The value both overloads of [bin_key] return for a minimizer length [nt]
    in [1,15]. *)
Definition bin_key_value (key_bits nt xor_mask kmer : Z) : Z :=
  bin_key_loop_value (Z.to_nat (wrap64 (key_bits / 2 - nt + 1))) nt
    (Z.land xor_mask (4 ^ nt - 1)) (4 ^ nt - 1) kmer (wrap64 (-1)).

(** ** Contents of a region (used in statements and proofs) *)

Definition bytes_at (r : region) (off len : Z) : list byte :=
  firstn (Z.to_nat len) (skipn (Z.to_nat off) r).

(** The little-endian number held by the [len] bytes at offset [off]. *)
Definition word_at (r : region) (off len : Z) : Z := le_value (bytes_at r off len).

(** Entry [i] of the offset array of an index file. *)
Definition offset_entry (ix : KrakenDBIndex) (i : Z) : Z :=
  word_at (idx_fptr ix) (get_array ix + 8 * i) 8.

(** The index file holds its [4^nt + 1] offsets. *)
Definition index_mapped (ix : KrakenDBIndex) : Prop :=
  get_array ix + 8 * (4 ^ nt ix + 1) <= Z.of_nat (List.length (idx_fptr ix)).

(** ** Well-formed databases *)

(** The fields of [db] are those of a database over the mapped file [r]
    holding [key_ct] pairs, with keys of at most 64 bits. *)
Record db_mapped (db : KrakenDB) (r : region) : Prop := {
  mapped_fptr : fptr db = Some r;
  mapped_key_bits : 0 <= key_bits db <= 64;
  mapped_key_len : key_len db = (key_bits db + 7) / 8;
  mapped_val_len : val_len db = 4;
  mapped_key_ct : 0 <= key_ct db;
  mapped_pairs :
    header_size db + key_ct db * pair_size db <= Z.of_nat (List.length r);
  mapped_size : Z.of_nat (List.length r) < 2 ^ 64
}.

Definition total (l : list Z) : Z := fold_right Z.add 0 l.

(** The fields a database constructor derives from the header. *)
Definition header_fields (db : KrakenDB) : Z * Z * Z * Z * Z :=
  (k db, key_bits db, key_len db, val_len db, key_ct db).

(** ** No [BadFormat] exit *)

(** The call does not end in [errx(EX_DATAERR, ...)]. *)
Definition no_dataerr {A : Type} (c : outcome A) : Prop :=
  forall msg, c <> Errx EX_DATAERR msg.

(* ================================================================== *)
(** * A small database (scenario S5 of the specification)

    The pairs (CCCC, 30), (ACGT, 20), (AAAA, 10) with [k = 4], sorted by the
    bin key for [nt = 2] under the v2 order, and the index built for them. *)

Definition pair_bytes (key_len : nat) (key value : Z) : list byte :=
  le_bytes key_len key ++ le_bytes 4 value.

Definition example_file : region :=
  list_byte_of_string "JFLISTDN" ++ le_bytes 8 8 ++ le_bytes 8 4
  ++ repeat x00 24 ++ le_bytes 8 3 ++ repeat x00 152
  ++ pair_bytes 1 0x55 30 ++ pair_bytes 1 0x1B 20 ++ pair_bytes 1 0x00 10.

Definition example_db : KrakenDB :=
  {| fptr := Some example_file; index_ptr := None; k := 4; key_bits := 8;
     key_len := 1; val_len := 4; key_ct := 3 |}.

Definition example_index_file : region :=
  list_byte_of_string "KRAKIX2" ++ [x02]
  ++ flat_map (le_bytes 8) [0; 0; 0; 0; 0; 0; 0; 0; 0; 1; 1; 1; 2; 2; 3; 3; 3].

Definition example_index : KrakenDBIndex :=
  {| idx_type := 2; idx_fptr := example_index_file; nt := 2 |}.

Definition example_bound_db : KrakenDB := set_index example_db example_index.

(** A header announcing 512-bit keys. *)
Definition wide_key_header : region :=
  list_byte_of_string "JFLISTDN" ++ le_bytes 8 512 ++ le_bytes 8 4
  ++ repeat x00 24 ++ le_bytes 8 0.

(* ================================================================== *)
(** * Queries: specification-side definitions *)

(** The key stored in pair [i], trimmed to [key_bits] bits, and the value
    stored with it. *)
Definition stored_key (db : KrakenDB) (r : region) (i : Z) : Z :=
  Z.land (word_at r (header_size db + pair_size db * i) (key_len db))
         (2 ^ key_bits db - 1).

Definition value_offset (db : KrakenDB) (i : Z) : Z :=
  header_size db + pair_size db * i + key_len db.

Definition stored_value (db : KrakenDB) (r : region) (i : Z) : Z :=
  word_at r (value_offset db i) 4.

(** The bin key of a k-mer under the bound index. *)
Definition bin_of (db : KrakenDB) (kmer : Z) : Z :=
  match bin_key db kmer with
  | Ret b => b
  | _ => 0
  end.

(** A database over the mapped file [r], bound to an index with a supported
    minimizer length whose offset array is mapped. *)
Record db_bound (db : KrakenDB) (r : region) (ix : KrakenDBIndex) : Prop := {
  bound_mapped : db_mapped db r;
  bound_index : index_ptr db = Some ix;
  bound_nt : 1 <= nt ix <= 15;
  bound_nt_k : nt ix <= key_bits db / 2;
  bound_offsets : index_mapped ix
}.

(** Invariants I1-I3 of the pair array. *)
Record pair_array_invariants (db : KrakenDB) (r : region) : Prop := {
  inv_canonical :
    forall i, 0 <= i < key_ct db ->
      canonical_representation (stored_key db r i) (k db) = Ret (stored_key db r i);
  inv_increasing :
    forall i j, 0 <= i < j -> j < key_ct db ->
      bin_of db (stored_key db r i) = bin_of db (stored_key db r j) ->
      stored_key db r i < stored_key db r j;
  inv_bin_order :
    forall i j, 0 <= i <= j -> j < key_ct db ->
      bin_of db (stored_key db r i) <= bin_of db (stored_key db r j)
}.

(** Invariants of the bound index: its offsets start at 0, do not decrease,
    end at [key_ct], and delimit the bins. *)
Record index_invariants (db : KrakenDB) (r : region) (ix : KrakenDBIndex) : Prop := {
  inv_first : offset_entry ix 0 = 0;
  inv_monotone :
    forall b, 0 <= b < 4 ^ nt ix -> offset_entry ix b <= offset_entry ix (b + 1);
  inv_last : offset_entry ix (4 ^ nt ix) = key_ct db;
  inv_delimits :
    forall b i, 0 <= b < 4 ^ nt ix -> 0 <= i < key_ct db ->
      (offset_entry ix b <= i < offset_entry ix (b + 1)
       <-> bin_of db (stored_key db r i) = b)
}.

(** ** The state of the amortised query *)

(** [last_bin_key], [min_pos], [max_pos]. *)
Definition query_state : Type := Z * Z * Z.

Definition state_cells (st : query_state) : addr -> Z :=
  fun a =>
    match a with
    | Caller 0 => fst (fst st)
    | Caller 1 => snd (fst st)
    | Caller 2 => snd st
    | _ => 0
    end.

Definition state_memory (st : query_state) : memory :=
  {| cells := state_cells st; accesses := [] |}.

Definition memory_state (m : memory) : query_state :=
  (cells m (Caller 0), cells m (Caller 1), cells m (Caller 2)).

(** [kmer_query(kmer, &last_bin_key, &min_pos, &max_pos, true)] on the three
    variables of a caller. *)
Definition kmer_query_state (TESTING : bool) (db : KrakenDB) (kmer : Z)
           (st : query_state) : outcome (option Z * query_state) :=
  r <- kmer_query TESTING db kmer (Some (Caller 0)) (Some (Caller 1))
         (Some (Caller 2)) true (state_memory st) ;;
  Ret (fst r, memory_state (snd r)).

(** States a caller can hold: an initial state with [min_pos > max_pos], or
    the state left by a query. *)
Inductive reachable_state (TESTING : bool) (db : KrakenDB) : query_state -> Prop :=
| reach_initial (last_bin_key min_pos max_pos : Z) :
    0 <= last_bin_key < 2 ^ 64 ->
    - 2 ^ 63 <= min_pos < 2 ^ 63 -> - 2 ^ 63 <= max_pos < 2 ^ 63 ->
    min_pos > max_pos ->
    reachable_state TESTING db (last_bin_key, min_pos, max_pos)
| reach_query (st st' : query_state) (kmer : Z) (res : option Z) :
    reachable_state TESTING db st ->
    0 <= kmer < 2 ^ 64 ->
    kmer_query_state TESTING db kmer st = Ret (res, st') ->
    reachable_state TESTING db st'.

(** ** Full lookup (used in proofs) *)

(** The bin of [kmer] and its window. *)
Definition bin_window (TESTING : bool) (db : KrakenDB) (kmer : Z)
  : outcome (Z * Z * Z) :=
  b_key <- bin_key db kmer ;;
  lo <- index_ptr_at TESTING db b_key ;;
  hi <- index_ptr_at TESTING db (wrap64 (b_key + 1)) ;;
  Ret (b_key, to_int64 lo, to_int64 (wrap64 (hi - 1))).

Definition fresh_lookup (TESTING : bool) (db : KrakenDB) (kmer : Z)
  : outcome (option Z) :=
  w <- bin_window TESTING db kmer ;;
  window_search db (get_pair_ptr db) (pair_size db) kmer (snd (fst w)) (snd w).

(** The cached state agrees with the index. *)
Definition state_consistent (db : KrakenDB) (ix : KrakenDBIndex) (st : query_state)
  : Prop :=
  let '(last_bin_key, min_pos, max_pos) := st in
  min_pos > max_pos \/
  (0 <= last_bin_key < 4 ^ nt ix /\
   min_pos = offset_entry ix last_bin_key /\
   max_pos = offset_entry ix (last_bin_key + 1) - 1).

(* ================================================================== *)
(** * A database with 64-bit keys

    One pair, (A x 31 C, 7), with [k = 32] and the index built for [nt = 1]. *)

Definition wide_file : region :=
  list_byte_of_string "JFLISTDN" ++ le_bytes 8 64 ++ le_bytes 8 4
  ++ repeat x00 24 ++ le_bytes 8 1 ++ repeat x00 1048
  ++ pair_bytes 8 1 7.

Definition wide_index_file : region :=
  list_byte_of_string "KRAKIX2" ++ [x01]
  ++ flat_map (le_bytes 8) [0; 1; 1; 1; 1].

Definition wide_index : KrakenDBIndex :=
  {| idx_type := 2; idx_fptr := wide_index_file; nt := 1 |}.

Definition wide_db : KrakenDB :=
  {| fptr := Some wide_file; index_ptr := Some wide_index; k := 32;
     key_bits := 64; key_len := 8; val_len := 4; key_ct := 1 |}.

(** A memory without accesses. *)
Definition empty_memory : memory := {| cells := fun _ => 0; accesses := [] |}.

(** The keys of the pairs [lo .. hi] are strictly increasing. *)
Definition increasing_keys (db : KrakenDB) (r : region) (lo hi : Z) : Prop :=
  forall i j, lo <= i < j -> j <= hi -> stored_key db r i < stored_key db r j.

(* ================================================================== *)
(** * Further members of [KrakenDB] *)

(** [KrakenDB::KrakenDB()]. *)
Definition KrakenDB_default : KrakenDB :=
  {| fptr := None; index_ptr := None; key_ct := 0; val_len := 0; key_len := 0;
     key_bits := 0; k := 0 |}.

(** Simple accessors. *)
Definition get_ptr (db : KrakenDB) : option region := fptr db.
Definition get_index (db : KrakenDB) : option KrakenDBIndex := index_ptr db.
Definition get_k (db : KrakenDB) : Z := k db.
Definition get_key_bits (db : KrakenDB) : Z := key_bits db.
Definition get_key_len (db : KrakenDB) : Z := key_len db.
Definition get_val_len (db : KrakenDB) : Z := val_len db.
Definition get_key_ct (db : KrakenDB) : Z := key_ct db.

(** [reverse_complement(uint64_t kmer)]: the length is the [k] of the
    database. *)
Definition reverse_complement_k (db : KrakenDB) (kmer : Z) : outcome Z :=
  let kmer := Z.lor (Z.land (Z.shiftr kmer 2) 0x3333333333333333)
                    (wrap64 (Z.shiftl (Z.land kmer 0x3333333333333333) 2)) in
  let kmer := Z.lor (Z.land (Z.shiftr kmer 4) 0x0F0F0F0F0F0F0F0F)
                    (wrap64 (Z.shiftl (Z.land kmer 0x0F0F0F0F0F0F0F0F) 4)) in
  let kmer := Z.lor (Z.land (Z.shiftr kmer 8) 0x00FF00FF00FF00FF)
                    (wrap64 (Z.shiftl (Z.land kmer 0x00FF00FF00FF00FF) 8)) in
  let kmer := Z.lor (Z.land (Z.shiftr kmer 16) 0x0000FFFF0000FFFF)
                    (wrap64 (Z.shiftl (Z.land kmer 0x0000FFFF0000FFFF) 16)) in
  let kmer := Z.lor (Z.shiftr kmer 32) (wrap64 (Z.shiftl kmer 32)) in
  shr_u64 (wrap64 (wrap64 (-1) - kmer)) (wrap64 (8 * 8 - Z.shiftl (k db) 1)).

(** [canonical_representation(uint64_t kmer)]. *)
Definition canonical_representation_k (db : KrakenDB) (kmer : Z) : outcome Z :=
  revcom <- reverse_complement kmer (k db) ;;
  Ret (if kmer <? revcom then kmer else revcom).

(** [FAST_COPY(&x, src + off, nbytes)] for a [uint64_t x] whose eight bytes
    are [dst]: the bytes are copied one by one, [_i] counting them. *)
Fixpoint FAST_COPY_from (fuel : nat) (dst : list byte) (src : region)
         (off nbytes _i : Z) : outcome (list byte) :=
  match fuel with
  | O => OutOfFuel
  | S fuel' =>
      if _i <? nbytes then
        match nth_error src (Z.to_nat (off + _i)) with
        | None => Undef
        | Some b =>
            if _i <? Z.of_nat (List.length dst) then
              let dst := firstn (Z.to_nat _i) dst ++ b :: skipn (S (Z.to_nat _i)) dst in
              if _i + 1 <? 2 ^ 31
              then FAST_COPY_from fuel' dst src off nbytes (_i + 1)
              else Undef
            else Undef
        end
      else Ret dst
  end.

(** [x = 0; FAST_COPY(&x, src + off, nbytes)]: the value of [x]. *)
Definition FAST_COPY (src : region) (off nbytes : Z) : outcome Z :=
  if off <? 0 then Undef
  else
    dst <- FAST_COPY_from (S (Z.to_nat nbytes)) (repeat x00 8) src off nbytes 0 ;;
    Ret (le_value dst).

(** Two regions that are no database: the first does not start with the
    file type code, the second announces 8-byte values. *)
Definition bad_magic_file : region :=
  list_byte_of_string "JFLISTDX" ++ le_bytes 8 8 ++ le_bytes 8 4
  ++ repeat x00 24 ++ le_bytes 8 0.

Definition bad_val_len_file : region :=
  list_byte_of_string "JFLISTDN" ++ le_bytes 8 8 ++ le_bytes 8 8
  ++ repeat x00 24 ++ le_bytes 8 0.

(* ================================================================== *)
(** * Further test helpers ([test_kraken.cpp]) *)

(** [kmer_to_string(uint64_t kmer, uint8_t length)]; [count] iterations of
    the loop. *)
Fixpoint kmer_to_string_loop (count : nat) (kmer : Z) (result : string) : string :=
  match count with
  | O => result
  | S count' =>
      let base := wrap8 (Z.land kmer 3) in
      let result :=
        if base =? 0 then String "A"%char result
        else if base =? 1 then String "C"%char result
        else if base =? 2 then String "G"%char result
        else if base =? 3 then String "T"%char result
        else result in
      kmer_to_string_loop count' (Z.shiftr kmer 2) result
  end.

Definition kmer_to_string (kmer length : Z) : string :=
  kmer_to_string_loop (Z.to_nat length) kmer EmptyString.

Definition wrap128 (z : Z) : Z := z mod 2 ^ 128.

(** [string_to_kmer128(const string& dna_str)], on [__uint128_t]. *)
Fixpoint string_to_kmer128_from (dna_str : string) (kmer : Z) : outcome Z :=
  match dna_str with
  | EmptyString => Ret kmer
  | String c rest =>
      let kmer := wrap128 (Z.shiftl kmer 2) in
      if (Ascii.eqb c "A"%char || Ascii.eqb c "a"%char)%bool then
        string_to_kmer128_from rest (Z.lor kmer 0)
      else if (Ascii.eqb c "C"%char || Ascii.eqb c "c"%char)%bool then
        string_to_kmer128_from rest (Z.lor kmer 1)
      else if (Ascii.eqb c "G"%char || Ascii.eqb c "g"%char)%bool then
        string_to_kmer128_from rest (Z.lor kmer 2)
      else if (Ascii.eqb c "T"%char || Ascii.eqb c "t"%char)%bool then
        string_to_kmer128_from rest (Z.lor kmer 3)
      else Errx 1 "Invalid character in DNA string"
  end.

Definition string_to_kmer128 (dna_str : string) : outcome Z :=
  string_to_kmer128_from dna_str 0.

(** [std::to_string(unsigned long long)]: the decimal digits of [n] (at most
    20), written before [digits]. *)
Fixpoint to_string_from (fuel : nat) (n : Z) (digits : string) : string :=
  match fuel with
  | O => digits
  | S fuel' =>
      let digits := String (ascii_of_nat (48 + Z.to_nat (n mod 10))) digits in
      if n <? 10 then digits else to_string_from fuel' (n / 10) digits
  end.

Definition to_string (n : Z) : string := to_string_from 20 n EmptyString.

(** The loop of [uint128_to_string]. *)
Fixpoint uint128_to_string_loop (fuel : nat) (temp : Z) (result : string)
  : outcome string :=
  match fuel with
  | O => OutOfFuel
  | S fuel' =>
      if temp >? 0 then
        uint128_to_string_loop fuel' (temp / 10)
          (to_string (wrap64 (temp mod 10)) ++ result)
      else Ret result
  end.

(** [uint128_to_string(__uint128_t value)]; a 128-bit value has at most 39
    digits. *)
Definition uint128_to_string (value : Z) : outcome string :=
  if value =? 0 then Ret "0"%string
  else uint128_to_string_loop 40 value EmptyString.

(* ================================================================== *)
(** * DNA strings (used in statements) *)

(** The 2-bit code of a nucleotide character, as the [switch] of
    [string_to_kmer] reads it. *)
Definition base_of (c : ascii) : option Z :=
  if (Ascii.eqb c "A"%char || Ascii.eqb c "a"%char)%bool then Some 0
  else if (Ascii.eqb c "C"%char || Ascii.eqb c "c"%char)%bool then Some 1
  else if (Ascii.eqb c "G"%char || Ascii.eqb c "g"%char)%bool then Some 2
  else if (Ascii.eqb c "T"%char || Ascii.eqb c "t"%char)%bool then Some 3
  else None.

(** The character [kmer_to_string] writes for a 2-bit code. *)
Definition base_char (b : Z) : ascii :=
  if b =? 0 then "A"%char else if b =? 1 then "C"%char
  else if b =? 2 then "G"%char else "T"%char.

(** Every character is one of A, C, G, T, in either case. *)
Fixpoint valid_dna (s : string) : bool :=
  match s with
  | EmptyString => true
  | String c rest =>
      match base_of c with Some _ => valid_dna rest | None => false end
  end.

Definition upcase (c : ascii) : ascii :=
  match base_of c with Some b => base_char b | None => c end.

(** The complementary nucleotide: A with T, C with G. *)
Definition complement (c : ascii) : ascii :=
  if (Ascii.eqb c "A"%char || Ascii.eqb c "a"%char)%bool then "T"%char
  else if (Ascii.eqb c "C"%char || Ascii.eqb c "c"%char)%bool then "G"%char
  else if (Ascii.eqb c "G"%char || Ascii.eqb c "g"%char)%bool then "C"%char
  else if (Ascii.eqb c "T"%char || Ascii.eqb c "t"%char)%bool then "A"%char
  else c.

Fixpoint string_map (f : ascii -> ascii) (s : string) : string :=
  match s with
  | EmptyString => EmptyString
  | String c rest => String (f c) (string_map f rest)
  end.

(** The reverse complement of a DNA string: the complementary nucleotides in
    reverse order. *)
Definition reverse_complement_string (s : string) : string :=
  string_of_list_ascii (map complement (rev (list_ascii_of_string s))).

(** Nucleotide [j] of a k-mer, counted from its last one. *)
Definition nucleotide (kmer : Z) (j : nat) : Z :=
  Z.land (Z.shiftr kmer (2 * Z.of_nat j)) 3.

(** The string whose characters are [f (n-1)], ..., [f 0], before [res]. *)
Fixpoint chars (n : nat) (f : nat -> ascii) (res : string) : string :=
  match n with
  | O => res
  | S n' => String (f n') (chars n' f res)
  end.

(* ================================================================== *)
(** * Counting the pairs of a bin (used in statements and proofs) *)

(** The bin key [make_index] computes for pair [i]: that of the key bytes as
    they are in the file. *)
Definition pair_bin (db : KrakenDB) (r : region) (nt : Z) (i : Z) : Z :=
  bin_key_value (key_bits db) nt INDEX2_XOR_MASK
    (word_at r (header_size db + pair_size db * i) (key_len db)).

(** The number of [j] in [[i, i + n)] with [f j < b]. *)
Fixpoint count_lt (f : Z -> Z) (i : Z) (n : nat) (b : Z) : Z :=
  match n with
  | O => 0
  | S n' => (if f i <? b then 1 else 0) + count_lt f (i + 1) n' b
  end.

(** The eight bytes of a zeroed [uint64_t] once the bytes [done] are copied
    into it. *)
Definition copied (done : list byte) : list byte :=
  done ++ repeat x00 (8 - List.length done).

(* ================================================================== *)
(** * Numbers written in base 4 and base 10 (used in statements) *)

(** The base-4 number a DNA string writes after the digits already read
    into [acc], without the wrap-around of a machine word. *)
Fixpoint dna_value_from (s : string) (acc : Z) : Z :=
  match s with
  | EmptyString => acc
  | String c rest =>
      match base_of c with
      | Some b => dna_value_from rest (4 * acc + b)
      | None => 0
      end
  end.

Definition dna_value (s : string) : Z := dna_value_from s 0.

(** The number a string of decimal digits writes; [None] when a character is
    not a digit. *)
Fixpoint decimal_value_from (s : string) (acc : Z) : option Z :=
  match s with
  | EmptyString => Some acc
  | String c rest =>
      let d := Z.of_nat (nat_of_ascii c) - 48 in
      if (0 <=? d) && (d <=? 9) then decimal_value_from rest (10 * acc + d)
      else None
  end.

Definition decimal_value (s : string) : option Z := decimal_value_from s 0.

(** The lexicographic order of DNA strings, nucleotide by nucleotide with
    A < C < G < T. *)
Fixpoint dna_lt (s t : string) : bool :=
  match s, t with
  | String c s', String d t' =>
      match base_of c, base_of d with
      | Some a, Some b => (a <? b) || ((a =? b) && dna_lt s' t')
      | _, _ => false
      end
  | _, _ => false
  end.

(* ================================================================== *)
(** * Machine-integer facts *)

Lemma wrap64_range z : 0 <= wrap64 z < 2 ^ 64.
Proof. unfold wrap64. apply Z.mod_pos_bound. lia. Qed.

Lemma wrap64_small z : 0 <= z < 2 ^ 64 -> wrap64 z = z.
Proof. intros. unfold wrap64. apply Z.mod_small. assumption. Qed.

Lemma wrap64_bits z i : Z.testbit (wrap64 z) i = (i <? 64) && Z.testbit z i.
Proof. unfold wrap64. apply Z.testbit_mod_pow2. lia. Qed.

Lemma bits_above (a n i : Z) : 0 <= a < 2 ^ n -> n <= i -> Z.testbit a i = false.
Proof.
  intros Ha Hi.
  destruct (Z.eq_dec a 0) as [->|Hz]; [apply Z.bits_0|].
  apply Z.bits_above_log2; [lia|].
  assert (0 <= n) by (destruct (Z_lt_le_dec n 0) as [Hn|]; [|lia];
                      rewrite (Z.pow_neg_r 2 n Hn) in Ha; lia).
  apply Z.log2_lt_pow2; [lia|].
  pose proof (Z.pow_le_mono_r 2 n i ltac:(lia) Hi). lia.
Qed.

Lemma bits_range (a n : Z) :
  0 <= n -> 0 <= a ->
  (forall i, n <= i -> Z.testbit a i = false) -> a < 2 ^ n.
Proof.
  intros Hn Ha Hb.
  destruct (Z.eq_dec a 0) as [->|Hz]; [apply Z.pow_pos_nonneg; lia|].
  apply Z.log2_lt_pow2; [lia|].
  destruct (Z_lt_le_dec (Z.log2 a) n) as [|Hge]; [assumption|].
  specialize (Hb _ Hge). rewrite Z.bit_log2 in Hb by lia. discriminate.
Qed.

Lemma bits64_spec (f : Z -> bool) :
  forallb f bits64 = true -> forall p, 0 <= p < 64 -> f p = true.
Proof.
  intros H p Hp. rewrite forallb_forall in H. apply H.
  unfold bits64. apply in_map_iff. exists (Z.to_nat p). split; [lia|].
  apply in_seq. lia.
Qed.

(* ================================================================== *)
(** * Reverse complement: bits *)

Lemma swap_step_range s M x : 0 <= M < 2 ^ 64 -> 0 <= x -> 0 <= s -> 0 <= swap_step s M x < 2 ^ 64.
Proof.
  intros HM Hx Hs. unfold swap_step.
  assert (H1 : 0 <= Z.land (Z.shiftr x s) M) by (apply Z.land_nonneg; lia).
  pose proof (wrap64_range (Z.shiftl (Z.land x M) s)) as H2.
  split; [apply Z.lor_nonneg; lia|].
  apply bits_range; [lia|apply Z.lor_nonneg; lia|].
  intros i Hi. rewrite Z.lor_spec, Z.land_spec, wrap64_bits.
  rewrite (bits_above M 64 i) by lia.
  replace (i <? 64) with false by (symmetry; apply Z.ltb_ge; lia).
  now rewrite andb_false_r.
Qed.

Lemma swap_step_bits s M x p :
  0 < s -> 0 <= x < 2 ^ 64 -> 0 <= p < 64 -> mask_ok_at s M p = true ->
  Z.testbit (swap_step s M x) p = Z.testbit x (step_src s M p).
Proof.
  intros Hs Hx Hp Hok. unfold swap_step, step_src, mask_ok_at in *.
  rewrite Z.lor_spec, Z.land_spec, wrap64_bits, Z.shiftr_spec, Z.shiftl_spec, Z.land_spec by lia.
  replace (p <? 64) with true by (symmetry; apply Z.ltb_lt; lia).
  destruct (Z.testbit M p) eqn:HM.
  - apply andb_prop in Hok as [_ Hok]. apply orb_prop in Hok as [Hlt|Hm].
    + apply Z.ltb_lt in Hlt. rewrite (Z.testbit_neg_r x (p - s)) by lia.
      now rewrite andb_true_r, orb_false_r.
    + apply negb_true_iff in Hm. rewrite Hm.
      now rewrite andb_true_r, !andb_false_r, orb_false_r.
  - apply andb_prop in Hok as [_ Hm]. rewrite Hm.
    now rewrite andb_false_r, andb_true_r.
Qed.

Lemma step_src_range s M p :
  0 < s -> 0 <= p < 64 -> mask_ok_at s M p = true -> 0 <= step_src s M p < 64.
Proof.
  intros Hs Hp Hok. unfold step_src, mask_ok_at in *.
  destruct (Z.testbit M p).
  - apply andb_prop in Hok as [Hlt _]. apply Z.ltb_lt in Hlt. lia.
  - apply andb_prop in Hok as [Hle _]. apply Z.leb_le in Hle. lia.
Qed.

Lemma masks_ok :
  forallb (fun p => mask_ok_at 2 0x3333333333333333 p
                    && mask_ok_at 4 0x0F0F0F0F0F0F0F0F p
                    && mask_ok_at 8 0x00FF00FF00FF00FF p
                    && mask_ok_at 16 0x0000FFFF0000FFFF p
                    && (groups_src p =? 62 - p + 2 * (p mod 2))) bits64 = true.
Proof. vm_compute. reflexivity. Qed.

Lemma masks_ok_at p :
  0 <= p < 64 ->
  mask_ok_at 2 0x3333333333333333 p = true /\
  mask_ok_at 4 0x0F0F0F0F0F0F0F0F p = true /\
  mask_ok_at 8 0x00FF00FF00FF00FF p = true /\
  mask_ok_at 16 0x0000FFFF0000FFFF p = true /\
  groups_src p = 62 - p + 2 * (p mod 2).
Proof.
  intros Hp. pose proof (bits64_spec _ masks_ok p Hp) as H. cbv beta in H.
  repeat (apply andb_prop in H as [H ?]).
  rewrite Z.eqb_eq in *. auto.
Qed.

Lemma swap_groups_range x : 0 <= x < 2 ^ 64 -> 0 <= swap_groups x < 2 ^ 64.
Proof.
  intros Hx. unfold swap_groups. cbv zeta.
  set (y := swap_step 16 _ _).
  assert (Hy : 0 <= y < 2 ^ 64).
  { subst y. apply swap_step_range; try lia.
    repeat (apply swap_step_range; try lia). }
  pose proof (wrap64_range (Z.shiftl y 32)).
  assert (0 <= Z.shiftr y 32) by (apply Z.shiftr_nonneg; lia).
  split; [apply Z.lor_nonneg; lia|].
  apply bits_range; [lia|apply Z.lor_nonneg; lia|].
  intros i Hi. rewrite Z.lor_spec, Z.shiftr_spec, wrap64_bits by lia.
  rewrite (bits_above y 64 (i + 32)) by lia.
  replace (i <? 64) with false by (symmetry; apply Z.ltb_ge; lia).
  reflexivity.
Qed.

Lemma swap_groups_bits x p :
  0 <= x < 2 ^ 64 -> 0 <= p < 64 ->
  Z.testbit (swap_groups x) p = Z.testbit x (62 - p + 2 * (p mod 2)).
Proof.
  intros Hx Hp.
  destruct (masks_ok_at p Hp) as (_ & _ & _ & _ & <-).
  unfold swap_groups, groups_src. cbv zeta.
  set (q := if p <? 32 then p + 32 else p - 32).
  assert (Hq : 0 <= q < 64) by (subst q; destruct (Z.ltb_spec p 32); lia).
  set (x1 := swap_step 2 _ x).
  set (x2 := swap_step 4 _ x1).
  set (x3 := swap_step 8 _ x2).
  set (x4 := swap_step 16 _ x3).
  assert (H1 : 0 <= x1 < 2 ^ 64) by (apply swap_step_range; lia).
  assert (H2 : 0 <= x2 < 2 ^ 64) by (apply swap_step_range; lia).
  assert (H3 : 0 <= x3 < 2 ^ 64) by (apply swap_step_range; lia).
  assert (H4 : 0 <= x4 < 2 ^ 64) by (apply swap_step_range; lia).
  assert (Hlast : Z.testbit (Z.lor (Z.shiftr x4 32) (wrap64 (Z.shiftl x4 32))) p
                  = Z.testbit x4 q).
  { rewrite Z.lor_spec, Z.shiftr_spec, wrap64_bits, Z.shiftl_spec by lia.
    replace (p <? 64) with true by (symmetry; apply Z.ltb_lt; lia).
    subst q. destruct (Z.ltb_spec p 32).
    - rewrite (Z.testbit_neg_r x4 (p - 32)) by lia. now rewrite orb_false_r.
    - rewrite (bits_above x4 64 (p + 32)) by lia. reflexivity. }
  rewrite Hlast.
  destruct (masks_ok_at q Hq) as (_ & _ & _ & Hm16 & _).
  subst x4. rewrite swap_step_bits by (auto; lia).
  set (q16 := step_src 16 _ q).
  assert (Hq16 : 0 <= q16 < 64) by (apply step_src_range; auto; lia).
  destruct (masks_ok_at q16 Hq16) as (_ & _ & Hm8 & _ & _).
  subst x3. rewrite swap_step_bits by (auto; lia).
  set (q8 := step_src 8 _ q16).
  assert (Hq8 : 0 <= q8 < 64) by (apply step_src_range; auto; lia).
  destruct (masks_ok_at q8 Hq8) as (_ & Hm4 & _ & _ & _).
  subst x2. rewrite swap_step_bits by (auto; lia).
  set (q4 := step_src 4 _ q8).
  assert (Hq4 : 0 <= q4 < 64) by (apply step_src_range; auto; lia).
  destruct (masks_ok_at q4 Hq4) as (Hm2 & _ & _ & _ & _).
  subst x1. rewrite swap_step_bits by (auto; lia).
  reflexivity.
Qed.

Lemma pow2_le_64 n : 0 <= n <= 64 -> 0 < 2 ^ n <= 2 ^ 64.
Proof.
  intros Hn. split; [apply Z.pow_pos_nonneg; lia|].
  apply Z.pow_le_mono_r; lia.
Qed.

Lemma reverse_complement_value x n :
  1 <= n <= 32 -> reverse_complement x n = Ret (rc_value x n).
Proof.
  intros Hn. unfold reverse_complement, rc_value, shr_u64. cbv zeta.
  fold (swap_step 2 0x3333333333333333 x).
  fold (swap_step 4 0x0F0F0F0F0F0F0F0F (swap_step 2 0x3333333333333333 x)).
  fold (swap_step 8 0x00FF00FF00FF00FF
          (swap_step 4 0x0F0F0F0F0F0F0F0F (swap_step 2 0x3333333333333333 x))).
  fold (swap_step 16 0x0000FFFF0000FFFF
          (swap_step 8 0x00FF00FF00FF00FF
             (swap_step 4 0x0F0F0F0F0F0F0F0F (swap_step 2 0x3333333333333333 x)))).
  rewrite Z.shiftl_mul_pow2 by lia.
  replace (8 * 8 - n * 2 ^ 1) with (64 - 2 * n) by lia.
  rewrite (wrap64_small (64 - 2 * n)) by lia.
  replace (0 <=? 64 - 2 * n) with true by (symmetry; apply Z.leb_le; lia).
  replace (64 - 2 * n <? 64) with true by (symmetry; apply Z.ltb_lt; lia).
  reflexivity.
Qed.

Lemma complement_bits r j :
  0 <= r < 2 ^ 64 -> 0 <= j ->
  Z.testbit (wrap64 (wrap64 (-1) - r)) j = (j <? 64) && negb (Z.testbit r j).
Proof.
  intros Hr Hj.
  replace (wrap64 (-1)) with (2 ^ 64 - 1) by reflexivity.
  replace (2 ^ 64 - 1 - r) with (Z.lnot r + 1 * 2 ^ 64) by (unfold Z.lnot; lia).
  unfold wrap64. rewrite Z.mod_add by lia.
  rewrite Z.testbit_mod_pow2 by lia. now rewrite Z.lnot_spec.
Qed.

Lemma rc_value_bits x n i :
  1 <= n <= 32 -> 0 <= x < 2 ^ 64 -> 0 <= i ->
  Z.testbit (rc_value x n) i = (i <? 2 * n) && negb (Z.testbit x (rc_src n i)).
Proof.
  intros Hn Hx Hi. unfold rc_value.
  rewrite Z.shiftr_spec by lia.
  rewrite complement_bits by (try apply swap_groups_range; lia).
  destruct (Z.ltb_spec i (2 * n)) as [Hlt|Hge].
  - replace (i + (64 - 2 * n) <? 64) with true by (symmetry; apply Z.ltb_lt; lia).
    rewrite swap_groups_bits by lia.
    unfold rc_src. cbn [andb]. do 2 f_equal.
    replace (i + (64 - 2 * n)) with (i + (32 - n) * 2) by lia.
    rewrite Z.mod_add by lia. lia.
  - replace (i + (64 - 2 * n) <? 64) with false by (symmetry; apply Z.ltb_ge; lia).
    reflexivity.
Qed.

Lemma rc_value_range x n :
  1 <= n <= 32 -> 0 <= x < 2 ^ 64 -> 0 <= rc_value x n < 2 ^ (2 * n).
Proof.
  intros Hn Hx.
  assert (Hnn : 0 <= rc_value x n).
  { unfold rc_value. apply Z.shiftr_nonneg. apply wrap64_range. }
  split; [assumption|].
  apply bits_range; [lia|assumption|].
  intros i Hi. rewrite rc_value_bits by lia.
  replace (i <? 2 * n) with false by (symmetry; apply Z.ltb_ge; lia).
  reflexivity.
Qed.

Lemma kmer_below_word x n : 1 <= n <= 32 -> 0 <= x < 2 ^ (2 * n) -> 0 <= x < 2 ^ 64.
Proof.
  intros Hn Hx. pose proof (pow2_le_64 (2 * n) ltac:(lia)). lia.
Qed.

Lemma rc_src_involutive n i :
  0 <= i < 2 * n -> 0 <= rc_src n i < 2 * n /\ rc_src n (rc_src n i) = i.
Proof.
  intros Hi. unfold rc_src.
  assert (Hm : (2 * n - 2 - i + 2 * (i mod 2)) mod 2 = i mod 2).
  { replace (2 * n - 2 - i + 2 * (i mod 2)) with (i + (n - 1 - i + i mod 2) * 2) by lia.
    apply Z.mod_add. lia. }
  rewrite Hm. pose proof (Z.mod_pos_bound i 2 ltac:(lia)).
  assert (i mod 2 = 0 \/ i mod 2 = 1) as [H0|H1] by lia.
  - assert (i <> 2 * n - 1).
    { intros ->. replace (2 * n - 1) with (1 + (n - 1) * 2) in H0 by lia.
      rewrite Z.mod_add in H0 by lia. discriminate. }
    lia.
  - assert (i <> 0) by (intros ->; discriminate).
    lia.
Qed.

Lemma rc_value_involutive x n :
  1 <= n <= 32 -> 0 <= x < 2 ^ (2 * n) -> rc_value (rc_value x n) n = x.
Proof.
  intros Hn Hx.
  pose proof (kmer_below_word x n Hn Hx) as Hx64.
  pose proof (rc_value_range x n Hn Hx64) as Hr.
  pose proof (kmer_below_word _ n Hn Hr) as Hr64.
  apply Z.bits_inj'. intros i Hi.
  rewrite rc_value_bits by lia.
  destruct (Z.ltb_spec i (2 * n)) as [Hlt|Hge].
  - destruct (rc_src_involutive n i ltac:(lia)) as [Hs Hss].
    rewrite rc_value_bits by lia.
    replace (rc_src n i <? 2 * n) with true by (symmetry; apply Z.ltb_lt; lia).
    rewrite Hss. cbn. now rewrite negb_involutive.
  - symmetry. apply (bits_above x (2 * n)); lia.
Qed.

(** C5.  For every [n] in [1,32] and every [x] in [0, 2^(2n)), the reverse
    complement of the reverse complement of [x] is [x]:
    [reverse_complement(reverse_complement(x, n), n) == x]. *)
Theorem reverse_complement_involutive (n x : Z) :
  1 <= n <= 32 -> 0 <= x < 2 ^ (2 * n) ->
  (y <- reverse_complement x n ;; reverse_complement y n) = Ret x.
Proof.
  intros Hn Hx.
  rewrite (reverse_complement_value x n Hn). cbn [bind].
  rewrite (reverse_complement_value _ n Hn).
  f_equal. apply rc_value_involutive; assumption.
Qed.

Lemma reverse_complement_involutive_witness :
  (y <- reverse_complement 0x3655 8 ;; reverse_complement y 8) = Ret 0x3655.
Proof.
  apply (reverse_complement_involutive 8 0x3655); [lia|].
  split; [lia|reflexivity].
Defined.

(** C6.  For every [n] in [1,32] and every [x] in [0, 2^(2n)),
    [canonical_representation(x, n)] is the unsigned minimum of [x] and
    [reverse_complement(x, n)], and the canonical representation of the
    reverse complement is that of [x]. *)
Theorem canonical_representation_min (n x : Z) :
  1 <= n <= 32 -> 0 <= x < 2 ^ (2 * n) ->
  exists r,
    reverse_complement x n = Ret r /\
    canonical_representation x n = Ret (Z.min x r) /\
    canonical_representation r n = canonical_representation x n.
Proof.
  intros Hn Hx. exists (rc_value x n).
  unfold canonical_representation.
  rewrite !(reverse_complement_value _ n Hn). cbn [bind].
  rewrite (rc_value_involutive x n Hn Hx).
  repeat split; f_equal.
  - destruct (Z.ltb_spec x (rc_value x n)); lia.
  - destruct (Z.ltb_spec x (rc_value x n)), (Z.ltb_spec (rc_value x n) x); lia.
Qed.

Lemma canonical_representation_min_witness :
  exists r,
    reverse_complement 255 4 = Ret r /\
    canonical_representation 255 4 = Ret (Z.min 255 r) /\
    canonical_representation r 4 = canonical_representation 255 4.
Proof.
  apply (canonical_representation_min 4 255); [lia|].
  split; [lia|reflexivity].
Defined.

(* ================================================================== *)
(** * Bin keys *)

Lemma pow4_pow2 n : 0 <= n -> 4 ^ n = 2 ^ (2 * n).
Proof. intros Hn. rewrite Z.pow_mul_r by lia. reflexivity. Qed.

Lemma pow2_mono a b : 0 <= a <= b -> 0 < 2 ^ a <= 2 ^ b.
Proof.
  intros H. split; [apply Z.pow_pos_nonneg; lia|apply Z.pow_le_mono_r; lia].
Qed.

Lemma canonical_representation_value x n :
  1 <= n <= 32 -> canonical_representation x n = Ret (canonical_value x n).
Proof.
  intros Hn. unfold canonical_representation, canonical_value.
  rewrite (reverse_complement_value x n Hn). cbn [bind]. f_equal.
  destruct (Z.ltb_spec x (rc_value x n)); lia.
Qed.

Lemma canonical_value_range x n :
  1 <= n <= 32 -> 0 <= x < 2 ^ (2 * n) -> 0 <= canonical_value x n < 2 ^ (2 * n).
Proof.
  intros Hn Hx. unfold canonical_value.
  pose proof (rc_value_range x n Hn (kmer_below_word x n Hn Hx)). lia.
Qed.

Lemma shl_int_one n : 0 <= n <= 30 -> shl_int 1 n = Ret (2 ^ n).
Proof.
  intros Hn. unfold shl_int. rewrite Z.shiftl_1_l.
  pose proof (pow2_mono n 30 ltac:(lia)).
  replace (0 <=? n) with true by (symmetry; apply Z.leb_le; lia).
  replace (n <? 32) with true by (symmetry; apply Z.ltb_lt; lia).
  replace (2 ^ n <? 2 ^ 31) with true
    by (symmetry; apply Z.ltb_lt; change (2 ^ 31) with (2 * 2 ^ 30); lia).
  reflexivity.
Qed.

Lemma bin_mask_value n :
  1 <= n <= 15 -> wrap64 (wrap64 (2 ^ (n * 2)) - 1) = 2 ^ (2 * n) - 1.
Proof.
  intros Hn. replace (n * 2) with (2 * n) by lia.
  pose proof (pow2_mono (2 * n) 30 ltac:(lia)).
  assert (2 ^ 30 < 2 ^ 64) by reflexivity.
  rewrite (wrap64_small (2 ^ (2 * n))) by lia.
  apply wrap64_small. lia.
Qed.

Lemma land_mask_range a n : 0 <= n -> 0 <= Z.land a (2 ^ n - 1) < 2 ^ n.
Proof.
  intros Hn. change (2 ^ n - 1) with (Z.pred (2 ^ n)).
  rewrite <- Z.ones_equiv, Z.land_ones by lia.
  apply Z.mod_pos_bound. apply Z.pow_pos_nonneg; lia.
Qed.

Lemma lxor_range a b n :
  0 <= n -> 0 <= a < 2 ^ n -> 0 <= b < 2 ^ n -> 0 <= Z.lxor a b < 2 ^ n.
Proof.
  intros Hn Ha Hb.
  assert (0 <= Z.lxor a b) by (apply Z.lxor_nonneg; lia).
  split; [assumption|].
  apply bits_range; [lia|assumption|].
  intros i Hi. rewrite Z.lxor_spec.
  rewrite (bits_above a n i), (bits_above b n i) by lia. reflexivity.
Qed.

Lemma bin_key_loop_returns count nt xor_mask mask kmer acc :
  1 <= nt <= 32 ->
  bin_key_loop count nt xor_mask mask kmer acc
  = Ret (bin_key_loop_value count nt xor_mask mask kmer acc).
Proof.
  intros Hnt. revert kmer acc.
  induction count as [|count IH]; intros kmer acc; cbn [bin_key_loop bin_key_loop_value].
  - reflexivity.
  - rewrite (canonical_representation_value _ nt Hnt). cbn [bind].
    rewrite IH. do 2 f_equal.
    destruct (Z.ltb_spec (Z.lxor xor_mask (canonical_value (Z.land kmer mask) nt)) acc); lia.
Qed.

(** The values the loop compares, for the substrings [j = 0 .. count-1]. *)
Lemma bin_key_loop_value_fold count nt xor_mask kmer acc :
  bin_key_loop_value count nt xor_mask (4 ^ nt - 1) kmer acc
  = fold_left Z.min
      (map (fun j => Z.lxor xor_mask (canonical_value (kmer_substring kmer nt j) nt))
           (seq 0 count))
      acc.
Proof.
  revert kmer acc. induction count as [|count IH]; intros kmer acc.
  - reflexivity.
  - cbn [bin_key_loop_value]. rewrite IH.
    cbn [seq map fold_left]. rewrite <- seq_shift, map_map.
    unfold kmer_substring at 3. cbn [Z.of_nat Z.mul]. rewrite Z.shiftr_0_r.
    rewrite (Z.min_comm acc).
    f_equal. apply map_ext. intros j. unfold kmer_substring.
    rewrite Z.shiftr_shiftr by lia. do 4 f_equal. lia.
Qed.

Lemma fold_min_le l : forall acc v, In v (acc :: l) -> fold_left Z.min l acc <= v.
Proof.
  induction l as [|a l IH]; intros acc v Hin; cbn [fold_left].
  - destruct Hin as [->|[]]. lia.
  - destruct Hin as [->|[->|Hin]].
    + specialize (IH (Z.min v a) (Z.min v a) (or_introl eq_refl)). lia.
    + specialize (IH (Z.min acc v) (Z.min acc v) (or_introl eq_refl)). lia.
    + apply IH. right. assumption.
Qed.

Lemma fold_min_in l : forall acc, In (fold_left Z.min l acc) (acc :: l).
Proof.
  induction l as [|a l IH]; intros acc; cbn [fold_left].
  - left. reflexivity.
  - destruct (IH (Z.min acc a)) as [Heq|Hin]; [|right; right; assumption].
    rewrite <- Heq.
    destruct (Z.min_spec acc a) as [[_ ->]|[_ ->]]; [left|right; left]; reflexivity.
Qed.

Lemma fold_min_minimum l acc :
  l <> [] -> (forall v, In v l -> v <= acc) -> is_minimum (fold_left Z.min l acc) l.
Proof.
  intros Hne Hacc. split.
  - destruct (fold_min_in l acc) as [Heq|Hin]; [|assumption].
    destruct l as [|a l]; [contradiction|].
    pose proof (fold_min_le (a :: l) acc a (or_intror (or_introl eq_refl))) as Hle.
    pose proof (Hacc a (or_introl eq_refl)).
    assert (Ha : fold_left Z.min (a :: l) acc = a) by lia.
    rewrite Ha. left. reflexivity.
  - intros v Hv. apply fold_min_le. right. assumption.
Qed.

Lemma candidate_range xor_mask kmer nt j :
  1 <= nt <= 15 -> 0 <= xor_mask < 2 ^ (2 * nt) ->
  0 <= Z.lxor xor_mask (canonical_value (kmer_substring kmer nt j) nt) < 2 ^ (2 * nt).
Proof.
  intros Hnt Hx. apply lxor_range; [lia|assumption|].
  apply canonical_value_range; [lia|].
  unfold kmer_substring. rewrite pow4_pow2 by lia. apply land_mask_range. lia.
Qed.

(** The result of the loop started with [~0] is below [4^nt] once the loop
    runs at least once. *)
Lemma bin_key_loop_value_range count nt xor_mask kmer :
  1 <= nt <= 15 -> 0 <= xor_mask < 2 ^ (2 * nt) -> (0 < count)%nat ->
  0 <= bin_key_loop_value count nt xor_mask (4 ^ nt - 1) kmer (wrap64 (-1)) < 4 ^ nt.
Proof.
  intros Hnt Hx Hc. rewrite bin_key_loop_value_fold.
  set (l := map _ (seq 0 count)).
  assert (Hall : forall v, In v l -> 0 <= v < 2 ^ (2 * nt)).
  { intros v Hv. subst l. apply in_map_iff in Hv as (j & <- & _).
    apply candidate_range; assumption. }
  pose proof (pow2_mono (2 * nt) 30 ltac:(lia)) as Hp.
  assert (Hbig : 2 ^ 30 < wrap64 (-1)) by reflexivity.
  destruct (fold_min_minimum l (wrap64 (-1))) as [Hin _].
  - subst l. destruct count; [lia|discriminate].
  - intros v Hv. specialize (Hall v Hv). lia.
  - rewrite pow4_pow2 by lia. apply Hall. assumption.
Qed.

Lemma loop_count key_bits nt :
  0 <= key_bits < 2 ^ 64 -> 1 <= nt -> nt <= key_bits / 2 ->
  wrap64 (key_bits / 2 - nt + 1) = key_bits / 2 - nt + 1.
Proof.
  intros Hk Hnt Hle. apply wrap64_small.
  assert (key_bits / 2 <= key_bits) by (apply Z.div_le_upper_bound; lia).
  lia.
Qed.

Lemma bin_key_prelude nt :
  1 <= nt <= 15 ->
  shl_int 1 (nt * 2) = Ret (2 ^ (nt * 2)) /\
  wrap64 (wrap64 (2 ^ (nt * 2)) - 1) = 4 ^ nt - 1.
Proof.
  intros Hnt. split.
  - apply shl_int_one. lia.
  - rewrite bin_mask_value, pow4_pow2 by lia. reflexivity.
Qed.

Lemma bin_key_returns db ix kmer :
  index_ptr db = Some ix -> 1 <= nt ix <= 15 ->
  bin_key db kmer
  = Ret (bin_key_value (key_bits db) (nt ix)
           (if idx_type ix =? 1 then 0 else INDEX2_XOR_MASK) kmer).
Proof.
  intros Hix Hnt. unfold bin_key, bin_key_value, indexed_nt, index_type.
  rewrite Hix. destruct (bin_key_prelude (nt ix) Hnt) as [-> Hm].
  cbn [bind]. cbv zeta. rewrite Hm.
  apply bin_key_loop_returns. lia.
Qed.

Lemma bin_key_nt_returns db kmer nt :
  1 <= nt <= 15 ->
  bin_key_nt db kmer nt = Ret (bin_key_value (key_bits db) nt INDEX2_XOR_MASK kmer).
Proof.
  intros Hnt. unfold bin_key_nt, bin_key_value. cbv zeta.
  assert (Hw : wrap8 nt = nt) by (unfold wrap8; apply Z.mod_small; lia).
  rewrite Hw. destruct (bin_key_prelude nt Hnt) as [-> Hm].
  cbn [bind]. rewrite Hm.
  apply bin_key_loop_returns. lia.
Qed.

Lemma effective_xor_range xor_mask nt :
  0 <= nt -> 0 <= Z.land xor_mask (4 ^ nt - 1) < 2 ^ (2 * nt).
Proof.
  intros Hnt. rewrite pow4_pow2 by lia. apply land_mask_range. lia.
Qed.

Lemma bin_key_value_range key_bits nt xor_mask kmer :
  0 <= key_bits < 2 ^ 64 -> 1 <= nt <= 15 -> nt <= key_bits / 2 ->
  0 <= bin_key_value key_bits nt xor_mask kmer < 4 ^ nt.
Proof.
  intros Hk Hnt Hle. unfold bin_key_value.
  rewrite loop_count by lia.
  apply bin_key_loop_value_range; [assumption|apply effective_xor_range; lia|lia].
Qed.

Lemma bin_key_value_minimum key_bits nt xor_mask kmer :
  0 <= key_bits < 2 ^ 64 -> 1 <= nt <= 15 -> nt <= key_bits / 2 ->
  is_minimum (bin_key_value key_bits nt xor_mask kmer)
    (map (Z.lxor (Z.land xor_mask (4 ^ nt - 1)))
       (map (fun j => canonical_value (kmer_substring kmer nt j) nt)
          (seq 0 (Z.to_nat (key_bits / 2 - nt + 1))))).
Proof.
  intros Hk Hnt Hle. unfold bin_key_value.
  rewrite loop_count by lia. rewrite bin_key_loop_value_fold, map_map.
  set (l := map _ (seq 0 _)).
  pose proof (pow2_mono (2 * nt) 30 ltac:(lia)) as Hp.
  assert (Hbig : 2 ^ 30 < wrap64 (-1)) by reflexivity.
  apply fold_min_minimum.
  - subst l. destruct (Z.to_nat (key_bits / 2 - nt + 1)) eqn:E; [lia|discriminate].
  - intros v Hv. subst l. apply in_map_iff in Hv as (j & <- & _).
    pose proof (candidate_range (Z.land xor_mask (4 ^ nt - 1)) kmer nt j Hnt
                  (effective_xor_range xor_mask nt ltac:(lia))).
    lia.
Qed.

(** C3.  For every [nt] in [1,15], every [k = key_bits/2] with
    [nt <= k <= 32] and every k-mer [x] in [0, 4^k), [bin_key(x)] is the
    minimum, over the [k - nt + 1] length-[nt] substrings of [x] (the low
    [2 nt] bits after successive right shifts by 2), of
    [effective_xor XOR canonical(substring, nt)], where
    [effective_xor = xor_mask & (4^nt - 1)] and [xor_mask] is 0 for a v1 index
    and [0xe37e28c4271b5a2d] for a v2 index; for [nt = 2], [xor_mask = 0]
    and [x = encode("ACGT")] the result is 1. *)
Theorem bin_key_is_minimizer (db : KrakenDB) (ix : KrakenDBIndex) (x : Z) :
  index_ptr db = Some ix ->
  idx_type ix = 1 \/ idx_type ix = 2 ->
  1 <= nt ix <= 15 ->
  nt ix <= key_bits db / 2 <= 32 ->
  0 <= x < 4 ^ (key_bits db / 2) ->
  (exists cs m,
      Forall2 (fun j c =>
                 canonical_representation (kmer_substring x (nt ix) j) (nt ix) = Ret c)
              (seq 0 (Z.to_nat (key_bits db / 2 - nt ix + 1))) cs /\
      bin_key db x = Ret m /\
      is_minimum m
        (map (Z.lxor (effective_xor (version_xor_mask (idx_type ix)) (nt ix))) cs))
  /\ (nt ix = 2 -> idx_type ix = 1 -> key_bits db / 2 = 4 ->
      string_to_kmer "ACGT" = Ret x -> bin_key db x = Ret 1).
Proof.
  intros Hix Hty Hnt Hk Hx.
  assert (Hkb : 0 <= key_bits db < 2 ^ 64).
  { pose proof (Z.div_mod (key_bits db) 2 ltac:(lia)).
    pose proof (Z.mod_pos_bound (key_bits db) 2 ltac:(lia)).
    change (2 ^ 64) with 18446744073709551616. lia. }
  pose proof (bin_key_returns db ix x Hix Hnt) as Hret.
  split.
  - exists (map (fun j => canonical_value (kmer_substring x (nt ix) j) (nt ix))
           (seq 0 (Z.to_nat (key_bits db / 2 - nt ix + 1)))).
    eexists. split; [|split; [exact Hret|]].
    + induction (seq 0 (Z.to_nat (key_bits db / 2 - nt ix + 1))) as [|j l IH];
        cbn [map]; constructor; [|assumption].
      apply canonical_representation_value. lia.
    + replace (effective_xor (version_xor_mask (idx_type ix)) (nt ix))
        with (Z.land (if idx_type ix =? 1 then 0 else INDEX2_XOR_MASK) (4 ^ nt ix - 1)).
      * apply bin_key_value_minimum; lia.
      * unfold effective_xor, version_xor_mask.
        destruct Hty as [-> | ->]; reflexivity.
  - intros Hnt2 Hty1 Hk4 Henc. rewrite Hret. f_equal.
    injection Henc as <-.
    unfold bin_key_value. rewrite Hnt2, Hty1, Hk4. reflexivity.
Qed.

Lemma bin_key_is_minimizer_witness :
  let ix := {| idx_type := 1; idx_fptr := []; nt := 2 |} in
  let db := {| fptr := None; index_ptr := Some ix; k := 4; key_bits := 8;
               key_len := 1; val_len := 4; key_ct := 0 |} in
  (exists cs m,
      Forall2 (fun j c => canonical_representation (kmer_substring 27 2 j) 2 = Ret c)
              (seq 0 3) cs /\
      bin_key db 27 = Ret m /\
      is_minimum m (map (Z.lxor (effective_xor (version_xor_mask 1) 2)) cs))
  /\ (2 = 2 -> 1 = 1 -> 4 = 4 -> string_to_kmer "ACGT" = Ret 27 -> bin_key db 27 = Ret 1).
Proof.
  intros ix db.
  apply (bin_key_is_minimizer db ix 27).
  - reflexivity.
  - left. reflexivity.
  - cbn. lia.
  - cbn. lia.
  - cbn. lia.
Defined.

(* ================================================================== *)
(** * Reading mapped regions *)

Lemma read_bytes_ok r off len :
  0 <= off -> 0 <= len -> off + len <= Z.of_nat (List.length r) ->
  read_bytes r off len = Ret (bytes_at r off len).
Proof.
  intros Ho Hl Hr. unfold read_bytes, bytes_at.
  replace (0 <=? off) with true by (symmetry; apply Z.leb_le; lia).
  replace (0 <=? len) with true by (symmetry; apply Z.leb_le; lia).
  replace (off + len <=? Z.of_nat (List.length r)) with true
    by (symmetry; apply Z.leb_le; lia).
  reflexivity.
Qed.

Lemma load_le_ok r off len :
  0 <= off -> 0 <= len <= 8 -> off + len <= Z.of_nat (List.length r) ->
  load_le r off len = Ret (word_at r off len).
Proof.
  intros Ho Hl Hr. unfold load_le, word_at.
  replace (8 <? len) with false by (symmetry; apply Z.ltb_ge; lia).
  rewrite read_bytes_ok by lia. reflexivity.
Qed.

Lemma load_le_no_errx r off len code msg : load_le r off len <> Errx code msg.
Proof.
  unfold load_le, read_bytes.
  destruct (8 <? len); [discriminate|].
  destruct ((0 <=? off) && (0 <=? len) && (off + len <=? Z.of_nat (List.length r)));
    discriminate.
Qed.

Lemma bytes_at_length r off len :
  0 <= off -> 0 <= len -> off + len <= Z.of_nat (List.length r) ->
  List.length (bytes_at r off len) = Z.to_nat len.
Proof.
  intros Ho Hl Hr. unfold bytes_at.
  rewrite firstn_length_le; [reflexivity|]. rewrite length_skipn. lia.
Qed.

Lemma byte_val_range b : 0 <= byte_val b < 256.
Proof.
  unfold byte_val. pose proof (Byte.to_N_bounded b). lia.
Qed.

Lemma le_value_range bs : 0 <= le_value bs < 256 ^ Z.of_nat (List.length bs).
Proof.
  induction bs as [|b t IH].
  - cbn. lia.
  - cbn [le_value List.length]. rewrite Nat2Z.inj_succ, Z.pow_succ_r by lia.
    pose proof (byte_val_range b). lia.
Qed.

Lemma word_at_range r off len :
  0 <= off -> 0 <= len <= 8 -> off + len <= Z.of_nat (List.length r) ->
  0 <= word_at r off len < 2 ^ 64.
Proof.
  intros Ho Hl Hr. unfold word_at.
  pose proof (le_value_range (bytes_at r off len)) as Hv.
  rewrite bytes_at_length in Hv by lia. rewrite Z2Nat.id in Hv by lia.
  assert (256 ^ len <= 256 ^ 8) by (apply Z.pow_le_mono_r; lia).
  change (256 ^ 8) with (2 ^ 64) in *. lia.
Qed.

(* ================================================================== *)
(** * The offset array *)

Lemma pow4_bounds n : 1 <= n <= 15 -> 4 <= 4 ^ n <= 2 ^ 30.
Proof.
  intros Hn. rewrite pow4_pow2 by lia.
  pose proof (pow2_mono 2 (2 * n) ltac:(lia)).
  pose proof (pow2_mono (2 * n) 30 ltac:(lia)).
  change (2 ^ 2) with 4 in *. lia.
Qed.

Lemma shl_u64_one n : 0 <= n < 64 -> shl_u64 1 n = Ret (2 ^ n).
Proof.
  intros Hn. unfold shl_u64.
  replace (0 <=? n) with true by (symmetry; apply Z.leb_le; lia).
  replace (n <? 64) with true by (symmetry; apply Z.ltb_lt; lia).
  cbn [andb]. rewrite Z.shiftl_1_l. f_equal. apply wrap64_small.
  split; [apply Z.pow_nonneg; lia|apply Z.pow_lt_mono_r; lia].
Qed.

Lemma index_at_returns TESTING ix idx :
  1 <= nt ix <= 15 -> index_mapped ix -> 0 <= idx <= 4 ^ nt ix ->
  index_at TESTING ix idx = Ret (offset_entry ix idx).
Proof.
  intros Hnt Hmap Hidx. unfold index_at, offset_entry, index_mapped in *.
  pose proof (pow4_bounds (nt ix) Hnt) as Hp.
  assert (Hg : get_array ix = 8) by reflexivity. rewrite Hg in *.
  cbv zeta.
  assert (Hguard : (if TESTING
                    then lim <- shl_u64 1 (nt ix * 2) ;;
                         if idx >? wrap64 (1 + lim)
                         then Errx EX_SOFTWARE "KrakenDBIndex::at() called with illegal index"
                         else Ret tt
                    else Ret tt) = Ret tt).
  { destruct TESTING; [|reflexivity].
    rewrite shl_u64_one by lia. cbn [bind].
    replace (nt ix * 2) with (2 * nt ix) by lia. rewrite <- pow4_pow2 by lia.
    assert (2 ^ 30 < 2 ^ 64 - 1) by reflexivity.
    rewrite wrap64_small by lia.
    replace (idx >? 1 + 4 ^ nt ix) with false; [reflexivity|].
    symmetry. rewrite Z.gtb_ltb. apply Z.ltb_ge. lia. }
  rewrite Hguard. cbn [bind].
  apply load_le_ok; lia.
Qed.

Lemma vec_incr_returns v i :
  (i < List.length v)%nat ->
  exists v', vec_incr v i = Ret v' /\ List.length v' = List.length v.
Proof.
  revert i. induction v as [|c t IH]; intros i Hi; cbn [List.length] in Hi.
  - lia.
  - destruct i as [|i]; cbn [vec_incr].
    + eexists. split; reflexivity.
    + destruct (IH i ltac:(lia)) as (t' & -> & Hlen).
      cbn [bind]. eexists. split; [reflexivity|]. cbn [List.length]. lia.
Qed.

(** C9.  For every [nt] in [1,15] with [nt <= key_bits/2] and every 64-bit
    k-mer, [bin_key(kmer, nt)] is below [4^nt]; so the counter update
    [bin_counts[b_key]++] of [make_index] stays within the [4^nt] counters, and
    the reads [at(b_key)] and [at(b_key + 1)] of a query stay within the
    [4^nt + 1] entries of the offset array. *)
Theorem bin_key_below_entries (TESTING : bool) (db : KrakenDB) (ix : KrakenDBIndex)
        (kmer nt_arg : Z) (bin_counts : list Z) :
  0 <= key_bits db < 2 ^ 64 ->
  0 <= kmer < 2 ^ 64 ->
  1 <= nt_arg <= 15 -> nt_arg <= key_bits db / 2 ->
  shl_u64 1 (nt_arg * 2) = Ret (Z.of_nat (List.length bin_counts)) ->
  index_ptr db = Some ix ->
  1 <= nt ix <= 15 -> nt ix <= key_bits db / 2 ->
  index_mapped ix ->
  (exists b_key bin_counts',
      bin_key_nt db kmer nt_arg = Ret b_key /\ 0 <= b_key < 4 ^ nt_arg /\
      vec_incr bin_counts (Z.to_nat b_key) = Ret bin_counts') /\
  (exists b_key,
      bin_key db kmer = Ret b_key /\ 0 <= b_key < 4 ^ nt ix /\
      index_at TESTING ix b_key = Ret (offset_entry ix b_key) /\
      index_at TESTING ix (wrap64 (b_key + 1)) = Ret (offset_entry ix (b_key + 1))).
Proof.
  intros Hkb Hkmer Hna Hnak Hlen Hix Hnt Hntk Hmap. split.
  - rewrite (bin_key_nt_returns db kmer nt_arg Hna).
    pose proof (bin_key_value_range (key_bits db) nt_arg INDEX2_XOR_MASK kmer
                  Hkb Hna Hnak) as Hr.
    rewrite shl_u64_one in Hlen by lia. injection Hlen as Hlen.
    replace (nt_arg * 2) with (2 * nt_arg) in Hlen by lia.
    rewrite <- pow4_pow2 in Hlen by lia.
    destruct (vec_incr_returns bin_counts
                (Z.to_nat (bin_key_value (key_bits db) nt_arg INDEX2_XOR_MASK kmer)))
      as (v' & Hv & _); [lia|].
    eauto.
  - rewrite (bin_key_returns db ix kmer Hix Hnt).
    set (b := bin_key_value _ _ _ _).
    pose proof (bin_key_value_range (key_bits db) (nt ix)
                  (if idx_type ix =? 1 then 0 else INDEX2_XOR_MASK) kmer
                  Hkb Hnt Hntk) as Hr.
    fold b in Hr. pose proof (pow4_bounds (nt ix) Hnt) as Hp.
    assert (2 ^ 30 < 2 ^ 64 - 1) by reflexivity.
    exists b. repeat split; try lia.
    + apply index_at_returns; [assumption|assumption|lia].
    + rewrite wrap64_small by lia.
      apply index_at_returns; [assumption|assumption|lia].
Qed.

Lemma bin_key_below_entries_witness :
  let ix := {| idx_type := 2;
               idx_fptr := list_byte_of_string "KRAKIX2" ++ [x01]
                           ++ flat_map (le_bytes 8) [0; 1; 1; 1; 1];
               nt := 1 |} in
  let db := {| fptr := None; index_ptr := Some ix; k := 2; key_bits := 4;
               key_len := 1; val_len := 4; key_ct := 1 |} in
  (exists b_key bin_counts',
      bin_key_nt db 27 1 = Ret b_key /\ 0 <= b_key < 4 ^ 1 /\
      vec_incr [0; 0; 0; 0] (Z.to_nat b_key) = Ret bin_counts') /\
  (exists b_key,
      bin_key db 27 = Ret b_key /\ 0 <= b_key < 4 ^ 1 /\
      index_at true ix b_key = Ret (offset_entry ix b_key) /\
      index_at true ix (wrap64 (b_key + 1)) = Ret (offset_entry ix (b_key + 1))).
Proof.
  intros ix db.
  apply (bin_key_below_entries true db ix 27 1 [0; 0; 0; 0]).
  - cbn. lia.
  - lia.
  - lia.
  - cbn. lia.
  - reflexivity.
  - reflexivity.
  - cbn. lia.
  - cbn. lia.
  - unfold index_mapped. cbn. lia.
Defined.

(* ================================================================== *)
(** * Little-endian encoding *)

Lemma byte_val_of_Z z : byte_val (byte_of_Z z) = z mod 256.
Proof.
  unfold byte_val, byte_of_Z.
  pose proof (Z.mod_pos_bound z 256 ltac:(lia)) as Hr.
  pose proof (Byte.to_of_N_option_map (Z.to_N (z mod 256))) as H.
  destruct (Byte.of_N (Z.to_N (z mod 256))) as [b|]; cbn [option_map] in H.
  - destruct (N.leb_spec (Z.to_N (z mod 256)) 255) as [_|Hgt]; [|discriminate].
    injection H as ->. lia.
  - destruct (N.leb_spec (Z.to_N (z mod 256)) 255) as [_|Hgt]; [discriminate|lia].
Qed.

Lemma le_bytes_length n z : List.length (le_bytes n z) = n.
Proof. revert z. induction n; intros z; cbn; auto. Qed.

Lemma le_value_bytes n z : le_value (le_bytes n z) = z mod 256 ^ Z.of_nat n.
Proof.
  revert z. induction n as [|n IH]; intros z.
  - cbn. now rewrite Z.mod_1_r.
  - cbn [le_bytes le_value]. rewrite IH, byte_val_of_Z.
    rewrite Nat2Z.inj_succ, Z.pow_succ_r by lia.
    assert (Hp : 0 < 256 ^ Z.of_nat n) by (apply Z.pow_pos_nonneg; lia).
    rewrite Z.rem_mul_r by lia. lia.
Qed.

Lemma le_value_bytes8 z : 0 <= z < 2 ^ 64 -> le_value (le_bytes 8 z) = z.
Proof.
  intros Hz. rewrite le_value_bytes. change (256 ^ Z.of_nat 8) with (2 ^ 64).
  apply Z.mod_small. assumption.
Qed.

Lemma bytes_at_app_r pre r off len :
  0 <= off ->
  bytes_at (pre ++ r) (Z.of_nat (List.length pre) + off) len = bytes_at r off len.
Proof.
  intros Ho. unfold bytes_at. f_equal.
  rewrite Z2Nat.inj_add, Nat2Z.id by lia.
  rewrite skipn_app, skipn_all2 by lia.
  cbn [app]. f_equal. lia.
Qed.

Lemma bytes_at_words l i :
  (i < List.length l)%nat ->
  bytes_at (flat_map (le_bytes 8) l) (8 * Z.of_nat i) 8 = le_bytes 8 (nth i l 0).
Proof.
  revert i. induction l as [|a l IH]; intros i Hi; cbn [List.length] in Hi; [lia|].
  destruct i as [|i].
  - unfold bytes_at. cbn [flat_map nth].
    change (Z.to_nat (8 * Z.of_nat 0)) with 0%nat. cbn [skipn].
    rewrite firstn_app, le_bytes_length.
    replace (Z.to_nat 8 - 8)%nat with 0%nat by lia.
    rewrite firstn_all2 by (rewrite le_bytes_length; lia).
    cbn [firstn]. apply app_nil_r.
  - cbn [flat_map nth]. rewrite <- (IH i) by lia.
    replace (8 * Z.of_nat (S i)) with (Z.of_nat (List.length (le_bytes 8 a)) + 8 * Z.of_nat i)
      by (rewrite le_bytes_length; lia).
    apply bytes_at_app_r. lia.
Qed.

(* ================================================================== *)
(** * Building the index *)

Lemma total_app l1 l2 : total (l1 ++ l2) = total l1 + total l2.
Proof. unfold total. induction l1 as [|a l1 IH]; cbn in *; lia. Qed.

Lemma total_repeat0 n : total (repeat 0 n) = 0.
Proof. unfold total. induction n; cbn in *; lia. Qed.

Lemma total_nonneg l : Forall (fun c => 0 <= c) l -> 0 <= total l.
Proof. unfold total. induction 1; cbn in *; lia. Qed.

Lemma total_firstn_le l n :
  Forall (fun c => 0 <= c) l -> total (firstn n l) <= total l.
Proof.
  intros Hl. rewrite <- (firstn_skipn n l) at 2. rewrite total_app.
  assert (0 <= total (skipn n l)).
  { apply total_nonneg. rewrite <- (firstn_skipn n l) in Hl.
    apply Forall_app in Hl. tauto. }
  lia.
Qed.

Lemma total_firstn_nonneg l n :
  Forall (fun c => 0 <= c) l -> 0 <= total (firstn n l).
Proof.
  intros Hl. apply total_nonneg. rewrite <- (firstn_skipn n l) in Hl.
  apply Forall_app in Hl. tauto.
Qed.

Lemma total_firstn_S l n :
  Forall (fun c => 0 <= c) l -> total (firstn n l) <= total (firstn (S n) l).
Proof.
  revert n. induction l as [|a l IH]; intros n Hl.
  - rewrite !firstn_nil. lia.
  - inversion Hl; subst. destruct n as [|n].
    + cbn. pose proof (total_nonneg (firstn 0 l)). cbn in *. lia.
    + cbn [firstn total fold_right]. specialize (IH n ltac:(assumption)).
      unfold total in IH. cbn [firstn] in IH. lia.
Qed.

Lemma vec_incr_sum v i :
  (i < List.length v)%nat ->
  Forall (fun c => 0 <= c) v -> total v + 1 < 2 ^ 64 ->
  exists v', vec_incr v i = Ret v' /\ List.length v' = List.length v /\
             Forall (fun c => 0 <= c) v' /\ total v' = total v + 1.
Proof.
  revert i. induction v as [|c t IH]; intros i Hi Hnn Hsum; cbn [List.length] in Hi.
  - lia.
  - inversion Hnn as [|? ? Hc Ht]; subst.
    pose proof (total_nonneg t Ht) as Hts.
    cbn [total fold_right] in Hsum. fold (total t) in Hsum.
    destruct i as [|i]; cbn [vec_incr].
    + exists (wrap64 (c + 1) :: t). rewrite wrap64_small by lia.
      repeat split; try reflexivity.
      * constructor; [lia|assumption].
      * cbn. lia.
    + destruct (IH i ltac:(lia) Ht ltac:(lia)) as (t' & -> & Hlen & Hnn' & Hs').
      cbn [bind]. exists (c :: t'). repeat split.
      * cbn [List.length]. lia.
      * constructor; assumption.
      * cbn [total fold_right]. fold (total t'). fold (total t). lia.
Qed.

Lemma pair_size_value db r : db_mapped db r -> pair_size db = key_len db + 4 /\ 0 <= key_len db <= 8.
Proof.
  intros [_ Hkb Hkl Hvl _ _ _].
  assert (0 <= key_len db <= 8).
  { rewrite Hkl. Z.to_euclidean_division_equations. lia. }
  split; [|assumption].
  unfold pair_size. rewrite Hvl. apply wrap64_small.
  change (2 ^ 64) with 18446744073709551616. lia.
Qed.

Lemma header_size_value db r : db_mapped db r -> header_size db = 80 + 16 * key_bits db.
Proof.
  intros [_ Hkb _ _ _ _ _]. unfold header_size.
  rewrite wrap64_small; change (2 ^ 64) with 18446744073709551616; lia.
Qed.

(** Reading the key bytes of pair [i]. *)
Lemma db_load_key db r i :
  db_mapped db r -> 0 <= i < key_ct db ->
  db_load db (get_pair_ptr db) (wrap64 (pair_size db * i)) (key_len db)
  = Ret (word_at r (header_size db + pair_size db * i) (key_len db)).
Proof.
  intros Hm Hi.
  destruct (pair_size_value db r Hm) as [Hps Hkl].
  pose proof (header_size_value db r Hm) as Hhs.
  destruct Hm as [Hf Hkb _ _ Hct Hpairs Hsize].
  unfold db_load, get_pair_ptr. rewrite Hf.
  assert (Hoff : 0 <= pair_size db * i /\
                 pair_size db * i + pair_size db <= key_ct db * pair_size db) by nia.
  rewrite wrap64_small by lia.
  apply load_le_ok; lia.
Qed.

Lemma word_at_key_range db r i :
  db_mapped db r -> 0 <= i < key_ct db ->
  0 <= word_at r (header_size db + pair_size db * i) (key_len db) < 2 ^ 64.
Proof.
  intros Hm Hi.
  destruct (pair_size_value db r Hm) as [Hps Hkl].
  pose proof (header_size_value db r Hm) as Hhs.
  destruct Hm as [Hf Hkb _ _ Hct Hpairs Hsize].
  assert (Hoff : 0 <= pair_size db * i /\
                 pair_size db * i + pair_size db <= key_ct db * pair_size db) by nia.
  apply word_at_range; lia.
Qed.

Lemma count_bins_returns db r nt n :
  db_mapped db r -> 1 <= nt <= 15 -> nt <= key_bits db / 2 ->
  forall i bin_counts,
    0 <= i -> i + Z.of_nat n <= key_ct db ->
    Z.of_nat (List.length bin_counts) = 4 ^ nt ->
    Forall (fun c => 0 <= c) bin_counts -> total bin_counts = i ->
    exists bin_counts',
      count_bins db nt (get_pair_ptr db) n i bin_counts = Ret bin_counts' /\
      List.length bin_counts' = List.length bin_counts /\
      Forall (fun c => 0 <= c) bin_counts' /\
      total bin_counts' = i + Z.of_nat n.
Proof.
  intros Hm Hnt Hntk.
  assert (Hkb : 0 <= key_bits db < 2 ^ 64)
    by (destruct Hm; change (2 ^ 64) with 18446744073709551616; lia).
  assert (Hct : key_ct db < 2 ^ 64).
  { destruct (pair_size_value db r Hm) as [Hps Hkl].
    pose proof (header_size_value db r Hm).
    destruct Hm as [_ ? _ _ ? ? ?]. nia. }
  induction n as [|n IH]; intros i bin_counts Hi Hend Hlen Hnn Hsum; cbn [count_bins].
  - exists bin_counts. repeat split; try assumption; try reflexivity. lia.
  - rewrite Z.mul_comm, (db_load_key db r i Hm) by lia. cbn [bind].
    rewrite bin_key_nt_returns by assumption. cbn [bind].
    set (b := bin_key_value _ _ _ _).
    pose proof (bin_key_value_range (key_bits db) nt INDEX2_XOR_MASK
                  (word_at r (header_size db + pair_size db * i) (key_len db))
                  Hkb Hnt Hntk) as Hb.
    fold b in Hb.
    destruct (vec_incr_sum bin_counts (Z.to_nat b)) as (v' & -> & Hlen' & Hnn' & Hsum');
      [lia|assumption|lia|].
    cbn [bind].
    destruct (IH (i + 1) v') as (v'' & -> & Hlen'' & Hnn'' & Hsum''); try lia;
      try assumption.
    exists v''. repeat split; try assumption; lia.
Qed.

Lemma offsets_from_length prev l : List.length (offsets_from prev l) = List.length l.
Proof. revert prev. induction l; intros prev; cbn; auto. Qed.

Lemma offsets_nth l :
  Forall (fun c => 0 <= c) l ->
  forall prev i,
    0 <= prev -> prev + total l < 2 ^ 64 -> (i <= List.length l)%nat ->
    nth i (prev :: offsets_from prev l) 0 = prev + total (firstn i l).
Proof.
  induction 1 as [|c l Hc Hl IH]; intros prev i Hp Hs Hi.
  - cbn [List.length] in Hi. assert (i = 0%nat) as -> by lia. cbn. lia.
  - cbn [total fold_right] in Hs. fold (total l) in Hs.
    pose proof (total_nonneg l Hl).
    destruct i as [|i].
    + cbn. lia.
    + cbn [List.length] in Hi.
      change (nth (S i) (prev :: offsets_from prev (c :: l)) 0)
        with (nth i (wrap64 (prev + c) :: offsets_from (wrap64 (prev + c)) l) 0).
      rewrite wrap64_small by lia.
      rewrite (IH (prev + c) i) by lia.
      cbn [firstn total fold_right]. fold (total (firstn i l)). lia.
Qed.

Lemma words_length l : List.length (flat_map (le_bytes 8) l) = (8 * List.length l)%nat.
Proof.
  induction l as [|a l IH]; [reflexivity|].
  cbn [flat_map List.length]. rewrite length_app, le_bytes_length, IH. lia.
Qed.

(** Opening a file made of the v2 magic, a length byte and an offset array. *)
Lemma open_v2_file b words :
  KrakenDBIndex_open (list_byte_of_string KRAKEN_INDEX2_STRING ++ [b] ++ words)
  = Ret {| idx_type := 2;
           idx_fptr := list_byte_of_string KRAKEN_INDEX2_STRING ++ [b] ++ words;
           nt := byte_val b |}.
Proof.
  unfold KrakenDBIndex_open.
  set (file := list_byte_of_string KRAKEN_INDEX2_STRING ++ [b] ++ words).
  assert (H1 : strncmp file (c_string KRAKEN_INDEX_STRING)
                 (Z.to_nat (strlen KRAKEN_INDEX_STRING)) = Ret 20) by reflexivity.
  assert (H2 : strncmp file (c_string KRAKEN_INDEX2_STRING)
                 (Z.to_nat (strlen KRAKEN_INDEX2_STRING)) = Ret 0) by reflexivity.
  rewrite H1. cbn [bind]. rewrite H2. cbn [bind negb Z.eqb].
  assert (H3 : load_le file (strlen KRAKEN_INDEX_STRING) 1 = Ret (byte_val b)).
  { rewrite load_le_ok.
    - f_equal. unfold word_at.
      change (bytes_at file (strlen KRAKEN_INDEX_STRING) 1) with [b].
      cbn [le_value]. lia.
    - cbn. lia.
    - lia.
    - subst file. rewrite !length_app. cbn [List.length].
      change (strlen KRAKEN_INDEX_STRING) with 7.
      change (List.length (list_byte_of_string KRAKEN_INDEX2_STRING)) with 7%nat. lia. }
  rewrite H3. reflexivity.
Qed.

Lemma offset_entry_of_file b offsets i :
  (i < List.length offsets)%nat ->
  0 <= nth i offsets 0 < 2 ^ 64 ->
  word_at (list_byte_of_string KRAKEN_INDEX2_STRING ++ [b] ++ flat_map (le_bytes 8) offsets)
          (8 + 8 * Z.of_nat i) 8
  = nth i offsets 0.
Proof.
  intros Hi Hr. unfold word_at.
  rewrite app_assoc.
  change 8 with (Z.of_nat (List.length (list_byte_of_string KRAKEN_INDEX2_STRING ++ [b]))) at 1.
  rewrite bytes_at_app_r by lia.
  rewrite bytes_at_words by assumption.
  apply le_value_bytes8. assumption.
Qed.

Lemma vec_incr_total v i v' :
  vec_incr v i = Ret v' ->
  List.length v' = List.length v /\
  (Forall (fun c => 0 <= c) v -> total v + 1 < 2 ^ 64 ->
   Forall (fun c => 0 <= c) v' /\ total v' = total v + 1).
Proof.
  revert i v'. induction v as [|c t IH]; intros i v' Hv; cbn [vec_incr] in Hv.
  - discriminate Hv.
  - destruct i as [|i].
    + injection Hv as <-. split; [reflexivity|].
      intros Hnn Hsum. inversion Hnn as [|? ? Hc Ht]; subst.
      pose proof (total_nonneg t Ht).
      cbn [total fold_right] in *. fold (total t) in *.
      rewrite wrap64_small by lia.
      split; [constructor; [lia|assumption]|lia].
    + destruct (vec_incr t i) as [t'| | |] eqn:Et; cbn [bind] in Hv;
        try discriminate Hv.
      injection Hv as <-. destruct (IH i t' Et) as [Hlen Hsum'].
      split; [cbn [List.length]; lia|].
      intros Hnn Hsum. inversion Hnn as [|? ? Hc Ht]; subst.
      cbn [total fold_right] in *. fold (total t) in *. fold (total t').
      destruct (Hsum' Ht ltac:(lia)) as [Hnn' Ht'].
      split; [constructor; assumption|lia].
Qed.

(** Whenever the counting loop ends, it has counted one pair per iteration. *)
Lemma count_bins_total db nt ptr n :
  forall i bin_counts bin_counts',
    count_bins db nt ptr n i bin_counts = Ret bin_counts' ->
    List.length bin_counts' = List.length bin_counts /\
    (Forall (fun c => 0 <= c) bin_counts ->
     total bin_counts + Z.of_nat n < 2 ^ 64 ->
     Forall (fun c => 0 <= c) bin_counts' /\
     total bin_counts' = total bin_counts + Z.of_nat n).
Proof.
  induction n as [|n IH]; intros i counts counts' Hc; cbn [count_bins] in Hc.
  - injection Hc as <-. split; [reflexivity|]. intros Hnn _. split; [assumption|lia].
  - destruct (db_load db ptr _ _) as [kmer| | |]; cbn [bind] in Hc; try discriminate Hc.
    destruct (bin_key_nt db kmer nt) as [b| | |]; cbn [bind] in Hc; try discriminate Hc.
    destruct (vec_incr counts (Z.to_nat b)) as [c1| | |] eqn:Ev; cbn [bind] in Hc;
      try discriminate Hc.
    destruct (vec_incr_total _ _ _ Ev) as [Hl1 Hs1].
    destruct (IH _ _ _ Hc) as [Hl2 Hs2].
    split; [lia|]. intros Hnn Hsum.
    destruct (Hs1 Hnn ltac:(lia)) as [Hnn1 Ht1].
    destruct (Hs2 Hnn1 ltac:(lia)) as [Hnn2 Ht2].
    split; [assumption|lia].
Qed.

Lemma shl_u64_one_inv n e :
  shl_u64 1 n = Ret e -> 0 <= n < 64 /\ e = 2 ^ n.
Proof.
  intros H. unfold shl_u64 in H.
  destruct (Z.leb_spec 0 n); cbn [andb] in H; [|discriminate H].
  destruct (Z.ltb_spec n 64); [|discriminate H].
  injection H as <-.
  split; [lia|]. rewrite Z.shiftl_1_l. apply wrap64_small.
  split; [apply Z.pow_nonneg; lia|apply Z.pow_lt_mono_r; lia].
Qed.

(** On a mapped database, for a supported minimizer length, the index is
    built. *)
Lemma make_index_offsets_returns db r nt_arg :
  db_mapped db r -> 1 <= nt_arg <= 15 -> nt_arg <= key_bits db / 2 ->
  exists bin_offsets, make_index_offsets db nt_arg = Ret bin_offsets.
Proof.
  intros Hm Hnt Hntk.
  pose proof (pow4_bounds nt_arg Hnt) as Hp4.
  assert (Hct : 0 <= key_ct db) by (destruct Hm; assumption).
  assert (Hentries : shl_u64 1 (nt_arg * 2) = Ret (4 ^ nt_arg)).
  { rewrite shl_u64_one by lia. rewrite pow4_pow2 by lia. do 2 f_equal. lia. }
  destruct (count_bins_returns db r nt_arg (Z.to_nat (key_ct db)) Hm Hnt Hntk
              0 (repeat 0 (Z.to_nat (4 ^ nt_arg))))
    as (counts & Hcounts & _).
  { lia. }
  { lia. }
  { rewrite repeat_length. lia. }
  { apply Forall_forall. intros c Hc. apply repeat_spec in Hc. lia. }
  { apply total_repeat0. }
  unfold make_index_offsets. rewrite Hentries. cbn [bind]. cbv zeta.
  rewrite Hcounts. eexists. reflexivity.
Qed.

(** C4.  After [make_index(filename, nt)] has run on a database holding
    [key_ct] pairs, the offset array written to the index file satisfies
    [offsets[0] = 0], [offsets[i] <= offsets[i+1]] for every [i] in
    [0, 4^nt), and [offsets[4^nt] = key_ct]; and it does run on a mapped
    database for every [nt] in [1,15] with [nt <= k]. *)
Theorem make_index_offsets_invariant (db : KrakenDB) (nt_arg : Z) :
  0 <= key_ct db < 2 ^ 64 ->
  0 <= nt_arg < 2 ^ 8 ->
  (forall r, db_mapped db r -> 1 <= nt_arg <= 15 -> nt_arg <= key_bits db / 2 ->
             exists file, make_index db nt_arg = Ret file)
  /\ (forall file, make_index db nt_arg = Ret file ->
        exists ix,
          KrakenDBIndex_open file = Ret ix /\
          nt ix = nt_arg /\ idx_type ix = 2 /\ index_mapped ix /\
          offset_entry ix 0 = 0 /\
          (forall i, 0 <= i < 4 ^ nt_arg ->
                     offset_entry ix i <= offset_entry ix (i + 1)) /\
          offset_entry ix (4 ^ nt_arg) = key_ct db).
Proof.
  intros Hct Hnt. split.
  - intros r Hm Hnt' Hntk.
    destruct (make_index_offsets_returns db r nt_arg Hm Hnt' Hntk) as (offs & Hoffs).
    unfold make_index. rewrite Hoffs. eexists. reflexivity.
  - intros file Hfile. unfold make_index, make_index_offsets in Hfile.
    destruct (shl_u64 1 (nt_arg * 2)) as [entries| | |] eqn:He; cbn [bind] in Hfile;
      try discriminate Hfile.
    destruct (shl_u64_one_inv _ _ He) as [Hn2 ->].
    replace (nt_arg * 2) with (2 * nt_arg) in * by lia.
    rewrite <- pow4_pow2 in * by lia.
    assert (Hp4 : 0 < 4 ^ nt_arg) by (apply Z.pow_pos_nonneg; lia).
    cbv zeta in Hfile.
    destruct (count_bins db nt_arg (get_pair_ptr db) (Z.to_nat (key_ct db)) 0
                (repeat 0 (Z.to_nat (4 ^ nt_arg)))) as [counts| | |] eqn:Ec;
      cbn [bind] in Hfile; try discriminate Hfile.
    injection Hfile as <-.
    destruct (count_bins_total _ _ _ _ _ _ _ Ec) as [Hlen Htot].
    rewrite repeat_length in Hlen.
    destruct Htot as [Hnn Hsum].
    { apply Forall_forall. intros c Hc. apply repeat_spec in Hc. lia. }
    { rewrite total_repeat0. lia. }
    rewrite total_repeat0, Z2Nat.id in Hsum by lia. cbn [Z.add] in Hsum.
    set (offsets := 0 :: offsets_from 0 counts) in *.
    assert (Holen : List.length offsets = S (Z.to_nat (4 ^ nt_arg))).
    { subst offsets. cbn [List.length]. rewrite offsets_from_length. lia. }
    assert (Hnth : forall i, (i <= List.length counts)%nat ->
                             nth i offsets 0 = total (firstn i counts)).
    { intros i Hi. subst offsets. rewrite offsets_nth by (assumption || lia). lia. }
    assert (Hrange : forall i, (i <= List.length counts)%nat ->
                               0 <= nth i offsets 0 < 2 ^ 64).
    { intros i Hi. rewrite Hnth by assumption.
      pose proof (total_firstn_le counts i Hnn).
      pose proof (total_firstn_nonneg counts i Hnn).
      lia. }
    set (file := list_byte_of_string KRAKEN_INDEX2_STRING ++ [byte_of_Z nt_arg]
                 ++ flat_map (le_bytes 8) offsets).
    exists {| idx_type := 2; idx_fptr := file; nt := byte_val (byte_of_Z nt_arg) |}.
    assert (Hb : byte_val (byte_of_Z nt_arg) = nt_arg).
    { rewrite byte_val_of_Z. apply Z.mod_small. change (2 ^ 8) with 256 in Hnt. lia. }
    assert (Hentry : forall i, 0 <= i <= 4 ^ nt_arg ->
              offset_entry {| idx_type := 2; idx_fptr := file;
                              nt := byte_val (byte_of_Z nt_arg) |} i
              = total (firstn (Z.to_nat i) counts)).
    { intros i Hi. unfold offset_entry. cbn [idx_fptr].
      change (get_array _) with 8.
      rewrite <- (Z2Nat.id i) at 1 by lia.
      subst file. rewrite offset_entry_of_file.
      - apply Hnth. lia.
      - lia.
      - apply Hrange. lia. }
    split; [|split; [|split; [|split; [|split; [|split]]]]].
    + apply open_v2_file.
    + exact Hb.
    + reflexivity.
    + unfold index_mapped. cbn [idx_fptr nt]. rewrite Hb.
      change (get_array _) with 8.
      subst file. rewrite !length_app, words_length, Holen.
      change (List.length (list_byte_of_string KRAKEN_INDEX2_STRING)) with 7%nat.
      cbn [List.length]. lia.
    + rewrite Hentry by lia. reflexivity.
    + intros i Hi. rewrite !Hentry by lia.
      replace (Z.to_nat (i + 1)) with (S (Z.to_nat i)) by lia.
      apply total_firstn_S. assumption.
    + rewrite Hentry by lia. rewrite firstn_all2 by lia. assumption.
Qed.

(* ================================================================== *)
(** * The small database *)

Example example_db_opened : KrakenDB_open example_file = Ret example_db.
Proof. reflexivity. Qed.

Example example_index_built : make_index example_db 2 = Ret example_index_file.
Proof. vm_compute. reflexivity. Qed.

Example example_index_opened :
  KrakenDBIndex_open example_index_file = Ret example_index.
Proof. reflexivity. Qed.

Lemma example_db_mapped : db_mapped example_db example_file.
Proof.
  constructor.
  - reflexivity.
  - cbn. lia.
  - reflexivity.
  - reflexivity.
  - cbn. lia.
  - vm_compute. discriminate.
  - vm_compute. reflexivity.
Defined.

Lemma make_index_offsets_invariant_witness :
  exists file ix,
    make_index example_db 2 = Ret file /\
    KrakenDBIndex_open file = Ret ix /\
    nt ix = 2 /\ idx_type ix = 2 /\ index_mapped ix /\
    offset_entry ix 0 = 0 /\
    (forall i, 0 <= i < 4 ^ 2 -> offset_entry ix i <= offset_entry ix (i + 1)) /\
    offset_entry ix (4 ^ 2) = key_ct example_db.
Proof.
  destruct (make_index_offsets_invariant example_db 2) as [Hruns Hafter].
  - cbn. lia.
  - lia.
  - destruct (Hruns example_file example_db_mapped) as [file Hfile].
    + lia.
    + cbn. lia.
    + destruct (Hafter file Hfile) as [ix Hix].
      exists file, ix. split; [exact Hfile|exact Hix].
Defined.

(* ================================================================== *)
(** * The guard of [KrakenDBIndex::at] *)

(** In a TESTING build the guard fires exactly above [4^nt + 1]. *)
Lemma index_at_guard_fires_iff ix idx :
  0 <= nt ix <= 31 -> 0 <= idx < 2 ^ 64 ->
  (exists msg, index_at true ix idx = Errx EX_SOFTWARE msg) <-> idx > 4 ^ nt ix + 1.
Proof.
  intros Hnt Hidx. unfold index_at. cbv zeta.
  rewrite shl_u64_one by lia. cbn [bind].
  replace (nt ix * 2) with (2 * nt ix) by lia. rewrite <- pow4_pow2 by lia.
  assert (Hp : 0 < 4 ^ nt ix <= 2 ^ 62).
  { rewrite pow4_pow2 by lia. apply pow2_mono. lia. }
  assert (2 ^ 62 + 1 < 2 ^ 64) by reflexivity.
  rewrite wrap64_small by lia.
  destruct (Z.gtb_spec idx (1 + 4 ^ nt ix)) as [Hgt|Hle]; cbn [bind].
  - split; [lia|]. intros _. eexists. reflexivity.
  - split; [|lia]. intros [msg Hm].
    exfalso. eapply load_le_no_errx. exact Hm.
Qed.

(** C7 (the code departs from the claim).  In a TESTING build, on the index
    of the small database ([nt = 2], 17 offsets), [at(17)] passes the guard
    although [17 > 4^nt], and reads past the offset array; the guard fires
    from 18 on. *)
Theorem index_at_guard_off_by_one :
  KrakenDBIndex_open example_index_file = Ret example_index /\
  4 ^ nt example_index < 17 /\
  index_at true example_index 17 = Undef /\
  index_at true example_index 18
  = Errx EX_SOFTWARE "KrakenDBIndex::at() called with illegal index".
Proof.
  split; [reflexivity|]. split; [reflexivity|]. split; reflexivity.
Qed.

(* ================================================================== *)
(** * Calls that never exit with [EX_DATAERR] *)

Lemma nde_ret {A} (a : A) : no_dataerr (Ret a).
Proof. intros msg. discriminate. Qed.

Lemma nde_undef {A} : no_dataerr (@Undef A).
Proof. intros msg. discriminate. Qed.

Lemma nde_fuel {A} : no_dataerr (@OutOfFuel A).
Proof. intros msg. discriminate. Qed.

Lemma nde_software {A} msg : no_dataerr (@Errx A EX_SOFTWARE msg).
Proof. intros msg'. discriminate. Qed.

Lemma nde_bind {A B} (c : outcome A) (f : A -> outcome B) :
  no_dataerr c -> (forall a, no_dataerr (f a)) -> no_dataerr (bind c f).
Proof.
  intros Hc Hf msg. destruct c as [a| code m| |]; cbn [bind].
  - apply Hf.
  - intros H. injection H as Hcode Hmsg. subst. exact (Hc _ eq_refl).
  - discriminate.
  - discriminate.
Qed.

Ltac nde :=
  repeat first
    [ progress intros
    | assumption
    | apply nde_ret | apply nde_undef | apply nde_fuel | apply nde_software
    | apply nde_bind
    | match goal with
      | |- no_dataerr (if ?b then _ else _) => destruct b
      | |- no_dataerr (match ?x with _ => _ end) => destruct x
      end ].

Lemma nde_load_le r off len : no_dataerr (load_le r off len).
Proof. intros msg. apply load_le_no_errx. Qed.

Lemma nde_canonical x n : no_dataerr (canonical_representation x n).
Proof.
  unfold canonical_representation, reverse_complement, shr_u64. cbv zeta. nde.
Qed.

Lemma nde_bin_key_loop count nt xor_mask mask :
  forall kmer acc, no_dataerr (bin_key_loop count nt xor_mask mask kmer acc).
Proof.
  induction count as [|count IH]; intros kmer acc; cbn [bin_key_loop].
  - nde.
  - apply nde_bind; [apply nde_canonical|]. intros c. apply IH.
Qed.

Lemma nde_bin_key db kmer : no_dataerr (bin_key db kmer).
Proof.
  unfold bin_key, shl_int. destruct (index_ptr db); [|nde].
  cbv zeta. apply nde_bind; [nde|]. intros m. apply nde_bin_key_loop.
Qed.

Lemma nde_index_ptr_at TESTING db idx : no_dataerr (index_ptr_at TESTING db idx).
Proof.
  unfold index_ptr_at, index_at, shl_u64. destruct (index_ptr db); [|nde].
  cbv zeta. apply nde_bind; [nde|]. intros _. apply nde_load_le.
Qed.

Lemma nde_comp_kmer_at db ptr pair_sz mid : no_dataerr (comp_kmer_at db ptr pair_sz mid).
Proof.
  unfold comp_kmer_at, db_load, shl_u64.
  apply nde_bind; [|nde].
  destruct (fptr db); [|nde]. destruct ptr; [|nde]. apply nde_load_le.
Qed.

Lemma nde_binary_search fuel db ptr pair_sz kmer :
  forall min max, no_dataerr (binary_search fuel db ptr pair_sz kmer min max).
Proof.
  induction fuel as [|fuel IH]; intros min max; cbn [binary_search].
  - nde.
  - unfold int64_ok, value_ptr.
    apply nde_bind; [nde|]. intros lim. destruct (lim <=? max); [|nde].
    apply nde_bind; [nde|]. intros width.
    apply nde_bind; [nde|]. intros mid.
    apply nde_bind; [apply nde_comp_kmer_at|]. intros comp.
    nde; apply IH.
Qed.

Lemma nde_linear_search fuel db ptr pair_sz kmer :
  forall mid max, no_dataerr (linear_search fuel db ptr pair_sz kmer mid max).
Proof.
  induction fuel as [|fuel IH]; intros mid max; cbn [linear_search].
  - nde.
  - unfold int64_ok, value_ptr. destruct (mid <=? max); [|nde].
    apply nde_bind; [apply nde_comp_kmer_at|]. intros comp.
    nde; apply IH.
Qed.

Lemma nde_window_search db ptr pair_sz kmer min max :
  no_dataerr (window_search db ptr pair_sz kmer min max).
Proof.
  unfold window_search. apply nde_bind; [apply nde_binary_search|].
  intros [p|[mn mx]]; [nde|apply nde_linear_search].
Qed.

Lemma nde_lift {A} (c : outcome A) m : no_dataerr c -> no_dataerr (lift c m).
Proof. intros Hc. unfold lift. nde. Qed.

Lemma nde_deref p m : no_dataerr (deref p m).
Proof. unfold deref. nde. Qed.

Lemma nde_assign p v m : no_dataerr (assign p v m).
Proof. unfold assign. nde. Qed.

Lemma nde_mbind {A B} (c : M A) (f : A -> M B) m :
  (forall m', no_dataerr (c m')) -> (forall a m', no_dataerr (f a m')) ->
  no_dataerr (mbind c f m).
Proof. intros Hc Hf. unfold mbind. apply nde_bind; [apply Hc|]. intros a. apply Hf. Qed.

Ltac mnde :=
  repeat first
    [ progress intros
    | assumption
    | apply nde_mbind
    | apply nde_lift
    | apply nde_deref | apply nde_assign
    | apply nde_bin_key | apply nde_index_ptr_at | apply nde_window_search
    | apply nde_ret | apply nde_undef | apply nde_fuel
    | match goal with
      | |- no_dataerr ((if ?b then _ else _) _) => destruct b
      | |- no_dataerr ((match ?x with _ => _ end) _) => destruct x
      | |- no_dataerr (ret _ _) => unfold ret
      | |- no_dataerr (set_local _ _ _) => unfold set_local
      | |- no_dataerr (get_local _ _) => unfold get_local
      end ].

Lemma nde_kmer_query_rec depth TESTING db kmer :
  forall p1 p2 p3 retry m,
    no_dataerr (kmer_query_rec depth TESTING db kmer p1 p2 p3 retry m).
Proof.
  induction depth as [|depth IH]; intros p1 p2 p3 retry m; cbn [kmer_query_rec].
  - nde.
  - cbv zeta. mnde. apply IH.
Qed.

(* ================================================================== *)
(** * Opening a database *)

Lemma byte_val_inj a b : byte_val a = byte_val b -> a = b.
Proof.
  unfold byte_val. intros H. apply N2Z.inj in H.
  pose proof (Byte.of_to_N a) as Ha. rewrite H, Byte.of_to_N in Ha.
  congruence.
Qed.

(** Comparison with a literal free of NUL characters: the result is 0
    exactly when the first characters are those of the literal. *)
Lemma strncmp_literal lit :
  (forall c, In c lit -> byte_val c <> 0) ->
  forall rest s,
    (List.length lit <= List.length s)%nat ->
    exists c, strncmp s (lit ++ rest) (List.length lit) = Ret c /\
              (c = 0 <-> firstn (List.length lit) s = lit).
Proof.
  intros Hnz rest. induction lit as [|a lit IH]; intros s Hlen.
  - exists 0. cbn. split; [reflexivity|split; intros; reflexivity].
  - destruct s as [|b s]; cbn [List.length] in Hlen; [lia|].
    cbn [List.length app strncmp firstn].
    destruct (Z.eqb_spec (byte_val b) (byte_val a)) as [Heq|Hne].
    + apply byte_val_inj in Heq. subst b.
      destruct (Z.eqb_spec (byte_val a) 0) as [Hz|_].
      * exfalso. apply (Hnz a); [left; reflexivity|assumption].
      * destruct (IH (fun c Hc => Hnz c (or_intror Hc)) s ltac:(lia)) as (c & -> & Hc).
        exists c. split; [reflexivity|]. rewrite Hc. split; congruence.
    + exists (byte_val b - byte_val a). split; [reflexivity|].
      split; [lia|]. intros H. injection H as -> _. contradiction.
Qed.

Lemma strncmp_magic ptr :
  8 <= Z.of_nat (List.length ptr) ->
  exists c, strncmp ptr (c_string DATABASE_FILE_TYPE)
              (Z.to_nat (strlen DATABASE_FILE_TYPE)) = Ret c /\
            (c = 0 <-> firstn 8 ptr = list_byte_of_string DATABASE_FILE_TYPE).
Proof.
  intros Hlen.
  apply (strncmp_literal (list_byte_of_string DATABASE_FILE_TYPE)).
  - intros c Hc. cbn in Hc.
    repeat (destruct Hc as [<-|Hc]; [discriminate|]). contradiction.
  - change (List.length (list_byte_of_string DATABASE_FILE_TYPE)) with 8%nat. lia.
Qed.

Lemma key_len_value kb :
  0 <= kb < 2 ^ 64 ->
  wrap64 (kb / 8 + (if negb (kb mod 8 =? 0) then 1 else 0)) = (kb + 7) / 8.
Proof.
  intros Hkb. change (2 ^ 64) with 18446744073709551616 in Hkb.
  rewrite wrap64_small.
  - destruct (Z.eqb_spec (kb mod 8) 0); cbn [negb];
      Z.to_euclidean_division_equations; lia.
  - change (2 ^ 64) with 18446744073709551616.
    destruct (Z.eqb_spec (kb mod 8) 0); cbn [negb];
      Z.to_euclidean_division_equations; lia.
Qed.

(** What the constructor does with a file of at least 56 bytes. *)
Lemma KrakenDB_open_cases ptr :
  56 <= Z.of_nat (List.length ptr) ->
  KrakenDB_open ptr =
  if list_eq_dec Byte.byte_eq_dec (firstn 8 ptr)
       (list_byte_of_string DATABASE_FILE_TYPE)
  then if word_at ptr 16 8 =? 4
       then Ret {| fptr := Some ptr; index_ptr := None;
                   k := (word_at ptr 8 8 / 2) mod 256;
                   key_bits := word_at ptr 8 8;
                   key_len := (word_at ptr 8 8 + 7) / 8;
                   val_len := word_at ptr 16 8;
                   key_ct := word_at ptr 48 8 |}
       else Errx EX_DATAERR "can only handle 4 byte DB values"
  else Errx EX_DATAERR "database in improper format".
Proof.
  intros Hlen. unfold KrakenDB_open.
  destruct (strncmp_magic ptr ltac:(lia)) as (c & -> & Hc). cbn [bind].
  destruct (list_eq_dec Byte.byte_eq_dec (firstn 8 ptr)
              (list_byte_of_string DATABASE_FILE_TYPE)) as [Hm|Hm].
  - apply Hc in Hm. subst c. cbn [Z.eqb negb].
    rewrite !load_le_ok by lia. cbn [bind].
    destruct (word_at ptr 16 8 =? 4); cbn [negb]; [|reflexivity].
    rewrite key_len_value by (apply word_at_range; lia).
    reflexivity.
  - destruct (Z.eqb_spec c 0) as [Hz|_]; [|reflexivity].
    exfalso. apply Hm, Hc, Hz.
Qed.

Lemma word_at_prefix r r' n off len :
  firstn n r' = firstn n r -> 0 <= off -> 0 <= len ->
  off + len <= Z.of_nat n ->
  word_at r' off len = word_at r off len.
Proof.
  intros Hpre Ho Hl Hn. unfold word_at, bytes_at. f_equal.
  assert (Hcut : forall s : region,
             firstn (Z.to_nat len) (skipn (Z.to_nat off) s)
             = firstn (Z.to_nat len) (skipn (Z.to_nat off) (firstn n s))).
  { intros s. rewrite skipn_firstn_comm, firstn_firstn. f_equal. lia. }
  rewrite (Hcut r), (Hcut r'), Hpre. reflexivity.
Qed.

Lemma firstn_prefix (r r' : region) n m :
  firstn n r' = firstn n r -> (m <= n)%nat -> firstn m r' = firstn m r.
Proof.
  intros H Hm.
  replace m with (Nat.min m n) by lia.
  rewrite <- !firstn_firstn, H. reflexivity.
Qed.

(** C8 (amended).  Opening a database over a byte region that holds the 56
    header bytes fails if and only if the first 8 bytes differ from
    "JFLISTDN" or the [val_len] field (bytes 16..24) differs from 4, and the
    failure is [errx] with [EX_DATAERR], which ends the process instead of
    returning to the caller.  On success it derives [k = key_bits/2], for
    [key_bits] up to 64 ([k <= 32]), and [key_len = ceil(key_bits/8)]; the
    outcome depends on the first 56 bytes only, so the pair array is not
    read; and no query ends with this error. *)
Theorem KrakenDB_open_outcome (ptr : region) :
  56 <= Z.of_nat (List.length ptr) ->
  ((exists msg, KrakenDB_open ptr = Errx EX_DATAERR msg) <->
   (firstn 8 ptr <> list_byte_of_string DATABASE_FILE_TYPE \/ word_at ptr 16 8 <> 4))
  /\ ((exists db, KrakenDB_open ptr = Ret db) <->
      (firstn 8 ptr = list_byte_of_string DATABASE_FILE_TYPE /\ word_at ptr 16 8 = 4))
  /\ (forall db, KrakenDB_open ptr = Ret db ->
        key_bits db = word_at ptr 8 8 /\
        (key_bits db <= 64 -> k db = key_bits db / 2) /\
        key_len db = (key_bits db + 7) / 8)
  /\ (forall ptr', firstn 56 ptr' = firstn 56 ptr ->
        match KrakenDB_open ptr, KrakenDB_open ptr' with
        | Ret db, Ret db' => header_fields db = header_fields db'
        | Errx code msg, Errx code' msg' => code = code' /\ msg = msg'
        | _, _ => False
        end)
  /\ (forall TESTING db kmer last_bin_key min_pos max_pos retry_on_failure m,
        no_dataerr (kmer_query TESTING db kmer last_bin_key min_pos max_pos
                      retry_on_failure m)).
Proof.
  intros Hlen. pose proof (KrakenDB_open_cases ptr Hlen) as Hopen.
  split; [|split; [|split; [|split]]].
  - rewrite Hopen.
    destruct (list_eq_dec Byte.byte_eq_dec (firstn 8 ptr)
                (list_byte_of_string DATABASE_FILE_TYPE)) as [Hm|Hm].
    + destruct (Z.eqb_spec (word_at ptr 16 8) 4) as [Hv|Hv].
      * split; [intros [msg H]; discriminate|intros [H|H]; contradiction].
      * split; [intros _; right; assumption|intros _; eexists; reflexivity].
    + split; [intros _; left; assumption|intros _; eexists; reflexivity].
  - rewrite Hopen.
    destruct (list_eq_dec Byte.byte_eq_dec (firstn 8 ptr)
                (list_byte_of_string DATABASE_FILE_TYPE)) as [Hm|Hm].
    + destruct (Z.eqb_spec (word_at ptr 16 8) 4) as [Hv|Hv].
      * split; [intros _; split; assumption|intros _; eexists; reflexivity].
      * split; [intros [db H]; discriminate|intros [_ H]; contradiction].
    + split; [intros [db H]; discriminate|intros [H _]; contradiction].
  - intros db Hdb. rewrite Hopen in Hdb.
    destruct (list_eq_dec _ _ _); [|discriminate].
    destruct (_ =? 4); [|discriminate].
    injection Hdb as <-. cbn [key_bits k key_len].
    repeat split; try reflexivity.
    intros Hsmall. apply Z.mod_small.
    pose proof (word_at_range ptr 8 8 ltac:(lia) ltac:(lia) ltac:(lia)).
    Z.to_euclidean_division_equations. lia.
  - intros ptr' Hpre.
    assert (Hlen' : 56 <= Z.of_nat (List.length ptr')).
    { apply (f_equal (@List.length byte)) in Hpre.
      rewrite !length_firstn in Hpre. lia. }
    rewrite Hopen, (KrakenDB_open_cases ptr' Hlen').
    rewrite (firstn_prefix ptr ptr' 56 8 Hpre ltac:(lia)).
    rewrite !(word_at_prefix ptr ptr' 56 _ 8 Hpre) by lia.
    destruct (list_eq_dec _ _ _); [|split; reflexivity].
    destruct (_ =? 4); [reflexivity|split; reflexivity].
  - intros. apply nde_kmer_query_rec.
Qed.

Lemma KrakenDB_open_outcome_witness :
  ((exists msg, KrakenDB_open example_file = Errx EX_DATAERR msg) <->
   (firstn 8 example_file <> list_byte_of_string DATABASE_FILE_TYPE
    \/ word_at example_file 16 8 <> 4))
  /\ ((exists db, KrakenDB_open example_file = Ret db) <->
      (firstn 8 example_file = list_byte_of_string DATABASE_FILE_TYPE
       /\ word_at example_file 16 8 = 4))
  /\ (forall db, KrakenDB_open example_file = Ret db ->
        key_bits db = word_at example_file 8 8 /\
        (key_bits db <= 64 -> k db = key_bits db / 2) /\
        key_len db = (key_bits db + 7) / 8)
  /\ (forall ptr', firstn 56 ptr' = firstn 56 example_file ->
        match KrakenDB_open example_file, KrakenDB_open ptr' with
        | Ret db, Ret db' => header_fields db = header_fields db'
        | Errx code msg, Errx code' msg' => code = code' /\ msg = msg'
        | _, _ => False
        end)
  /\ (forall TESTING db kmer last_bin_key min_pos max_pos retry_on_failure m,
        no_dataerr (kmer_query TESTING db kmer last_bin_key min_pos max_pos
                      retry_on_failure m)).
Proof.
  apply (KrakenDB_open_outcome example_file).
  vm_compute. discriminate.
Defined.

(** C8, as stated, fails: the failure is not returned to the caller.  On a
    region that does not start with "JFLISTDN", and on one whose [val_len]
    is 8, the constructor calls [errx], which prints its message and ends
    the process with status [EX_DATAERR]; in neither case does the call
    return. *)
Lemma KrakenDB_open_exits_process :
  firstn 8 bad_magic_file <> list_byte_of_string DATABASE_FILE_TYPE /\
  KrakenDB_open bad_magic_file = Errx EX_DATAERR "database in improper format" /\
  (forall db, KrakenDB_open bad_magic_file <> Ret db) /\
  firstn 8 bad_val_len_file = list_byte_of_string DATABASE_FILE_TYPE /\
  word_at bad_val_len_file 16 8 = 8 /\
  KrakenDB_open bad_val_len_file
  = Errx EX_DATAERR "can only handle 4 byte DB values" /\
  (forall db, KrakenDB_open bad_val_len_file <> Ret db).
Proof.
  assert (H1 : KrakenDB_open bad_magic_file
               = Errx EX_DATAERR "database in improper format") by reflexivity.
  assert (H2 : KrakenDB_open bad_val_len_file
               = Errx EX_DATAERR "can only handle 4 byte DB values") by reflexivity.
  split; [intros H; discriminate H|]. split; [exact H1|].
  split; [intros db H; rewrite H1 in H; discriminate H|].
  split; [reflexivity|]. split; [reflexivity|]. split; [exact H2|].
  intros db H. rewrite H2 in H. discriminate H.
Qed.

(* ================================================================== *)
(** * Searching a window of the pair array *)

Lemma int64_ok_returns z : - 2 ^ 63 <= z < 2 ^ 63 -> int64_ok z = Ret z.
Proof.
  intros Hz. unfold int64_ok.
  replace (- 2 ^ 63 <=? z) with true by (symmetry; apply Z.leb_le; lia).
  replace (z <? 2 ^ 63) with true by (symmetry; apply Z.ltb_lt; lia).
  reflexivity.
Qed.

Section Search.

Variables (db : KrakenDB) (r : region).
Hypothesis Hm : db_mapped db r.
Hypothesis Hkb : key_bits db < 64.

Lemma key_ct_bound : 0 <= key_ct db < 2 ^ 62.
Proof.
  destruct (pair_size_value db r Hm) as [Hps Hkl].
  pose proof (header_size_value db r Hm).
  destruct Hm as [_ ? _ _ ? ? ?].
  change (2 ^ 64) with (4 * 2 ^ 62) in *. nia.
Qed.

Lemma comp_kmer_at_returns i :
  0 <= i < key_ct db ->
  comp_kmer_at db (get_pair_ptr db) (pair_size db) i = Ret (stored_key db r i).
Proof.
  intros Hi. unfold comp_kmer_at, stored_key.
  rewrite (db_load_key db r i Hm Hi). cbn [bind].
  assert (Hk : 0 <= key_bits db) by (destruct Hm; lia).
  rewrite shl_u64_one by lia. cbn [bind].
  pose proof (pow2_mono (key_bits db) 63 ltac:(lia)).
  assert (2 ^ 63 < 2 ^ 64) by reflexivity.
  rewrite wrap64_small by lia. reflexivity.
Qed.

Lemma value_ptr_returns i :
  0 <= i < key_ct db ->
  value_ptr db (get_pair_ptr db) (pair_size db) i = Ret (value_offset db i).
Proof.
  intros Hi. unfold value_ptr, get_pair_ptr, value_offset.
  destruct (pair_size_value db r Hm) as [Hps Hkl].
  pose proof (header_size_value db r Hm).
  destruct Hm as [-> ? _ _ ? ? ?].
  rewrite wrap64_small by nia. reflexivity.
Qed.

Lemma load_value_returns i :
  0 <= i < key_ct db ->
  load_value db (value_offset db i) = Ret (stored_value db r i).
Proof.
  intros Hi. unfold load_value, stored_value, value_offset.
  destruct (pair_size_value db r Hm) as [Hps Hkl].
  pose proof (header_size_value db r Hm).
  destruct Hm as [-> ? _ _ ? ? ?].
  apply load_le_ok; nia.
Qed.

Lemma increasing_keys_sub lo hi lo' hi' :
  lo <= lo' -> hi' <= hi ->
  increasing_keys db r lo hi -> increasing_keys db r lo' hi'.
Proof. intros Hlo Hhi H i j Hij Hj. apply H; lia. Qed.

Lemma increasing_keys_le lo hi i j :
  increasing_keys db r lo hi -> lo <= i <= j -> j <= hi ->
  stored_key db r i <= stored_key db r j.
Proof.
  intros H Hij Hj. destruct (Z.eq_dec i j) as [->|Hne]; [lia|].
  specialize (H i j ltac:(lia) Hj). lia.
Qed.

Variable kmer : Z.

Lemma binary_search_spec fuel :
  forall min max,
    (Z.to_nat (max - min) < fuel)%nat ->
    0 <= min <= key_ct db -> -1 <= max < key_ct db ->
    exists res,
      binary_search fuel db (get_pair_ptr db) (pair_size db) kmer min max = Ret res /\
      match res with
      | inl p =>
          exists i, min <= i <= max /\ stored_key db r i = kmer /\
                    p = value_offset db i
      | inr (min', max') =>
          min <= min' /\ max' <= max /\
          0 <= min' <= key_ct db /\ -1 <= max' < key_ct db /\
          (increasing_keys db r min max ->
           forall i, min <= i <= max -> stored_key db r i = kmer ->
                     min' <= i <= max')
      end.
Proof.
  pose proof key_ct_bound as Hct.
  assert (H62 : 2 ^ 62 + 2 ^ 62 = 2 ^ 63) by reflexivity.
  induction fuel as [|fuel IH]; intros min max Hfuel Hmin Hmax; [lia|].
  cbn [binary_search].
  rewrite int64_ok_returns by lia. cbn [bind].
  destruct (Z.leb_spec (min + 15) max) as [Hwide|Hnarrow].
  - rewrite int64_ok_returns by lia. cbn [bind].
    rewrite Z.quot_div_nonneg by lia.
    set (mid := min + (max - min) / 2).
    assert (Hmid : min <= mid < max)
      by (subst mid; Z.to_euclidean_division_equations; lia).
    rewrite int64_ok_returns by lia. cbn [bind].
    rewrite comp_kmer_at_returns by lia. cbn [bind].
    destruct (Z.gtb_spec kmer (stored_key db r mid)) as [Hgt|Hle].
    + rewrite int64_ok_returns by lia. cbn [bind].
      destruct (IH (mid + 1) max ltac:(lia) ltac:(lia) ltac:(lia))
        as (res & Hres & Hspec).
      exists res. split; [exact Hres|].
      destruct res as [p|[min' max']].
      * destruct Hspec as (i & Hi & Hk & Hp). exists i. repeat split; try assumption; lia.
      * destruct Hspec as (H1 & H2 & H3 & H4 & H5).
        repeat split; try lia.
        -- assert (mid + 1 <= i); [|apply H5; try assumption; try lia].
           ++ destruct (Z_lt_le_dec mid i) as [|Hile]; [lia|].
              pose proof (increasing_keys_le min max i mid H ltac:(lia) ltac:(lia)).
              lia.
           ++ eapply increasing_keys_sub; [| |eassumption]; lia.
        -- assert (mid + 1 <= i).
           { destruct (Z_lt_le_dec mid i) as [|Hile]; [lia|].
             pose proof (increasing_keys_le min max i mid H ltac:(lia) ltac:(lia)).
             lia. }
           apply H5; try assumption; try lia.
           eapply increasing_keys_sub; [| |eassumption]; lia.
    + destruct (Z.ltb_spec kmer (stored_key db r mid)) as [Hlt|Hge].
      * rewrite int64_ok_returns by lia. cbn [bind].
        destruct (IH min (mid - 1) ltac:(lia) ltac:(lia) ltac:(lia))
          as (res & Hres & Hspec).
        exists res. split; [exact Hres|].
        destruct res as [p|[min' max']].
        -- destruct Hspec as (i & Hi & Hk & Hp). exists i.
           repeat split; try assumption; lia.
        -- destruct Hspec as (H1 & H2 & H3 & H4 & H5).
           assert (Hbelow : increasing_keys db r min max ->
                            forall i, min <= i <= max -> stored_key db r i = kmer ->
                                      i <= mid - 1).
           { intros Hinc i Hi Hk.
             destruct (Z_lt_le_dec i mid) as [|Hile]; [lia|].
             pose proof (increasing_keys_le min max mid i Hinc ltac:(lia) ltac:(lia)).
             lia. }
           repeat split; try lia.
           ++ apply H5; try assumption.
              ** eapply increasing_keys_sub; [| |eassumption]; lia.
              ** specialize (Hbelow H i ltac:(lia) ltac:(assumption)). lia.
           ++ apply H5; try assumption.
              ** eapply increasing_keys_sub; [| |eassumption]; lia.
              ** specialize (Hbelow H i ltac:(lia) ltac:(assumption)). lia.
      * rewrite value_ptr_returns by lia. cbn [bind].
        eexists. split; [reflexivity|].
        exists mid. repeat split; lia.
  - eexists. split; [reflexivity|]. repeat split; lia.
Qed.

Lemma linear_search_spec fuel :
  forall mid max,
    (Z.to_nat (max - mid + 1) < fuel)%nat ->
    0 <= mid <= key_ct db -> -1 <= max < key_ct db ->
    exists res,
      linear_search fuel db (get_pair_ptr db) (pair_size db) kmer mid max = Ret res /\
      match res with
      | Some p =>
          exists i, mid <= i <= max /\ stored_key db r i = kmer /\
                    p = value_offset db i
      | None => forall i, mid <= i <= max -> stored_key db r i <> kmer
      end.
Proof.
  pose proof key_ct_bound as Hct.
  assert (H62 : 2 ^ 62 + 2 ^ 62 = 2 ^ 63) by reflexivity.
  induction fuel as [|fuel IH]; intros mid max Hfuel Hmid Hmax; [lia|].
  cbn [linear_search].
  destruct (Z.leb_spec mid max) as [Hin|Hout].
  - rewrite comp_kmer_at_returns by lia. cbn [bind].
    destruct (Z.eqb_spec kmer (stored_key db r mid)) as [Heq|Hne].
    + rewrite value_ptr_returns by lia. cbn [bind].
      eexists. split; [reflexivity|]. exists mid. repeat split; lia.
    + rewrite int64_ok_returns by lia. cbn [bind].
      destruct (IH (mid + 1) max ltac:(lia) ltac:(lia) ltac:(lia))
        as (res & Hres & Hspec).
      exists res. split; [exact Hres|].
      destruct res as [p|].
      * destruct Hspec as (i & Hi & Hk & Hp). exists i.
        repeat split; try assumption; lia.
      * intros i Hi. destruct (Z.eq_dec i mid) as [->|Hd]; [congruence|].
        apply Hspec. lia.
  - eexists. split; [reflexivity|]. intros i Hi. lia.
Qed.

(** The two loops on a window within the pair array: they end, a returned
    pointer is that of a pair of the window holding [kmer], and when the
    keys of the window increase no such pair is missed. *)
Lemma window_search_spec lo hi :
  0 <= lo <= key_ct db -> -1 <= hi < key_ct db ->
  exists res,
    window_search db (get_pair_ptr db) (pair_size db) kmer lo hi = Ret res /\
    match res with
    | Some p =>
        exists i, lo <= i <= hi /\ stored_key db r i = kmer /\
                  p = value_offset db i
    | None =>
        increasing_keys db r lo hi ->
        forall i, lo <= i <= hi -> stored_key db r i <> kmer
    end.
Proof.
  intros Hlo Hhi. unfold window_search.
  destruct (binary_search_spec (S (Z.to_nat (hi - lo))) lo hi ltac:(lia) Hlo Hhi)
    as (res & -> & Hspec).
  cbn [bind]. destruct res as [p|[min' max']].
  - eexists. split; [reflexivity|]. exact Hspec.
  - destruct Hspec as (H1 & H2 & H3 & H4 & H5).
    destruct (linear_search_spec (S (Z.to_nat (max' - min' + 1))) min' max'
                ltac:(lia) H3 H4) as (res & -> & Hlin).
    exists res. split; [reflexivity|]. destruct res as [p|].
    + destruct Hlin as (i & Hi & Hk & Hp). exists i.
      repeat split; try assumption; lia.
    + intros Hinc i Hi Hk.
      apply (Hlin i); [|assumption]. apply H5; assumption.
Qed.

End Search.

(* ================================================================== *)
(** * Looking a k-mer up in its bin *)

Lemma to_int64_wrap z : - 2 ^ 63 <= z < 2 ^ 63 -> to_int64 (wrap64 z) = z.
Proof.
  intros Hz. unfold to_int64, wrap64.
  rewrite Z.add_mod_idemp_l by lia.
  change (2 ^ 64) with (2 ^ 63 + 2 ^ 63) in *.
  rewrite Z.mod_small by lia. lia.
Qed.

Lemma to_int64_small z : 0 <= z < 2 ^ 63 -> to_int64 z = z.
Proof.
  intros Hz. rewrite <- (wrap64_small z) at 1.
  - apply to_int64_wrap. lia.
  - change (2 ^ 64) with (2 ^ 63 + 2 ^ 63). lia.
Qed.

(** The recursion depth does not matter to a call without retry: it is the
    full lookup, and it leaves the memory as it is. *)
Lemma kmer_query_rec_no_retry depth TESTING db kmer p1 p2 p3 m :
  kmer_query_rec (S depth) TESTING db kmer p1 p2 p3 false m
  = lift (fresh_lookup TESTING db kmer) m.
Proof.
  cbn [kmer_query_rec]. unfold fresh_lookup, bin_window, mbind, ret, lift.
  cbn [bind fst snd].
  destruct (bin_key db kmer) as [b| | |]; cbn [bind fst snd]; try reflexivity.
  destruct (index_ptr_at TESTING db b) as [lo| | |]; cbn [bind fst snd]; try reflexivity.
  destruct (index_ptr_at TESTING db (wrap64 (b + 1))) as [hi| | |];
    cbn [bind fst snd]; try reflexivity.
  destruct (window_search _ _ _ _ _ _) as [[p|]| | |]; reflexivity.
Qed.

Section Lookup.

Variables (TESTING : bool) (db : KrakenDB) (r : region) (ix : KrakenDBIndex).
Hypothesis Hb : db_bound db r ix.
Hypothesis Hkb : key_bits db < 64.
Hypothesis Hidx : index_invariants db r ix.

Lemma offsets_chain n :
  forall b, 0 <= b -> b + Z.of_nat n <= 4 ^ nt ix ->
            offset_entry ix b <= offset_entry ix (b + Z.of_nat n).
Proof.
  induction n as [|n IH]; intros b Hb0 Hbn.
  - replace (b + Z.of_nat 0) with b by lia. lia.
  - specialize (IH b Hb0 ltac:(lia)).
    pose proof (inv_monotone db r ix Hidx (b + Z.of_nat n) ltac:(lia)) as Hs.
    replace (b + Z.of_nat (S n)) with (b + Z.of_nat n + 1) by lia. lia.
Qed.

Lemma offsets_bounded b :
  0 <= b <= 4 ^ nt ix -> 0 <= offset_entry ix b <= key_ct db.
Proof.
  intros Hb0.
  pose proof (offsets_chain (Z.to_nat b) 0 ltac:(lia) ltac:(lia)) as H1.
  pose proof (offsets_chain (Z.to_nat (4 ^ nt ix - b)) b ltac:(lia) ltac:(lia)) as H2.
  rewrite Z2Nat.id in H1, H2 by lia.
  replace (b + (4 ^ nt ix - b)) with (4 ^ nt ix) in H2 by lia.
  cbn [Z.add] in H1.
  rewrite (inv_first db r ix Hidx) in H1. rewrite (inv_last db r ix Hidx) in H2. lia.
Qed.

Lemma bin_key_bin_of kmer :
  bin_key db kmer = Ret (bin_of db kmer) /\ 0 <= bin_of db kmer < 4 ^ nt ix.
Proof.
  pose proof Hb as [_ Hi Hnt Hntk _].
  pose proof (bin_key_returns db ix kmer Hi Hnt) as Hret.
  unfold bin_of. rewrite Hret. split; [reflexivity|].
  apply bin_key_value_range; try assumption.
  pose proof (bound_mapped db r ix Hb) as [_ ? _ _ _ _ _].
  change (2 ^ 64) with 18446744073709551616. lia.
Qed.

Lemma index_ptr_at_returns idx :
  0 <= idx <= 4 ^ nt ix -> index_ptr_at TESTING db idx = Ret (offset_entry ix idx).
Proof.
  intros Hi. pose proof Hb as [_ Hix Hnt _ Hmap].
  unfold index_ptr_at. rewrite Hix. apply index_at_returns; assumption.
Qed.

(** The window of the bin of [kmer]. *)
Lemma bin_window_returns kmer :
  bin_window TESTING db kmer
  = Ret (bin_of db kmer, offset_entry ix (bin_of db kmer),
         offset_entry ix (bin_of db kmer + 1) - 1).
Proof.
  destruct (bin_key_bin_of kmer) as [Hk Hr]. unfold bin_window.
  rewrite Hk. cbn [bind].
  pose proof (pow4_bounds (nt ix) (bound_nt db r ix Hb)) as Hp.
  assert (2 ^ 30 < 2 ^ 64 - 1) by reflexivity.
  rewrite (wrap64_small (bin_of db kmer + 1)) by lia.
  rewrite !index_ptr_at_returns by lia. cbn [bind].
  pose proof (offsets_bounded (bin_of db kmer) ltac:(lia)).
  pose proof (offsets_bounded (bin_of db kmer + 1) ltac:(lia)).
  pose proof (key_ct_bound db r (bound_mapped db r ix Hb)) as Hct.
  assert (2 ^ 62 < 2 ^ 63) by reflexivity.
  rewrite to_int64_small, to_int64_wrap by lia. reflexivity.
Qed.

Lemma fresh_lookup_unfold kmer :
  fresh_lookup TESTING db kmer
  = window_search db (get_pair_ptr db) (pair_size db) kmer
      (offset_entry ix (bin_of db kmer))
      (offset_entry ix (bin_of db kmer + 1) - 1).
Proof. unfold fresh_lookup. rewrite bin_window_returns. reflexivity. Qed.

Lemma window_bounds b :
  0 <= b < 4 ^ nt ix ->
  0 <= offset_entry ix b <= key_ct db /\
  -1 <= offset_entry ix (b + 1) - 1 < key_ct db.
Proof.
  intros Hb0.
  pose proof (offsets_bounded b ltac:(lia)).
  pose proof (offsets_bounded (b + 1) ltac:(lia)). lia.
Qed.

(** The pairs of a window are those of its bin. *)
Lemma window_bin b i :
  0 <= b < 4 ^ nt ix ->
  offset_entry ix b <= i <= offset_entry ix (b + 1) - 1 ->
  0 <= i < key_ct db /\ bin_of db (stored_key db r i) = b.
Proof.
  intros Hb0 Hi. destruct (window_bounds b Hb0) as [H1 H2].
  assert (Hr : 0 <= i < key_ct db) by lia.
  split; [assumption|].
  apply (inv_delimits db r ix Hidx b i Hb0 Hr). lia.
Qed.

Lemma window_increasing b :
  pair_array_invariants db r -> 0 <= b < 4 ^ nt ix ->
  increasing_keys db r (offset_entry ix b) (offset_entry ix (b + 1) - 1).
Proof.
  intros Hinv Hb0 i j Hij Hj.
  destruct (window_bin b i Hb0 ltac:(lia)) as [Hi Hbi].
  destruct (window_bin b j Hb0 ltac:(lia)) as [Hj' Hbj].
  apply (inv_increasing db r Hinv); [lia|lia|congruence].
Qed.

(** One amortised query from a state that agrees with the index: it
    returns what the full lookup returns and leaves such a state. *)
Lemma kmer_query_state_step st kmer :
  state_consistent db ix st ->
  exists res st',
    fresh_lookup TESTING db kmer = Ret res /\
    kmer_query_state TESTING db kmer st = Ret (res, st') /\
    state_consistent db ix st'.
Proof.
  destruct st as [[lbk mn] mx]. intros Hst.
  pose proof (bound_mapped db r ix Hb) as Hm.
  destruct (bin_key_bin_of kmer) as [Hbk Hbr].
  set (b := bin_of db kmer) in *.
  destruct (window_bounds b Hbr) as [Hlo Hhi].
  pose proof (pow4_bounds (nt ix) (bound_nt db r ix Hb)) as Hp.
  assert (H30 : 2 ^ 30 < 2 ^ 64 - 1) by reflexivity.
  pose proof (key_ct_bound db r Hm) as Hct.
  assert (H62 : 2 ^ 62 < 2 ^ 63) by reflexivity.
  pose proof (fresh_lookup_unfold kmer) as Hfresh. fold b in Hfresh.
  destruct (window_search_spec db r Hm Hkb kmer _ _ Hlo Hhi) as (res0 & Hws & Hspec0).
  rewrite Hws in Hfresh.
  assert (Hat : forall idx, 0 <= idx <= 4 ^ nt ix ->
                  index_ptr_at TESTING db idx = Ret (offset_entry ix idx))
    by (intros; apply index_ptr_at_returns; assumption).
  unfold kmer_query_state, kmer_query.
  set (depth := 1%nat) at 1.
  assert (Hdepth : depth = 1%nat) by reflexivity. clearbody depth.
  destruct (Z.leb_spec mn mx) as [Hvalid|Hinvalid].
  - (* the provided window is used *)
    destruct Hst as [Hgt|(Hl & Hmn & Hmx)]; [lia|].
    destruct (window_bounds lbk Hl) as [Hlo' Hhi'].
    rewrite <- Hmn in Hlo'. rewrite <- Hmx in Hhi'.
    destruct (window_search_spec db r Hm Hkb kmer _ _ Hlo' Hhi') as (res1 & Hws1 & Hspec1).
    cbn [kmer_query_rec].
    unfold mbind, ret, lift, deref, assign, set_local, get_local.
    cbn [bind fst snd cells accesses state_memory state_cells].
    replace (mn <=? mx) with true by (symmetry; apply Z.leb_le; lia).
    cbn [bind fst snd cells accesses state_memory state_cells].
    rewrite Hws1. cbn [bind fst snd].
    destruct res1 as [p|].
    + (* found in the provided window: it is the window of the bin *)
      destruct Hspec1 as (i & Hi & Hk & Hp1).
      destruct (window_bin lbk i Hl ltac:(lia)) as [_ Hbin].
      rewrite Hk in Hbin. fold b in Hbin.
      exists (Some p), (lbk, mn, mx). split; [|split].
      * rewrite Hfresh. rewrite Hbin, <- Hmn, <- Hmx in Hws.
        rewrite Hws in Hws1. exact Hws1.
      * reflexivity.
      * right. auto.
    + rewrite Hbk. cbn [bind fst snd cells accesses state_memory state_cells].
      destruct (Z.eqb_spec b lbk) as [Heq|Hne].
      * exists None, (lbk, mn, mx). split; [|split].
        -- rewrite Hfresh. rewrite Heq, <- Hmn, <- Hmx in Hws.
           rewrite Hws in Hws1. exact Hws1.
        -- reflexivity.
        -- right. auto.
      * rewrite (wrap64_small (b + 1)) by lia.
        rewrite !Hat by lia.
        cbn [bind fst snd cells accesses update addr_eqb Nat.eqb andb].
        rewrite Hdepth, kmer_query_rec_no_retry. unfold lift.
        rewrite Hfresh. cbn [bind fst snd cells accesses update addr_eqb Nat.eqb andb].
        rewrite to_int64_small, to_int64_wrap by lia.
        exists res0, (b, offset_entry ix b, offset_entry ix (b + 1) - 1).
        split; [reflexivity|]. split; [reflexivity|].
        right. auto.
  - (* full lookup *)
    cbn [kmer_query_rec].
    unfold mbind, ret, lift, deref, assign, set_local, get_local.
    cbn [bind fst snd cells accesses state_memory state_cells].
    replace (mn <=? mx) with false by (symmetry; apply Z.leb_gt; lia).
    cbn [bind fst snd cells accesses state_memory state_cells].
    rewrite Hbk. cbn [bind fst snd].
    rewrite (wrap64_small (b + 1)) by lia.
    rewrite !Hat by lia.
    cbn [bind fst snd cells accesses update addr_eqb Nat.eqb andb].
    rewrite to_int64_small, to_int64_wrap by lia.
    rewrite Hws. cbn [bind fst snd].
    exists res0, (b, offset_entry ix b, offset_entry ix (b + 1) - 1).
    split; [exact Hfresh|].
    destruct res0 as [p|].
    + split; [reflexivity|]. right. auto.
    + cbn [bind fst snd cells accesses update addr_eqb Nat.eqb andb].
      rewrite Z.eqb_refl. split; [reflexivity|]. right. auto.
Qed.

Lemma reachable_consistent st :
  reachable_state TESTING db st -> state_consistent db ix st.
Proof.
  induction 1 as [lbk mn mx _ _ _ Hgt|st st' kmer res _ IH _ Hq].
  - left. assumption.
  - destruct (kmer_query_state_step st kmer IH) as (res' & st'' & _ & Hq' & Hc).
    rewrite Hq in Hq'. injection Hq' as _ <-. exact Hc.
Qed.

End Lookup.

(* ================================================================== *)
(** * The two databases satisfy the invariants *)

Lemma Z_range_cases (P : Z -> Prop) (n : nat) :
  (forall j, (j < n)%nat -> P (Z.of_nat j)) ->
  forall i, 0 <= i < Z.of_nat n -> P i.
Proof.
  intros H i Hi. rewrite <- (Z2Nat.id i) by lia. apply H. lia.
Qed.

(** Case analysis on an integer [i] with [0 <= i < n], for a literal [n]. *)
Ltac range_cases i n tac :=
  pattern i; apply (Z_range_cases _ n); [|cbn in *; lia];
  let j := fresh "j" in
  let Hj := fresh "Hj" in
  intros j Hj;
  repeat (destruct j as [|j]; [tac|try (exfalso; lia)]).

Ltac evaluate :=
  vm_compute; intuition (try discriminate; try reflexivity; try congruence).

Lemma example_db_bound : db_bound example_bound_db example_file example_index.
Proof.
  constructor.
  - constructor; try reflexivity; try (cbn; lia).
  - reflexivity.
  - cbn. lia.
  - cbn. lia.
  - unfold index_mapped. vm_compute. discriminate.
Qed.

Lemma example_pair_array : pair_array_invariants example_bound_db example_file.
Proof.
  constructor.
  - intros i Hi. range_cases i 3%nat ltac:(reflexivity).
  - intros i j Hij Hj.
    assert (Hi : 0 <= i < 3) by (cbn in Hj; lia).
    assert (Hj' : 0 <= j < 3) by (cbn in Hj; lia). clear Hj. revert Hij.
    range_cases i 3%nat ltac:(range_cases j 3%nat ltac:(evaluate)).
  - intros i j Hij Hj.
    assert (Hi : 0 <= i < 3) by (cbn in Hj; lia).
    assert (Hj' : 0 <= j < 3) by (cbn in Hj; lia). clear Hj. revert Hij.
    range_cases i 3%nat ltac:(range_cases j 3%nat ltac:(evaluate)).
Qed.

Lemma example_index_invariants :
  index_invariants example_bound_db example_file example_index.
Proof.
  constructor.
  - reflexivity.
  - intros b Hb. range_cases b 16%nat ltac:(evaluate).
  - reflexivity.
  - intros b i Hb Hi.
    range_cases b 16%nat ltac:(range_cases i 3%nat ltac:(evaluate)).
Qed.

Lemma wide_db_bound : db_bound wide_db wide_file wide_index.
Proof.
  constructor.
  - constructor; try reflexivity; try (cbn; lia).
  - reflexivity.
  - cbn. lia.
  - cbn. lia.
  - unfold index_mapped. vm_compute. discriminate.
Qed.

Lemma wide_pair_array : pair_array_invariants wide_db wide_file.
Proof.
  constructor.
  - intros i Hi. range_cases i 1%nat ltac:(reflexivity).
  - intros i j Hij Hj. cbn in Hj. lia.
  - intros i j Hij Hj. cbn in Hj. assert (i = 0) as -> by lia.
    assert (j = 0) as -> by lia. lia.
Qed.

Lemma wide_index_invariants : index_invariants wide_db wide_file wide_index.
Proof.
  constructor.
  - reflexivity.
  - intros b Hb. range_cases b 4%nat ltac:(evaluate).
  - reflexivity.
  - intros b i Hb Hi.
    range_cases b 4%nat ltac:(range_cases i 1%nat ltac:(evaluate)).
Qed.

(* ================================================================== *)
(** * Queries *)

(** X24.  For every database with [key_bits < 64] whose pair array
    satisfies the invariants I1-I3 and whose bound index (v1 or v2, however
    it was built) delimits the bins, and for every k-mer [x < 2^key_bits]:
    the stateless [kmer_query(x)] returns a pointer to the stored value [v]
    whenever the pair [(x, v)] is in the pair array, and returns [NULL]
    whenever [x] is not stored. *)
Theorem kmer_query_1_round_trip (TESTING : bool) (db : KrakenDB) (r : region)
        (ix : KrakenDBIndex) (x : Z) (m : memory) :
  db_bound db r ix ->
  key_bits db < 64 ->
  pair_array_invariants db r ->
  index_invariants db r ix ->
  0 <= x < 2 ^ key_bits db ->
  (forall i, 0 <= i < key_ct db -> stored_key db r i = x ->
     exists p, kmer_query_1 TESTING db x m = Ret (Some p, m) /\
               load_value db p = Ret (stored_value db r i))
  /\ ((forall i, 0 <= i < key_ct db -> stored_key db r i <> x) ->
      kmer_query_1 TESTING db x m = Ret (None, m)).
Proof.
  intros Hb Hkb Hinv Hidx Hx.
  pose proof (bound_mapped db r ix Hb) as Hm.
  destruct (bin_key_bin_of db r ix Hb Hkb x) as [_ Hbr].
  destruct (window_bounds db r ix Hidx _ Hbr) as [Hlo Hhi].
  destruct (window_search_spec db r Hm Hkb x _ _ Hlo Hhi) as (res & Hws & Hspec).
  assert (Hq : kmer_query_1 TESTING db x m = Ret (res, m)).
  { unfold kmer_query_1, kmer_query. rewrite kmer_query_rec_no_retry.
    unfold lift. rewrite (fresh_lookup_unfold TESTING db r ix Hb Hkb Hidx x), Hws.
    reflexivity. }
  rewrite Hq. split.
  - intros i Hi Hk.
    assert (Hin : offset_entry ix (bin_of db x) <= i
                  <= offset_entry ix (bin_of db x + 1) - 1).
    { pose proof (proj2 (inv_delimits db r ix Hidx (bin_of db x) i Hbr Hi)) as Hd.
      rewrite Hk in Hd. specialize (Hd eq_refl). lia. }
    pose proof (window_increasing db r ix Hidx _ Hinv Hbr) as Hinc.
    destruct res as [p|].
    + destruct Hspec as (i' & Hi' & Hk' & Hp).
      assert (i' = i).
      { destruct (Z.lt_trichotomy i' i) as [Hlt|[Heq|Hgt]]; [|assumption|].
        - pose proof (Hinc i' i ltac:(lia) ltac:(lia)). lia.
        - pose proof (Hinc i i' ltac:(lia) ltac:(lia)). lia. }
      subst i'. exists p. split; [reflexivity|].
      rewrite Hp. apply (load_value_returns db r Hm). assumption.
    + exfalso. apply (Hspec Hinc i Hin Hk).
  - intros Hnone. destruct res as [p|]; [|reflexivity].
    destruct Hspec as (i & Hi & Hk & _). exfalso.
    apply (Hnone i); [lia|assumption].
Qed.

Lemma kmer_query_1_round_trip_witness :
  (forall i, 0 <= i < 3 -> stored_key example_bound_db example_file i = 27 ->
     exists p, kmer_query_1 true example_bound_db 27 empty_memory
               = Ret (Some p, empty_memory) /\
               load_value example_bound_db p
               = Ret (stored_value example_bound_db example_file i))
  /\ ((forall i, 0 <= i < 3 -> stored_key example_bound_db example_file i <> 27) ->
      kmer_query_1 true example_bound_db 27 empty_memory = Ret (None, empty_memory)).
Proof.
  apply (kmer_query_1_round_trip true example_bound_db example_file example_index
           27 empty_memory).
  - exact example_db_bound.
  - cbn. lia.
  - exact example_pair_array.
  - exact example_index_invariants.
  - cbn. lia.
Defined.

(** C1 (the code departs from the claim).  For [key_bits = 64] ([k = 32],
    inside the range of k-mer lengths) the round trip fails.  The file
    [wide_file] opens as a database with one pair, (1, 7); [make_index]
    builds its index for [nt = 1], reading the 8-byte key and computing its
    bin key; the database satisfies the invariants; but the key mask
    [(1ull << key_bits) - 1] of [kmer_query] shifts a 64-bit value by 64
    bits, so the query of the stored k-mer has no defined result. *)
Theorem kmer_query_1_undefined_on_64_bit_keys :
  (exists db0,
      KrakenDB_open wide_file = Ret db0 /\
      make_index db0 1 = Ret wide_index_file /\
      KrakenDBIndex_open wide_index_file = Ret wide_index /\
      set_index db0 wide_index = wide_db) /\
  db_bound wide_db wide_file wide_index /\
  key_bits wide_db / 2 = 32 /\
  pair_array_invariants wide_db wide_file /\
  index_invariants wide_db wide_file wide_index /\
  stored_key wide_db wide_file 0 = 1 /\
  stored_value wide_db wide_file 0 = 7 /\
  0 <= 1 < 2 ^ key_bits wide_db /\
  forall TESTING m, kmer_query_1 TESTING wide_db 1 m = Undef.
Proof.
  split; [eexists; repeat split; vm_compute; reflexivity|].
  split; [exact wide_db_bound|]. split; [reflexivity|].
  split; [exact wide_pair_array|]. split; [exact wide_index_invariants|].
  split; [reflexivity|]. split; [reflexivity|]. split; [cbn; lia|].
  intros TESTING m. unfold kmer_query_1, kmer_query.
  rewrite kmer_query_rec_no_retry.
  assert (Hf : fresh_lookup TESTING wide_db 1 = Undef)
    by (destruct TESTING; vm_compute; reflexivity).
  unfold lift. rewrite Hf. reflexivity.
Qed.

(** X25.  For every database with [key_bits < 64] and bound index
    satisfying the invariants, for every k-mer [x], and for every state
    [(last_bin_key, min_pos, max_pos)] that is an initial state with
    [min_pos > max_pos] or the state left by earlier stateful queries, the
    stateful [kmer_query(x, &last_bin_key, &min_pos, &max_pos, true)] returns
    what the stateless [kmer_query(x)] returns. *)
Theorem kmer_query_state_agrees (TESTING : bool) (db : KrakenDB) (r : region)
        (ix : KrakenDBIndex) (st : query_state) (x : Z) (m : memory) :
  db_bound db r ix ->
  key_bits db < 64 ->
  pair_array_invariants db r ->
  index_invariants db r ix ->
  reachable_state TESTING db st ->
  0 <= x < 2 ^ 64 ->
  exists res st',
    kmer_query_1 TESTING db x m = Ret (res, m) /\
    kmer_query_state TESTING db x st = Ret (res, st').
Proof.
  intros Hb Hkb _ Hidx Hreach _.
  pose proof (reachable_consistent TESTING db r ix Hb Hkb Hidx st Hreach) as Hst.
  destruct (kmer_query_state_step TESTING db r ix Hb Hkb Hidx st x Hst)
    as (res & st' & Hfresh & Hq & _).
  exists res, st'. split; [|exact Hq].
  unfold kmer_query_1, kmer_query. rewrite kmer_query_rec_no_retry.
  unfold lift. rewrite Hfresh. reflexivity.
Qed.

Lemma kmer_query_state_agrees_witness :
  exists res st',
    kmer_query_1 true example_bound_db 0x55 empty_memory = Ret (res, empty_memory) /\
    kmer_query_state true example_bound_db 0x55 (11, 1, 1) = Ret (res, st').
Proof.
  apply (kmer_query_state_agrees true example_bound_db example_file example_index
           (11, 1, 1) 0x55 empty_memory).
  - exact example_db_bound.
  - cbn. lia.
  - exact example_pair_array.
  - exact example_index_invariants.
  - apply (reach_query true example_bound_db (0, 1, 0) (11, 1, 1) 27 (Some 214)).
    + apply reach_initial; lia.
    + lia.
    + vm_compute. reflexivity.
  - lia.
Defined.


(** C10.  With [retry_on_failure = false], [kmer_query] neither reads nor
    writes through its three pointer parameters: whatever the pointers (null
    or not) and the memory, the call ends as the stateless [kmer_query(kmer)]
    does and leaves the memory, with its record of accesses, unchanged.  With
    [retry_on_failure = true] a null pointer in any of the three positions
    keeps the call from returning. *)
Theorem kmer_query_no_retry_no_access (TESTING : bool) (db : KrakenDB) (kmer : Z)
        (last_bin_key min_pos max_pos : pointer) (m : memory) :
  kmer_query TESTING db kmer last_bin_key min_pos max_pos false m
  = (r <- kmer_query_1 TESTING db kmer empty_memory ;; Ret (fst r, m))
  /\ (forall res, kmer_query TESTING db kmer None min_pos max_pos true m <> Ret res)
  /\ (forall res, kmer_query TESTING db kmer last_bin_key None max_pos true m <> Ret res)
  /\ (forall res, kmer_query TESTING db kmer last_bin_key min_pos None true m <> Ret res).
Proof.
  split; [|split; [|split]].
  - unfold kmer_query_1, kmer_query. rewrite !kmer_query_rec_no_retry.
    unfold lift. destruct (fresh_lookup TESTING db kmer); reflexivity.
  - intros res. unfold kmer_query.
    set (depth := 1%nat). clearbody depth.
    cbn [kmer_query_rec]. unfold mbind, ret, lift, deref, assign.
    destruct min_pos as [a2|]; [|discriminate].
    destruct max_pos as [a3|]; [|discriminate].
    cbn [bind fst snd cells accesses].
    destruct (cells m a2 <=? cells m a3); [discriminate|].
    cbn [bind fst snd cells accesses].
    destruct (bin_key db kmer) as [b| | |]; cbn [bind fst snd]; try discriminate.
    destruct (index_ptr_at TESTING db b) as [lo| | |]; cbn [bind fst snd];
      try discriminate.
    destruct (index_ptr_at TESTING db (wrap64 (b + 1))) as [hi| | |];
      cbn [bind fst snd]; discriminate.
  - intros res. unfold kmer_query.
    set (depth := 1%nat). clearbody depth.
    cbn [kmer_query_rec]. unfold mbind, ret, lift, deref, assign.
    discriminate.
  - intros res. unfold kmer_query.
    set (depth := 1%nat). clearbody depth.
    cbn [kmer_query_rec]. unfold mbind, ret, lift, deref, assign.
    destruct min_pos as [a2|]; discriminate.
Qed.

(* ================================================================== *)
(** * The concrete scenarios of the specification *)

(** S1: the reverse complement of ATCGCCCC is GGGGCGAT. *)
Example scenario_reverse_complement :
  (x <- string_to_kmer "ATCGCCCC" ;; reverse_complement x 8)
  = string_to_kmer "GGGGCGAT".
Proof. reflexivity. Qed.

(** S2: TTTT has canonical form AAAA; ACGT is its own reverse complement. *)
Example scenario_canonical :
  (x <- string_to_kmer "TTTT" ;; canonical_representation x 4) = string_to_kmer "AAAA"
  /\ (x <- string_to_kmer "ACGT" ;; canonical_representation x 4) = string_to_kmer "ACGT".
Proof. split; reflexivity. Qed.

(** S3: the packed encoding. *)
Example scenario_encoding :
  string_to_kmer "ACGT" = Ret 27 /\ string_to_kmer "TGCA" = Ret 228.
Proof. split; reflexivity. Qed.

(** S5: on the three-pair database, ACGT is found with value 20 and GGGG is
    absent. *)
Example scenario_query :
  (x <- string_to_kmer "ACGT" ;;
   r <- kmer_query_1 false example_bound_db x empty_memory ;;
   match fst r with
   | Some p => v <- load_value example_bound_db p ;; Ret (Some v)
   | None => Ret None
   end) = Ret (Some 20)
  /\ (x <- string_to_kmer "GGGG" ;;
      r <- kmer_query_1 false example_bound_db x empty_memory ;;
      Ret (fst r)) = Ret None.
Proof. split; vm_compute; reflexivity. Qed.

(** S6: the header of a database with 32-bit keys takes 592 bytes. *)
Example scenario_header_size :
  header_size {| fptr := None; index_ptr := None; k := 16; key_bits := 32;
                 key_len := 4; val_len := 4; key_ct := 0 |} = 592.
Proof. reflexivity. Qed.

(* ================================================================== *)
(** * Reverse complement and canonical form beyond their usual domain *)

Lemma reverse_complement_undef x n :
  0 <= n < 256 -> ~ (1 <= n <= 32) -> reverse_complement x n = Undef.
Proof.
  intros Hn Hout. unfold reverse_complement, shr_u64. cbv zeta.
  rewrite Z.shiftl_mul_pow2 by lia.
  replace (8 * 8 - n * 2 ^ 1) with (64 - 2 * n) by lia.
  assert (Hs : 64 <= wrap64 (64 - 2 * n)).
  { destruct (Z.eq_dec n 0) as [->|Hn0]; [vm_compute; discriminate|].
    unfold wrap64.
    replace (64 - 2 * n) with (2 ^ 64 + 64 - 2 * n + (-1) * 2 ^ 64) by lia.
    rewrite Z.mod_add by lia. rewrite Z.mod_small; lia. }
  replace (wrap64 (64 - 2 * n) <? 64) with false by (symmetry; apply Z.ltb_ge; lia).
  rewrite andb_false_r. reflexivity.
Qed.

Lemma mod_pow2_range x n : 0 <= n -> 0 <= x mod 2 ^ n < 2 ^ n.
Proof. intros Hn. apply Z.mod_pos_bound. apply Z.pow_pos_nonneg; lia. Qed.

Lemma rc_value_low x n :
  1 <= n <= 32 -> 0 <= x < 2 ^ 64 ->
  rc_value (x mod 2 ^ (2 * n)) n = rc_value x n.
Proof.
  intros Hn Hx.
  pose proof (mod_pow2_range x (2 * n) ltac:(lia)) as Hm.
  pose proof (kmer_below_word _ n Hn Hm) as Hm64.
  apply Z.bits_inj'. intros i Hi.
  rewrite !rc_value_bits by lia.
  destruct (Z.ltb_spec i (2 * n)) as [Hlt|Hge]; [|reflexivity].
  destruct (rc_src_involutive n i ltac:(lia)) as [Hs _].
  cbn [andb]. f_equal.
  rewrite Z.testbit_mod_pow2 by lia.
  replace (rc_src n i <? 2 * n) with true by (symmetry; apply Z.ltb_lt; lia).
  reflexivity.
Qed.

Lemma rc_value_twice x n :
  1 <= n <= 32 -> 0 <= x < 2 ^ 64 ->
  rc_value (rc_value x n) n = x mod 2 ^ (2 * n).
Proof.
  intros Hn Hx. rewrite <- (rc_value_low x n Hn Hx).
  apply rc_value_involutive; [assumption|]. apply mod_pow2_range. lia.
Qed.

(** X1.  [reverse_complement(kmer, n)] has a defined result exactly for [n] in
    [1,32] ([n = 0] shifts a 64-bit value by 64 bits).  For such [n] it uses
    only the first [n] nucleotides of [kmer]: the result is below [4^n], it is
    the result for [kmer mod 4^n], and its own reverse complement is
    [kmer mod 4^n]. *)
Theorem reverse_complement_first_n_nt (x n : Z) :
  0 <= x < 2 ^ 64 -> 0 <= n < 256 ->
  ((exists y, reverse_complement x n = Ret y) <-> 1 <= n <= 32)
  /\ (1 <= n <= 32 ->
      exists y, reverse_complement x n = Ret y /\ 0 <= y < 4 ^ n /\
                reverse_complement (x mod 4 ^ n) n = Ret y /\
                reverse_complement y n = Ret (x mod 4 ^ n)).
Proof.
  intros Hx Hn. split.
  - split.
    + intros [y Hy].
      destruct (Z_le_dec 1 n) as [H1|H1], (Z_le_dec n 32) as [H2|H2]; try lia;
        rewrite reverse_complement_undef in Hy by lia; discriminate Hy.
    + intros Hin. exists (rc_value x n). apply reverse_complement_value. assumption.
  - intros Hin. exists (rc_value x n).
    rewrite pow4_pow2 by lia.
    rewrite !reverse_complement_value by assumption.
    rewrite rc_value_low, rc_value_twice by assumption.
    pose proof (rc_value_range x n Hin Hx). auto.
Qed.

Lemma reverse_complement_first_n_nt_witness :
  ((exists y, reverse_complement 0xFFFF1B 4 = Ret y) <-> 1 <= 4 <= 32)
  /\ (1 <= 4 <= 32 ->
      exists y, reverse_complement 0xFFFF1B 4 = Ret y /\ 0 <= y < 4 ^ 4 /\
                reverse_complement (0xFFFF1B mod 4 ^ 4) 4 = Ret y /\
                reverse_complement y 4 = Ret (0xFFFF1B mod 4 ^ 4)).
Proof.
  apply (reverse_complement_first_n_nt 0xFFFF1B 4); [split; [lia|reflexivity]|lia].
Defined.

Lemma canonical_value_idempotent x n :
  1 <= n <= 32 -> 0 <= x < 2 ^ (2 * n) ->
  canonical_value (canonical_value x n) n = canonical_value x n.
Proof.
  intros Hn Hx. unfold canonical_value.
  pose proof (kmer_below_word x n Hn Hx) as Hx64.
  pose proof (rc_value_range x n Hn Hx64) as Hr.
  destruct (Z.min_spec x (rc_value x n)) as [[Hlt ->]|[Hge ->]].
  - lia.
  - rewrite rc_value_involutive by assumption. lia.
Qed.

Lemma canonical_value_below x n :
  1 <= n <= 32 -> 0 <= x < 2 ^ 64 -> 0 <= canonical_value x n < 2 ^ (2 * n).
Proof.
  intros Hn Hx. unfold canonical_value.
  pose proof (rc_value_range x n Hn Hx). lia.
Qed.

(** X3.  The canonical form of any 64-bit value is below [4^n]; on an [n]-mer it
    is at most the [n]-mer and at most its reverse complement, and taking the
    canonical form twice changes nothing. *)
Theorem canonical_representation_idempotent (x n : Z) :
  1 <= n <= 32 -> 0 <= x < 2 ^ 64 ->
  exists c,
    canonical_representation x n = Ret c /\ 0 <= c < 4 ^ n /\ c <= x /\
    (x < 4 ^ n ->
     canonical_representation c n = Ret c /\
     exists r, reverse_complement x n = Ret r /\ c <= r /\ (c = x \/ c = r)).
Proof.
  intros Hn Hx. exists (canonical_value x n).
  rewrite canonical_representation_value by assumption.
  rewrite pow4_pow2 by lia.
  pose proof (canonical_value_below x n Hn Hx) as Hc.
  split; [reflexivity|]. split; [assumption|].
  split; [unfold canonical_value; lia|].
  intros Hlt. split.
  - rewrite canonical_representation_value by assumption.
    f_equal. apply canonical_value_idempotent; [assumption|lia].
  - exists (rc_value x n). rewrite reverse_complement_value by assumption.
    unfold canonical_value. split; [reflexivity|]. lia.
Qed.

Lemma canonical_representation_idempotent_witness :
  exists c,
    canonical_representation 0x6C 4 = Ret c /\ 0 <= c < 4 ^ 4 /\ c <= 0x6C /\
    (0x6C < 4 ^ 4 ->
     canonical_representation c 4 = Ret c /\
     exists r, reverse_complement 0x6C 4 = Ret r /\ c <= r /\ (c = 0x6C \/ c = r)).
Proof.
  apply (canonical_representation_idempotent 0x6C 4); [lia|].
  split; [lia|reflexivity].
Defined.

(* ================================================================== *)
(** * The overloads that take the length from the database *)

Lemma KrakenDB_open_fields ptr db :
  KrakenDB_open ptr = Ret db ->
  fptr db = Some ptr /\ index_ptr db = None /\
  0 <= key_bits db < 2 ^ 64 /\
  k db = wrap8 (key_bits db / 2) /\
  key_len db = (key_bits db + 7) / 8 /\
  val_len db = 4 /\
  56 <= Z.of_nat (List.length ptr) /\
  0 <= key_ct db < 2 ^ 64.
Proof.
  intros Ho.
  assert (Hlen : 56 <= Z.of_nat (List.length ptr)).
  { unfold KrakenDB_open in Ho.
    destruct (strncmp _ _ _) as [c| | |]; cbn [bind] in Ho; try discriminate Ho.
    destruct (negb (c =? 0)); [discriminate Ho|].
    destruct (load_le ptr 8 8) as [kb| | |]; cbn [bind] in Ho; try discriminate Ho.
    destruct (load_le ptr 16 8) as [vl| | |]; cbn [bind] in Ho; try discriminate Ho.
    destruct (load_le ptr 48 8) as [kc| | |] eqn:Hkc; cbn [bind] in Ho;
      try discriminate Ho.
    unfold load_le, read_bytes in Hkc. cbn [Z.ltb Z.compare Pos.compare Pos.compare_cont] in Hkc.
    destruct (48 + 8 <=? Z.of_nat (List.length ptr)) eqn:Hb.
    - apply Z.leb_le in Hb. lia.
    - rewrite andb_false_r in Hkc. discriminate Hkc. }
  rewrite (KrakenDB_open_cases ptr Hlen) in Ho.
  destruct (list_eq_dec _ _ _); [|discriminate Ho].
  destruct (word_at ptr 16 8 =? 4) eqn:Hv; [|discriminate Ho].
  injection Ho as <-. cbn [fptr index_ptr key_bits k key_len val_len key_ct].
  pose proof (word_at_range ptr 8 8 ltac:(lia) ltac:(lia) ltac:(lia)).
  pose proof (word_at_range ptr 48 8 ltac:(lia) ltac:(lia) ltac:(lia)).
  apply Z.eqb_eq in Hv.
  repeat split; try lia; try assumption; reflexivity.
Qed.

(** X5.  On a database opened from a file with [key_bits] in [2,64], the overloads
    [reverse_complement(kmer)] and [canonical_representation(kmer)] act on
    [k = key_bits/2] nucleotides: the first is an involution on the k-mers and
    the second the smaller of a k-mer and its reverse complement.  On a
    default-constructed database ([k = 0]) neither has a defined result. *)
Theorem reverse_complement_k_opened (ptr : region) (db : KrakenDB) (x : Z) :
  KrakenDB_open ptr = Ret db ->
  2 <= key_bits db <= 64 ->
  0 <= x < 4 ^ (key_bits db / 2) ->
  (exists y,
      reverse_complement_k db x = Ret y /\ 0 <= y < 4 ^ (key_bits db / 2) /\
      reverse_complement_k db y = Ret x /\
      canonical_representation_k db x = Ret (Z.min x y) /\
      canonical_representation_k db y = Ret (Z.min x y))
  /\ (forall z, reverse_complement_k KrakenDB_default z = Undef /\
                canonical_representation_k KrakenDB_default z = Undef).
Proof.
  intros Ho Hkb Hx. split.
  - destruct (KrakenDB_open_fields ptr db Ho) as (_ & _ & _ & Hk & _).
    assert (Hn : 1 <= key_bits db / 2 <= 32)
      by (split; [apply Z.div_le_lower_bound|apply Z.div_le_upper_bound]; lia).
    assert (Hkk : k db = key_bits db / 2)
      by (rewrite Hk; unfold wrap8; apply Z.mod_small; lia).
    change (reverse_complement_k db) with (fun z => reverse_complement z (k db)).
    unfold canonical_representation_k. fold (canonical_representation x (k db)).
    cbv beta. rewrite Hkk. set (n := key_bits db / 2) in *.
    rewrite pow4_pow2 in Hx by lia. rewrite pow4_pow2 by lia.
    pose proof (kmer_below_word x n Hn Hx) as Hx64.
    pose proof (rc_value_range x n Hn Hx64) as Hr.
    exists (rc_value x n).
    rewrite !reverse_complement_value by assumption.
    rewrite rc_value_involutive by assumption.
    cbn [bind].
    repeat split; try lia.
    + rewrite canonical_representation_value by assumption. reflexivity.
    + f_equal. destruct (Z.ltb_spec (rc_value x n) x); lia.
  - intros z. split; reflexivity.
Qed.

Lemma reverse_complement_k_opened_witness :
  (exists y,
      reverse_complement_k example_db 0x1E = Ret y /\
      0 <= y < 4 ^ (key_bits example_db / 2) /\
      reverse_complement_k example_db y = Ret 0x1E /\
      canonical_representation_k example_db 0x1E = Ret (Z.min 0x1E y) /\
      canonical_representation_k example_db y = Ret (Z.min 0x1E y))
  /\ (forall z, reverse_complement_k KrakenDB_default z = Undef /\
                canonical_representation_k KrakenDB_default z = Undef).
Proof.
  apply (reverse_complement_k_opened example_file example_db 0x1E).
  - exact example_db_opened.
  - cbn. lia.
  - cbn. lia.
Defined.

(* ================================================================== *)
(** * Encoding and decoding DNA strings *)

Lemma string_to_kmer_from_cons c rest acc :
  string_to_kmer_from (String c rest) acc =
  match base_of c with
  | Some b => string_to_kmer_from rest (Z.lor (wrap64 (Z.shiftl acc 2)) b)
  | None => Errx 1 "Invalid character in DNA string"
  end.
Proof.
  cbn [string_to_kmer_from]. unfold base_of.
  destruct (Ascii.eqb c "A" || Ascii.eqb c "a")%bool; [reflexivity|].
  destruct (Ascii.eqb c "C" || Ascii.eqb c "c")%bool; [reflexivity|].
  destruct (Ascii.eqb c "G" || Ascii.eqb c "g")%bool; [reflexivity|].
  destruct (Ascii.eqb c "T" || Ascii.eqb c "t")%bool; reflexivity.
Qed.

Lemma base_of_range c b : base_of c = Some b -> 0 <= b < 4.
Proof.
  unfold base_of.
  repeat (destruct (_ || _)%bool; [intros [= <-]; lia|]).
  discriminate.
Qed.

Lemma lor_low a b n :
  0 <= a -> 0 <= n -> 0 <= b < 2 ^ n -> Z.lor (Z.shiftl a n) b = a * 2 ^ n + b.
Proof.
  intros Ha Hn Hb.
  assert (Hl : Z.land (Z.shiftl a n) b = 0).
  { apply Z.bits_inj'. intros i Hi. rewrite Z.land_spec, Z.bits_0.
    destruct (Z.ltb_spec i n) as [Hlt|Hge].
    - rewrite Z.shiftl_spec_low by lia. reflexivity.
    - rewrite (bits_above b n i) by lia. apply andb_false_r. }
  rewrite <- Z.lxor_lor by assumption.
  rewrite <- Z.add_nocarry_lxor by assumption.
  rewrite Z.shiftl_mul_pow2 by lia. reflexivity.
Qed.

Lemma kmer_step acc b :
  0 <= acc < 2 ^ 62 -> 0 <= b < 4 ->
  Z.lor (wrap64 (Z.shiftl acc 2)) b = 4 * acc + b.
Proof.
  intros Ha Hb.
  rewrite wrap64_small by (rewrite Z.shiftl_mul_pow2 by lia; lia).
  rewrite lor_low by (try lia; change (2 ^ 2) with 4; lia).
  change (2 ^ 2) with 4. lia.
Qed.

Lemma kmer_to_string_loop_split n :
  forall m x res,
    kmer_to_string_loop (n + m) x res
    = kmer_to_string_loop m (Z.shiftr x (2 * Z.of_nat n)) (kmer_to_string_loop n x res).
Proof.
  induction n as [|n IH]; intros m x res.
  - cbn [Nat.add kmer_to_string_loop]. rewrite Z.shiftr_0_r. reflexivity.
  - cbn [Nat.add kmer_to_string_loop]. rewrite IH.
    rewrite Z.shiftr_shiftr by lia.
    replace (2 + 2 * Z.of_nat n) with (2 * Z.of_nat (S n)) by lia.
    reflexivity.
Qed.

Lemma land3_range x : 0 <= x -> 0 <= Z.land x 3 < 4.
Proof.
  intros Hx. change 3 with (Z.ones 2). rewrite Z.land_ones by lia.
  apply Z.mod_pos_bound. reflexivity.
Qed.

Lemma kmer_to_string_loop_one x res :
  0 <= x ->
  kmer_to_string_loop 1 x res = String (base_char (Z.land x 3)) res.
Proof.
  intros Hx. cbn [kmer_to_string_loop].
  pose proof (land3_range x Hx) as Hr.
  unfold wrap8. rewrite Z.mod_small by lia.
  unfold base_char.
  destruct (Z.eqb_spec (Z.land x 3) 0); [reflexivity|].
  destruct (Z.eqb_spec (Z.land x 3) 1); [reflexivity|].
  destruct (Z.eqb_spec (Z.land x 3) 2); [reflexivity|].
  destruct (Z.eqb_spec (Z.land x 3) 3); [reflexivity|lia].
Qed.

(** [kmer_to_string] writes the nucleotides from the last to the first. *)
Lemma kmer_to_string_loop_chars n :
  forall x res,
    0 <= x ->
    kmer_to_string_loop n x res = chars n (fun j => base_char (nucleotide x j)) res.
Proof.
  induction n as [|n IH]; intros x res Hx; [reflexivity|].
  replace (S n) with (n + 1)%nat at 1 by lia.
  rewrite kmer_to_string_loop_split.
  rewrite kmer_to_string_loop_one by (apply Z.shiftr_nonneg; assumption).
  rewrite IH by assumption. reflexivity.
Qed.

Lemma chars_app n f res : chars n f res = (chars n f EmptyString ++ res)%string.
Proof.
  induction n as [|n IH]; [reflexivity|].
  cbn [chars append]. rewrite IH. reflexivity.
Qed.

Lemma chars_length n f : String.length (chars n f EmptyString) = n.
Proof. induction n as [|n IH]; [reflexivity|]. cbn. rewrite IH. reflexivity. Qed.

Lemma chars_ext n f g res :
  (forall j, (j < n)%nat -> f j = g j) -> chars n f res = chars n g res.
Proof.
  induction n as [|n IH]; intros Hfg; [reflexivity|].
  cbn [chars]. rewrite Hfg by lia. rewrite IH by (intros; apply Hfg; lia).
  reflexivity.
Qed.

Lemma base_of_char b : 0 <= b < 4 -> base_of (base_char b) = Some b.
Proof.
  intros Hb.
  assert (b = 0 \/ b = 1 \/ b = 2 \/ b = 3) as [->|[->|[->| ->]]] by lia;
    reflexivity.
Qed.

Lemma upcase_base c b : base_of c = Some b -> upcase c = base_char b.
Proof. intros H. unfold upcase. rewrite H. reflexivity. Qed.

Lemma pow4_S n : 4 ^ Z.of_nat (S n) = 4 * 4 ^ Z.of_nat n.
Proof. rewrite Nat2Z.inj_succ, Z.pow_succ_r by lia. reflexivity. Qed.

Lemma pow4_pos n : 0 < 4 ^ Z.of_nat n.
Proof. apply Z.pow_pos_nonneg; lia. Qed.

Lemma shiftr_pow4 x n : Z.shiftr x (2 * Z.of_nat n) = x / 4 ^ Z.of_nat n.
Proof.
  rewrite Z.shiftr_div_pow2 by lia.
  rewrite (pow4_pow2 (Z.of_nat n)) by lia. reflexivity.
Qed.

(** Encoding a string from an accumulator [acc]: the result continues [acc]
    by the nucleotides of the string, and decoding gives the string back. *)
Lemma string_to_kmer_from_spec s :
  forall acc,
    valid_dna s = true -> 0 <= acc ->
    (acc + 1) * 4 ^ Z.of_nat (String.length s) <= 2 ^ 64 ->
    exists x,
      string_to_kmer_from s acc = Ret x /\
      acc * 4 ^ Z.of_nat (String.length s) <= x
      < (acc + 1) * 4 ^ Z.of_nat (String.length s) /\
      forall res,
        kmer_to_string_loop (String.length s) x res
        = (string_map upcase s ++ res)%string.
Proof.
  induction s as [|c rest IH]; intros acc Hv Hacc Hb.
  - exists acc. cbn. split; [reflexivity|]. split; [lia|reflexivity].
  - cbn [valid_dna] in Hv. destruct (base_of c) as [b|] eqn:Hc; [|discriminate Hv].
    pose proof (base_of_range c b Hc) as Hbr.
    cbn [String.length] in *. rewrite pow4_S in *.
    pose proof (pow4_pos (String.length rest)) as Hp.
    rewrite string_to_kmer_from_cons, Hc.
    assert (Hacc62 : acc < 2 ^ 62) by nia.
    rewrite kmer_step by lia.
    destruct (IH (4 * acc + b) Hv ltac:(lia) ltac:(nia)) as (x & Hx & Hr & Hs).
    exists x. split; [assumption|]. split; [nia|].
    intros res.
    replace (S (String.length rest)) with (String.length rest + 1)%nat by lia.
    rewrite kmer_to_string_loop_split, Hs.
    assert (Hq : Z.shiftr x (2 * Z.of_nat (String.length rest)) = 4 * acc + b).
    { rewrite shiftr_pow4. symmetry. apply Z.div_unique with
        (r := x - (4 * acc + b) * 4 ^ Z.of_nat (String.length rest)); lia. }
    rewrite Hq, kmer_to_string_loop_one by lia.
    cbn [string_map append]. f_equal.
    rewrite (upcase_base c b Hc). f_equal.
    change 3 with (Z.ones 2). rewrite Z.land_ones by lia.
    change (2 ^ 2) with 4.
    symmetry. apply Z.mod_unique with (q := acc); lia.
Qed.

Lemma mod_pow4_S x n :
  x mod 4 ^ Z.of_nat (S n) = 4 * ((x / 4) mod 4 ^ Z.of_nat n) + x mod 4.
Proof.
  rewrite pow4_S. pose proof (pow4_pos n).
  rewrite Z.rem_mul_r by lia. lia.
Qed.

(** Decoding then encoding: the characters written for [x] encode
    [x mod 4^n] after the accumulator. *)
Lemma string_to_kmer_from_chars n :
  forall x res acc,
    0 <= x -> 0 <= acc -> (acc + 1) * 4 ^ Z.of_nat n <= 2 ^ 64 ->
    string_to_kmer_from (kmer_to_string_loop n x res) acc
    = string_to_kmer_from res (acc * 4 ^ Z.of_nat n + x mod 4 ^ Z.of_nat n).
Proof.
  induction n as [|n IH]; intros x res acc Hx Hacc Hb.
  - cbn [kmer_to_string_loop]. change (4 ^ Z.of_nat 0) with 1.
    rewrite Z.mod_1_r. f_equal. lia.
  - cbn [kmer_to_string_loop].
    fold (kmer_to_string_loop 1 x res).
    rewrite kmer_to_string_loop_one by assumption.
    pose proof (pow4_pos n) as Hp. rewrite pow4_S in Hb.
    rewrite IH by (try apply Z.shiftr_nonneg; try nia; assumption).
    pose proof (land3_range x Hx) as Hl.
    rewrite string_to_kmer_from_cons, base_of_char by assumption.
    assert (Hm : 0 <= Z.shiftr x 2 mod 4 ^ Z.of_nat n < 4 ^ Z.of_nat n)
      by (apply Z.mod_pos_bound; assumption).
    rewrite kmer_step by (try assumption; nia).
    f_equal. rewrite mod_pow4_S, pow4_S.
    rewrite Z.shiftr_div_pow2 by lia. change (2 ^ 2) with 4.
    change 3 with (Z.ones 2). rewrite Z.land_ones by lia. change (2 ^ 2) with 4.
    lia.
Qed.

Lemma valid_dna_chars n f :
  (forall j, (j < n)%nat -> exists b, 0 <= b < 4 /\ f j = base_char b) ->
  valid_dna (chars n f EmptyString) = true.
Proof.
  induction n as [|n IH]; intros Hf; [reflexivity|].
  cbn [chars valid_dna].
  destruct (Hf n ltac:(lia)) as (b & Hb & ->).
  rewrite base_of_char by assumption. apply IH. intros j Hj. apply Hf. lia.
Qed.

Lemma nucleotide_range x j : 0 <= x -> 0 <= nucleotide x j < 4.
Proof. intros Hx. apply land3_range. apply Z.shiftr_nonneg. assumption. Qed.

Lemma string_map_upcase_valid s :
  valid_dna s = true -> valid_dna (string_map upcase s) = true.
Proof.
  induction s as [|c rest IH]; intros Hv; [reflexivity|].
  cbn [valid_dna string_map] in *.
  destruct (base_of c) as [b|] eqn:Hc; [|discriminate Hv].
  rewrite (upcase_base c b Hc).
  rewrite base_of_char by (apply (base_of_range c); assumption).
  apply IH. assumption.
Qed.

Lemma string_map_length f s : String.length (string_map f s) = String.length s.
Proof. induction s as [|c rest IH]; [reflexivity|]. cbn. rewrite IH. reflexivity. Qed.

Lemma append_empty_r s : (s ++ EmptyString)%string = s.
Proof. induction s as [|c rest IH]; [reflexivity|]. cbn. rewrite IH. reflexivity. Qed.

(** X18.  For every string of at most 32 nucleotides (upper or lower case),
    [string_to_kmer] returns a value below [4^length] from which
    [kmer_to_string] gives the string back in upper case. *)
Theorem kmer_to_string_of_string_to_kmer (s : string) :
  valid_dna s = true -> (String.length s <= 32)%nat ->
  exists x,
    string_to_kmer s = Ret x /\ 0 <= x < 4 ^ Z.of_nat (String.length s) /\
    kmer_to_string x (Z.of_nat (String.length s)) = string_map upcase s.
Proof.
  intros Hv Hlen.
  assert (Hb : (0 + 1) * 4 ^ Z.of_nat (String.length s) <= 2 ^ 64).
  { rewrite pow4_pow2 by lia. rewrite Z.mul_1_l. apply Z.pow_le_mono_r; lia. }
  destruct (string_to_kmer_from_spec s 0 Hv ltac:(lia) Hb) as (x & Hx & Hr & Hs).
  exists x. split; [assumption|]. split; [lia|].
  unfold kmer_to_string. rewrite Nat2Z.id, Hs. apply append_empty_r.
Qed.

Lemma kmer_to_string_of_string_to_kmer_witness :
  exists x,
    string_to_kmer "acGT" = Ret x /\ 0 <= x < 4 ^ Z.of_nat (String.length "acGT") /\
    kmer_to_string x (Z.of_nat (String.length "acGT")) = string_map upcase "acGT".
Proof.
  apply (kmer_to_string_of_string_to_kmer "acGT"); [reflexivity|cbn; lia].
Defined.

(** X19.  For every length [n <= 32] and every 64-bit [x], [kmer_to_string(x, n)]
    is a string of [n] nucleotides that [string_to_kmer] encodes as the last
    [n] nucleotides of [x], [x mod 4^n]. *)
Theorem string_to_kmer_of_kmer_to_string (x n : Z) :
  0 <= x < 2 ^ 64 -> 0 <= n <= 32 ->
  String.length (kmer_to_string x n) = Z.to_nat n /\
  valid_dna (kmer_to_string x n) = true /\
  string_to_kmer (kmer_to_string x n) = Ret (x mod 4 ^ n).
Proof.
  intros Hx Hn. unfold kmer_to_string, string_to_kmer.
  split; [|split].
  - rewrite kmer_to_string_loop_chars by lia. apply chars_length.
  - rewrite kmer_to_string_loop_chars by lia. apply valid_dna_chars.
    intros j _. exists (nucleotide x j). split; [|reflexivity].
    apply nucleotide_range. lia.
  - rewrite string_to_kmer_from_chars.
    + cbn [string_to_kmer_from]. rewrite Z2Nat.id by lia. reflexivity.
    + lia.
    + lia.
    + rewrite Z2Nat.id by lia. rewrite pow4_pow2 by lia.
      rewrite Z.mul_1_l. apply Z.pow_le_mono_r; lia.
Qed.

Lemma string_to_kmer_of_kmer_to_string_witness :
  String.length (kmer_to_string 0xE4 3) = Z.to_nat 3 /\
  valid_dna (kmer_to_string 0xE4 3) = true /\
  string_to_kmer (kmer_to_string 0xE4 3) = Ret (0xE4 mod 4 ^ 3).
Proof.
  apply (string_to_kmer_of_kmer_to_string 0xE4 3); [split; [lia|reflexivity]|lia].
Defined.

(* ================================================================== *)
(** * The reverse complement, nucleotide by nucleotide *)

Lemma nucleotide_bits y j :
  0 <= y ->
  nucleotide y j
  = Z.b2z (Z.testbit y (2 * Z.of_nat j))
    + 2 * Z.b2z (Z.testbit y (2 * Z.of_nat j + 1)).
Proof.
  intros Hy. unfold nucleotide.
  change 3 with (Z.ones 2). rewrite Z.land_ones by lia. change (2 ^ 2) with 4.
  rewrite !Z.testbit_spec' by lia.
  rewrite Z.shiftr_div_pow2 by lia.
  rewrite Z.pow_add_r by lia. change (2 ^ 1) with 2.
  rewrite <- Z.div_div by (try apply Z.pow_pos_nonneg; lia).
  set (z := y / 2 ^ (2 * Z.of_nat j)).
  Z.to_euclidean_division_equations; lia.
Qed.

Lemma rc_src_even n j : rc_src n (2 * j) = 2 * (n - 1 - j).
Proof.
  unfold rc_src. Z.to_euclidean_division_equations; lia.
Qed.

Lemma rc_src_odd n j : rc_src n (2 * j + 1) = 2 * (n - 1 - j) + 1.
Proof.
  unfold rc_src. Z.to_euclidean_division_equations; lia.
Qed.

(** Nucleotide [j] of the reverse complement of an [n]-mer is the complement
    of nucleotide [n - 1 - j]. *)
Lemma rc_nucleotide x (n j : nat) :
  (1 <= n <= 32)%nat -> 0 <= x < 2 ^ 64 -> (j < n)%nat ->
  nucleotide (rc_value x (Z.of_nat n)) j = 3 - nucleotide x (n - 1 - j).
Proof.
  intros Hn Hx Hj.
  pose proof (rc_value_range x (Z.of_nat n) ltac:(lia) Hx) as Hr.
  rewrite !nucleotide_bits by lia.
  rewrite !rc_value_bits by lia.
  rewrite rc_src_even, rc_src_odd.
  replace (2 * Z.of_nat j <? 2 * Z.of_nat n) with true
    by (symmetry; apply Z.ltb_lt; lia).
  replace (2 * Z.of_nat j + 1 <? 2 * Z.of_nat n) with true
    by (symmetry; apply Z.ltb_lt; lia).
  replace (Z.of_nat n - 1 - Z.of_nat j) with (Z.of_nat (n - 1 - j)) by lia.
  cbn [andb].
  destruct (Z.testbit x (2 * Z.of_nat (n - 1 - j)));
    destruct (Z.testbit x (2 * Z.of_nat (n - 1 - j) + 1)); reflexivity.
Qed.

Lemma complement_base_char b :
  0 <= b < 4 -> complement (base_char b) = base_char (3 - b).
Proof.
  intros Hb.
  assert (b = 0 \/ b = 1 \/ b = 2 \/ b = 3) as [->|[->|[->| ->]]] by lia;
    reflexivity.
Qed.

Lemma complement_upcase c b : base_of c = Some b -> complement (upcase c) = complement c.
Proof.
  intros Hc. rewrite (upcase_base c b Hc).
  pose proof (base_of_range c b Hc) as Hb.
  rewrite complement_base_char by assumption.
  revert Hc. unfold base_of, complement.
  destruct (Ascii.eqb c "A" || Ascii.eqb c "a")%bool; [intros [= <-]; reflexivity|].
  destruct (Ascii.eqb c "C" || Ascii.eqb c "c")%bool; [intros [= <-]; reflexivity|].
  destruct (Ascii.eqb c "G" || Ascii.eqb c "g")%bool; [intros [= <-]; reflexivity|].
  destruct (Ascii.eqb c "T" || Ascii.eqb c "t")%bool; [intros [= <-]; reflexivity|].
  discriminate.
Qed.

Lemma list_of_chars n f :
  list_ascii_of_string (chars n f EmptyString) = map f (rev (seq 0 n)).
Proof.
  induction n as [|n IH]; [reflexivity|].
  rewrite seq_S, rev_app_distr. cbn [chars list_ascii_of_string].
  cbn [rev app map Nat.add]. rewrite IH. reflexivity.
Qed.

Lemma rev_seq n : rev (seq 0 n) = map (fun j => (n - 1 - j)%nat) (seq 0 n).
Proof.
  induction n as [|n IH]; [reflexivity|].
  rewrite seq_S at 1. rewrite rev_app_distr. cbn [rev app Nat.add].
  cbn [seq map]. f_equal; [lia|].
  rewrite IH, <- seq_shift, map_map. apply map_ext. intros j. lia.
Qed.

Lemma list_of_string_map f s :
  list_ascii_of_string (string_map f s) = map f (list_ascii_of_string s).
Proof.
  induction s as [|c rest IH]; [reflexivity|]. cbn. rewrite IH. reflexivity.
Qed.

Lemma map_complement_upcase s :
  valid_dna s = true ->
  map complement (list_ascii_of_string (string_map upcase s))
  = map complement (list_ascii_of_string s).
Proof.
  induction s as [|c rest IH]; intros Hv; [reflexivity|].
  cbn [valid_dna] in Hv. destruct (base_of c) as [b|] eqn:Hc; [|discriminate Hv].
  cbn [string_map list_ascii_of_string map].
  rewrite (complement_upcase c b Hc), IH by assumption. reflexivity.
Qed.

(** Decoding the reverse complement of the code of [s] gives the reverse
    complement of [s]. *)
Lemma rc_value_of_string s x :
  valid_dna s = true -> (1 <= String.length s <= 32)%nat ->
  string_to_kmer s = Ret x ->
  0 <= x < 4 ^ Z.of_nat (String.length s) /\
  kmer_to_string (rc_value x (Z.of_nat (String.length s)))
                 (Z.of_nat (String.length s))
  = reverse_complement_string s.
Proof.
  intros Hv Hlen Hsx. set (n := String.length s) in *.
  assert (Hb : (0 + 1) * 4 ^ Z.of_nat n <= 2 ^ 64).
  { rewrite pow4_pow2 by lia. rewrite Z.mul_1_l. apply Z.pow_le_mono_r; lia. }
  destruct (string_to_kmer_from_spec s 0 Hv ltac:(lia) Hb) as (x' & Hx & Hr & Hs).
  unfold string_to_kmer in Hsx. rewrite Hx in Hsx. injection Hsx as ->.
  fold n in Hr, Hs.
  assert (Hx64 : 0 <= x < 2 ^ 64) by lia.
  split; [lia|].
  pose proof (rc_value_range x (Z.of_nat n) ltac:(lia) Hx64) as Hrc.
  specialize (Hs EmptyString). rewrite append_empty_r in Hs.
  rewrite kmer_to_string_loop_chars in Hs by lia.
  unfold kmer_to_string. rewrite Nat2Z.id.
  rewrite kmer_to_string_loop_chars by lia.
  rewrite (chars_ext n _
             (fun j => complement (base_char (nucleotide x (n - 1 - j))))).
  2:{ intros j Hj. rewrite rc_nucleotide by lia.
      rewrite complement_base_char by (apply nucleotide_range; lia).
      reflexivity. }
  unfold reverse_complement_string.
  rewrite map_rev, <- (map_complement_upcase s Hv), <- Hs.
  rewrite <- (string_of_list_ascii_of_string (chars n _ EmptyString)) at 1.
  f_equal. rewrite !list_of_chars.
  rewrite map_map, <- map_rev, rev_involutive, rev_seq, map_map.
  apply map_ext_in. intros j Hj. apply in_seq in Hj.
  do 3 f_equal. lia.
Qed.

(** X2.  [reverse_complement] computes the reverse complement of the DNA string
    its argument encodes: for every string [s] of 1 to 32 nucleotides,
    decoding [reverse_complement(string_to_kmer(s), length)] gives the
    complementary nucleotides of [s] in reverse order. *)
Theorem reverse_complement_of_string (s : string) :
  valid_dna s = true -> (1 <= String.length s <= 32)%nat ->
  exists x y,
    string_to_kmer s = Ret x /\
    reverse_complement x (Z.of_nat (String.length s)) = Ret y /\
    kmer_to_string y (Z.of_nat (String.length s)) = reverse_complement_string s.
Proof.
  intros Hv Hlen.
  assert (Hb : (0 + 1) * 4 ^ Z.of_nat (String.length s) <= 2 ^ 64).
  { rewrite pow4_pow2 by lia. rewrite Z.mul_1_l. apply Z.pow_le_mono_r; lia. }
  destruct (string_to_kmer_from_spec s 0 Hv ltac:(lia) Hb) as (x & Hx & _).
  exists x, (rc_value x (Z.of_nat (String.length s))).
  split; [exact Hx|].
  split; [apply reverse_complement_value; lia|].
  apply (rc_value_of_string s x Hv Hlen Hx).
Qed.

Lemma reverse_complement_of_string_witness :
  exists x y,
    string_to_kmer "ATCGCCCC" = Ret x /\
    reverse_complement x (Z.of_nat (String.length "ATCGCCCC")) = Ret y /\
    kmer_to_string y (Z.of_nat (String.length "ATCGCCCC"))
    = reverse_complement_string "ATCGCCCC".
Proof.
  apply (reverse_complement_of_string "ATCGCCCC"); [reflexivity|cbn; lia].
Defined.

(* ================================================================== *)
(** * Bin keys: strands, excess bits, supported minimizer lengths *)

Lemma kmer_substring_bits x nt j i :
  0 <= nt -> 0 <= i ->
  Z.testbit (kmer_substring x nt j) i
  = (i <? 2 * nt) && Z.testbit x (i + 2 * Z.of_nat j).
Proof.
  intros Hnt Hi. unfold kmer_substring.
  rewrite pow4_pow2 by lia.
  change (2 ^ (2 * nt) - 1) with (Z.pred (2 ^ (2 * nt))).
  rewrite <- Z.ones_equiv, Z.land_ones by lia.
  rewrite Z.testbit_mod_pow2 by lia.
  rewrite Z.shiftr_spec by lia. reflexivity.
Qed.

Lemma kmer_substring_range x nt j :
  0 <= nt -> 0 <= kmer_substring x nt j < 2 ^ (2 * nt).
Proof.
  intros Hnt. unfold kmer_substring. rewrite pow4_pow2 by lia.
  apply land_mask_range. lia.
Qed.

(** The substrings the loop of [bin_key] reads lie in the low [2 k] bits. *)
Lemma kmer_substring_low x m nt j :
  0 <= nt -> 2 * Z.of_nat j + 2 * nt <= m ->
  kmer_substring (x mod 2 ^ m) nt j = kmer_substring x nt j.
Proof.
  intros Hnt Hm. apply Z.bits_inj'. intros i Hi.
  rewrite !kmer_substring_bits by lia.
  destruct (Z.ltb_spec i (2 * nt)) as [Hlt|Hge]; [|reflexivity].
  cbn [andb]. rewrite Z.testbit_mod_pow2 by lia.
  replace (i + 2 * Z.of_nat j <? m) with true by (symmetry; apply Z.ltb_lt; lia).
  reflexivity.
Qed.

(** Substring [j] of the reverse complement is the reverse complement of the
    substring at the mirrored position. *)
Lemma kmer_substring_rc x k nt (j j' : nat) :
  1 <= nt -> nt <= k <= 32 -> 0 <= x < 2 ^ 64 ->
  Z.of_nat j + Z.of_nat j' = k - nt ->
  kmer_substring (rc_value x k) nt j = rc_value (kmer_substring x nt j') nt.
Proof.
  intros Hnt Hk Hx Hj.
  pose proof (kmer_substring_range x nt j' ltac:(lia)) as Hs.
  pose proof (kmer_below_word _ nt ltac:(lia) Hs) as Hs64.
  apply Z.bits_inj'. intros i Hi.
  rewrite kmer_substring_bits by lia.
  rewrite !rc_value_bits by lia.
  destruct (Z.ltb_spec i (2 * nt)) as [Hlt|Hge]; [|reflexivity].
  cbn [andb].
  replace (i + 2 * Z.of_nat j <? 2 * k) with true by (symmetry; apply Z.ltb_lt; lia).
  cbn [andb]. f_equal.
  destruct (rc_src_involutive nt i ltac:(lia)) as [Hr _].
  rewrite kmer_substring_bits by lia.
  replace (rc_src nt i <? 2 * nt) with true by (symmetry; apply Z.ltb_lt; lia).
  cbn [andb]. f_equal. unfold rc_src.
  replace (i + 2 * Z.of_nat j) with (i + Z.of_nat j * 2) by lia.
  rewrite Z.mod_add by lia. lia.
Qed.

Lemma canonical_value_rc x n :
  1 <= n <= 32 -> 0 <= x < 2 ^ (2 * n) ->
  canonical_value (rc_value x n) n = canonical_value x n.
Proof.
  intros Hn Hx. unfold canonical_value.
  rewrite rc_value_involutive by assumption. apply Z.min_comm.
Qed.

Lemma fold_min_acc l : forall acc a,
  fold_left Z.min l (Z.min acc a) = Z.min (fold_left Z.min l acc) a.
Proof.
  induction l as [|b l IH]; intros acc a; cbn [fold_left]; [reflexivity|].
  replace (Z.min (Z.min acc a) b) with (Z.min (Z.min acc b) a) by lia.
  apply IH.
Qed.

Lemma fold_min_rev l acc : fold_left Z.min (rev l) acc = fold_left Z.min l acc.
Proof.
  induction l as [|a l IH]; [reflexivity|].
  cbn [rev fold_left]. rewrite fold_left_app. cbn [fold_left].
  rewrite IH, fold_min_acc. reflexivity.
Qed.

Lemma bin_key_value_low key_bits nt xor_mask x m :
  0 <= key_bits < 2 ^ 64 -> 1 <= nt <= 15 -> nt <= key_bits / 2 ->
  2 * (key_bits / 2) <= m ->
  bin_key_value key_bits nt xor_mask (x mod 2 ^ m)
  = bin_key_value key_bits nt xor_mask x.
Proof.
  intros Hkb Hnt Hle Hm. unfold bin_key_value.
  rewrite !bin_key_loop_value_fold. f_equal.
  apply map_ext_in. intros j Hj. apply in_seq in Hj.
  rewrite loop_count in Hj by lia.
  rewrite kmer_substring_low by lia. reflexivity.
Qed.

Lemma bin_key_value_rc key_bits nt xor_mask x :
  0 <= key_bits < 2 ^ 64 -> 1 <= nt <= 15 -> nt <= key_bits / 2 <= 32 ->
  0 <= x < 2 ^ 64 ->
  bin_key_value key_bits nt xor_mask (rc_value x (key_bits / 2))
  = bin_key_value key_bits nt xor_mask x.
Proof.
  intros Hkb Hnt Hle Hx. unfold bin_key_value.
  rewrite !bin_key_loop_value_fold.
  rewrite loop_count by lia.
  set (count := Z.to_nat (key_bits / 2 - nt + 1)).
  set (xm := Z.land xor_mask (4 ^ nt - 1)).
  rewrite <- (fold_min_rev (map _ (seq 0 count))).
  rewrite <- map_rev, rev_seq, map_map. f_equal.
  apply map_ext_in. intros j Hj. apply in_seq in Hj.
  rewrite (kmer_substring_rc x (key_bits / 2) nt (count - 1 - j) j)
    by (subst count; lia).
  rewrite canonical_value_rc by (try apply kmer_substring_range; lia).
  reflexivity.
Qed.

(** X6.  A k-mer, its reverse complement and its canonical form have the same bin
    key, under both overloads of [bin_key]; bits of the argument above the
    [2 k] bits of a k-mer do not matter. *)
Theorem bin_key_strand_invariant (db : KrakenDB) (ix : KrakenDBIndex) (x idx_nt : Z) :
  index_ptr db = Some ix ->
  0 <= key_bits db < 2 ^ 64 -> key_bits db / 2 <= 32 ->
  1 <= nt ix <= 15 -> nt ix <= key_bits db / 2 ->
  1 <= idx_nt <= 15 -> idx_nt <= key_bits db / 2 ->
  0 <= x < 2 ^ 64 ->
  exists y c b b',
    reverse_complement x (key_bits db / 2) = Ret y /\
    canonical_representation x (key_bits db / 2) = Ret c /\
    bin_key db x = Ret b /\ bin_key db y = Ret b /\ bin_key db c = Ret b /\
    bin_key db (x mod 4 ^ (key_bits db / 2)) = Ret b /\
    bin_key_nt db x idx_nt = Ret b' /\ bin_key_nt db y idx_nt = Ret b' /\
    bin_key_nt db c idx_nt = Ret b' /\
    bin_key_nt db (x mod 4 ^ (key_bits db / 2)) idx_nt = Ret b'.
Proof.
  intros Hix Hkb Hk32 Hnt Hntk Hnt' Hntk' Hx.
  set (n := key_bits db / 2) in *.
  assert (Hn : 1 <= n <= 32) by lia.
  exists (rc_value x n), (canonical_value x n).
  exists (bin_key_value (key_bits db) (nt ix)
            (if idx_type ix =? 1 then 0 else INDEX2_XOR_MASK) x).
  exists (bin_key_value (key_bits db) idx_nt INDEX2_XOR_MASK x).
  rewrite reverse_complement_value, canonical_representation_value by assumption.
  rewrite !(bin_key_returns db ix) by assumption.
  rewrite !bin_key_nt_returns by assumption.
  rewrite (pow4_pow2 n) by lia. subst n.
  rewrite !bin_key_value_low, !bin_key_value_rc by lia.
  assert (Hc : forall kb nt' xm,
             0 <= kb < 2 ^ 64 -> 1 <= nt' <= 15 -> nt' <= kb / 2 <= 32 ->
             bin_key_value kb nt' xm (canonical_value x (kb / 2))
             = bin_key_value kb nt' xm x).
  { intros kb nt' xm H1 H2 H3. unfold canonical_value.
    destruct (Z.min_spec x (rc_value x (kb / 2))) as [[_ ->]|[_ ->]];
      [reflexivity|apply bin_key_value_rc; assumption]. }
  rewrite !Hc by lia.
  repeat split; reflexivity.
Qed.

Lemma bin_key_strand_invariant_witness :
  exists y c b b',
    reverse_complement 0x1FF (key_bits example_bound_db / 2) = Ret y /\
    canonical_representation 0x1FF (key_bits example_bound_db / 2) = Ret c /\
    bin_key example_bound_db 0x1FF = Ret b /\ bin_key example_bound_db y = Ret b /\
    bin_key example_bound_db c = Ret b /\
    bin_key example_bound_db (0x1FF mod 4 ^ (key_bits example_bound_db / 2)) = Ret b /\
    bin_key_nt example_bound_db 0x1FF 3 = Ret b' /\
    bin_key_nt example_bound_db y 3 = Ret b' /\
    bin_key_nt example_bound_db c 3 = Ret b' /\
    bin_key_nt example_bound_db (0x1FF mod 4 ^ (key_bits example_bound_db / 2)) 3
    = Ret b'.
Proof.
  apply (bin_key_strand_invariant example_bound_db example_index 0x1FF 3);
    cbn; try reflexivity; lia.
Defined.

(* ------------------------------------------------------------------ *)

Lemma shl_int_undef n : 32 <= n -> shl_int 1 n = Undef.
Proof.
  intros Hn. unfold shl_int.
  replace (n <? 32) with false by (symmetry; apply Z.ltb_ge; lia).
  rewrite andb_false_r. reflexivity.
Qed.

Lemma bin_key_loop_zero_nt count xor_mask mask kmer acc :
  bin_key_loop (S count) 0 xor_mask mask kmer acc = Undef.
Proof. reflexivity. Qed.

Lemma bin_key_prelude_undef db kmer n :
  0 <= key_bits db < 2 ^ 64 -> 0 <= n < 256 -> ~ (1 <= n <= 15) ->
  (m <- shl_int 1 (n * 2) ;;
   bin_key_loop (Z.to_nat (wrap64 (key_bits db / 2 - n + 1))) n
     (Z.land INDEX2_XOR_MASK (wrap64 (wrap64 m - 1))) (wrap64 (wrap64 m - 1))
     kmer (wrap64 (-1))) = Undef
  /\ (m <- shl_int 1 (n * 2) ;;
      bin_key_loop (Z.to_nat (wrap64 (key_bits db / 2 - n + 1))) n
        (Z.land 0 (wrap64 (wrap64 m - 1))) (wrap64 (wrap64 m - 1))
        kmer (wrap64 (-1))) = Undef.
Proof.
  intros Hkb Hn Hout.
  destruct (Z.eq_dec n 0) as [->|Hn0].
  - assert (Hc : exists c, Z.to_nat (wrap64 (key_bits db / 2 - 0 + 1)) = S c).
    { assert (0 <= key_bits db / 2 < 2 ^ 63)
        by (split; [apply Z.div_pos|apply Z.div_lt_upper_bound]; lia).
      rewrite wrap64_small by lia.
      exists (Z.to_nat (key_bits db / 2)). lia. }
    destruct Hc as [c ->]. split; reflexivity.
  - rewrite shl_int_undef by lia. split; reflexivity.
Qed.

(** X7.  Both overloads of [bin_key] have a defined result exactly for minimizer
    lengths 1 to 15: for [nt >= 16] the [int] shift [1 << (nt * 2)] overflows,
    and for [nt = 0] the reverse complement shifts by 64 bits.  With
    [nt = k + 1] the loop does not run and the result is [~0], which is no
    bin of the index. *)
Theorem bin_key_supported_lengths (db : KrakenDB) (x idx_nt : Z) :
  0 <= key_bits db < 2 ^ 64 -> 0 <= idx_nt < 2 ^ 64 ->
  ((exists b, bin_key_nt db x idx_nt = Ret b) <-> 1 <= idx_nt mod 256 <= 15)
  /\ (forall ix, index_ptr db = Some ix -> 0 <= nt ix < 256 ->
        ((exists b, bin_key db x = Ret b) <-> 1 <= nt ix <= 15))
  /\ (index_ptr db = None -> bin_key db x = Undef)
  /\ (1 <= idx_nt <= 15 -> idx_nt = key_bits db / 2 + 1 ->
      bin_key_nt db x idx_nt = Ret (2 ^ 64 - 1)).
Proof.
  intros Hkb Hidx.
  assert (Hw : 0 <= idx_nt mod 256 < 256) by (apply Z.mod_pos_bound; lia).
  split; [|split; [|split]].
  - split.
    + intros [b Hb].
      destruct (Z_le_dec 1 (idx_nt mod 256)) as [H1|H1];
        destruct (Z_le_dec (idx_nt mod 256) 15) as [H2|H2]; try lia;
        exfalso; unfold bin_key_nt in Hb; cbv zeta in Hb;
        change (wrap8 idx_nt) with (idx_nt mod 256) in Hb;
        rewrite (proj1 (bin_key_prelude_undef db x (idx_nt mod 256) Hkb Hw
                          ltac:(lia))) in Hb;
        discriminate Hb.
    + intros Hin. eexists. unfold bin_key_nt. cbv zeta.
      change (wrap8 idx_nt) with (idx_nt mod 256).
      destruct (bin_key_prelude (idx_nt mod 256) Hin) as [-> Hmask].
      cbn [bind]. rewrite Hmask.
      apply bin_key_loop_returns. lia.
  - intros ix Hix Hnt. split.
    + intros [b Hb].
      destruct (Z_le_dec 1 (nt ix)) as [H1|H1];
        destruct (Z_le_dec (nt ix) 15) as [H2|H2]; try lia;
        exfalso; unfold bin_key in Hb; rewrite Hix in Hb; cbv zeta in Hb;
        unfold indexed_nt, index_type in Hb;
        destruct (bin_key_prelude_undef db x (nt ix) Hkb Hnt ltac:(lia))
          as [Hu2 Hu1];
        destruct (idx_type ix =? 1);
        first [rewrite Hu1 in Hb|rewrite Hu2 in Hb];
        discriminate Hb.
    + intros Hin. eexists. apply (bin_key_returns db ix); assumption.
  - intros Hnone. unfold bin_key. rewrite Hnone. reflexivity.
  - intros Hin Heq. rewrite bin_key_nt_returns by assumption.
    unfold bin_key_value.
    replace (key_bits db / 2 - idx_nt + 1) with 0 by lia.
    reflexivity.
Qed.

Lemma bin_key_supported_lengths_witness :
  ((exists b, bin_key_nt example_bound_db 27 16 = Ret b) <-> 1 <= 16 mod 256 <= 15)
  /\ (forall ix, index_ptr example_bound_db = Some ix -> 0 <= nt ix < 256 ->
        ((exists b, bin_key example_bound_db 27 = Ret b) <-> 1 <= nt ix <= 15))
  /\ (index_ptr example_bound_db = None -> bin_key example_bound_db 27 = Undef)
  /\ (1 <= 16 <= 15 -> 16 = key_bits example_bound_db / 2 + 1 ->
      bin_key_nt example_bound_db 27 16 = Ret (2 ^ 64 - 1)).
Proof.
  apply (bin_key_supported_lengths example_bound_db 27 16).
  - cbn. lia.
  - split; [lia|reflexivity].
Defined.

(* ================================================================== *)
(** * Opening an index *)

Lemma strncmp_index_magic (lit : string) ptr :
  lit = KRAKEN_INDEX_STRING \/ lit = KRAKEN_INDEX2_STRING ->
  8 <= Z.of_nat (List.length ptr) ->
  exists c, strncmp ptr (c_string lit) (Z.to_nat (strlen lit)) = Ret c /\
            (c = 0 <-> firstn 7 ptr = list_byte_of_string lit).
Proof.
  intros Hlit Hlen.
  assert (Hl : List.length (list_byte_of_string lit) = 7%nat)
    by (destruct Hlit as [->| ->]; reflexivity).
  replace (Z.to_nat (strlen lit)) with (List.length (list_byte_of_string lit))
    by (destruct Hlit as [->| ->]; reflexivity).
  rewrite <- Hl. unfold c_string.
  apply (strncmp_literal (list_byte_of_string lit)).
  - intros c Hc. destruct Hlit as [->| ->]; cbn in Hc;
      repeat (destruct Hc as [<-|Hc]; [discriminate|]); contradiction.
  - lia.
Qed.

(** X8.  [KrakenDBIndex(ptr)] over a region of at least 8 bytes: the file type
    code [KRAKIDX] gives a v1 index, [KRAKIX2] a v2 index, anything else ends
    the process with [EX_DATAERR]; the minimizer length is the eighth byte,
    taken as it is (neither it nor the length of the file is checked). *)
Theorem KrakenDBIndex_open_outcome (ptr : region) :
  8 <= Z.of_nat (List.length ptr) ->
  (firstn 7 ptr = list_byte_of_string KRAKEN_INDEX_STRING ->
   KrakenDBIndex_open ptr
   = Ret {| idx_type := 1; idx_fptr := ptr; nt := word_at ptr 7 1 |})
  /\ (firstn 7 ptr = list_byte_of_string KRAKEN_INDEX2_STRING ->
      KrakenDBIndex_open ptr
      = Ret {| idx_type := 2; idx_fptr := ptr; nt := word_at ptr 7 1 |})
  /\ (firstn 7 ptr <> list_byte_of_string KRAKEN_INDEX_STRING ->
      firstn 7 ptr <> list_byte_of_string KRAKEN_INDEX2_STRING ->
      KrakenDBIndex_open ptr = Errx EX_DATAERR "illegal Kraken DB index format")
  /\ 0 <= word_at ptr 7 1 < 256.
Proof.
  intros Hlen.
  destruct (strncmp_index_magic KRAKEN_INDEX_STRING ptr (or_introl eq_refl) Hlen)
    as (c1 & Hc1 & Hz1).
  destruct (strncmp_index_magic KRAKEN_INDEX2_STRING ptr (or_intror eq_refl) Hlen)
    as (c2 & Hc2 & Hz2).
  assert (Hnt : load_le ptr (strlen KRAKEN_INDEX_STRING) 1 = Ret (word_at ptr 7 1))
    by (apply load_le_ok; cbn; lia).
  unfold KrakenDBIndex_open. rewrite Hc1, Hc2, Hnt. cbn [bind].
  split; [|split; [|split]].
  - intros H1. apply Hz1 in H1. subst c1. reflexivity.
  - intros H2.
    assert (c1 <> 0).
    { intros H1. apply Hz1 in H1. rewrite H1 in H2. discriminate H2. }
    apply Hz2 in H2. subst c2.
    destruct (Z.eqb_spec c1 0); [contradiction|]. reflexivity.
  - intros H1 H2.
    destruct (Z.eqb_spec c1 0) as [E|_]; [apply Hz1 in E; contradiction|].
    destruct (Z.eqb_spec c2 0) as [E|_]; [apply Hz2 in E; contradiction|].
    reflexivity.
  - pose proof (le_value_range (bytes_at ptr 7 1)) as Hr.
    rewrite bytes_at_length in Hr by lia. exact Hr.
Qed.

Lemma KrakenDBIndex_open_outcome_witness :
  (firstn 7 example_index_file = list_byte_of_string KRAKEN_INDEX_STRING ->
   KrakenDBIndex_open example_index_file
   = Ret {| idx_type := 1; idx_fptr := example_index_file;
            nt := word_at example_index_file 7 1 |})
  /\ (firstn 7 example_index_file = list_byte_of_string KRAKEN_INDEX2_STRING ->
      KrakenDBIndex_open example_index_file
      = Ret {| idx_type := 2; idx_fptr := example_index_file;
               nt := word_at example_index_file 7 1 |})
  /\ (firstn 7 example_index_file <> list_byte_of_string KRAKEN_INDEX_STRING ->
      firstn 7 example_index_file <> list_byte_of_string KRAKEN_INDEX2_STRING ->
      KrakenDBIndex_open example_index_file
      = Errx EX_DATAERR "illegal Kraken DB index format")
  /\ 0 <= word_at example_index_file 7 1 < 256.
Proof.
  apply (KrakenDBIndex_open_outcome example_index_file). cbn. lia.
Defined.

(* ================================================================== *)
(** * The index built by [make_index] delimits the bins *)

Lemma count_lt_range f i n b : 0 <= count_lt f i n b <= Z.of_nat n.
Proof.
  revert i. induction n as [|n IH]; intros i; cbn [count_lt]; [lia|].
  specialize (IH (i + 1)). destruct (f i <? b); lia.
Qed.

Lemma count_lt_mono f n : forall i b b',
  b <= b' -> count_lt f i n b <= count_lt f i n b'.
Proof.
  induction n as [|n IH]; intros i b b' Hb; cbn [count_lt]; [lia|].
  specialize (IH (i + 1) b b' Hb).
  destruct (Z.ltb_spec (f i) b); destruct (Z.ltb_spec (f i) b'); lia.
Qed.

Lemma count_lt_app f n : forall i m b,
  count_lt f i (n + m) b = count_lt f i n b + count_lt f (i + Z.of_nat n) m b.
Proof.
  induction n as [|n IH]; intros i m b; cbn [Nat.add count_lt].
  - replace (i + Z.of_nat 0) with i by lia. lia.
  - rewrite IH. replace (i + 1 + Z.of_nat n) with (i + Z.of_nat (S n)) by lia. lia.
Qed.

Lemma count_lt_all f n : forall i b,
  (forall j, i <= j < i + Z.of_nat n -> f j < b) -> count_lt f i n b = Z.of_nat n.
Proof.
  induction n as [|n IH]; intros i b H; cbn [count_lt]; [reflexivity|].
  rewrite IH by (intros j Hj; apply H; lia).
  destruct (Z.ltb_spec (f i) b) as [_|Hge]; [lia|].
  specialize (H i ltac:(lia)). lia.
Qed.

Lemma count_lt_none f n : forall i b,
  (forall j, i <= j < i + Z.of_nat n -> b <= f j) -> count_lt f i n b = 0.
Proof.
  induction n as [|n IH]; intros i b H; cbn [count_lt]; [reflexivity|].
  rewrite IH by (intros j Hj; apply H; lia).
  destruct (Z.ltb_spec (f i) b) as [Hlt|_]; [|lia].
  specialize (H i ltac:(lia)). lia.
Qed.

(** For pairs in non-decreasing bin order, the number of pairs of the bins
    below [b] is at most [i] exactly when pair [i] is in bin [b] or above. *)
Lemma count_lt_sorted f (N : nat) b i :
  (forall j j', 0 <= j <= j' -> j' < Z.of_nat N -> f j <= f j') ->
  0 <= i < Z.of_nat N ->
  (count_lt f 0 N b <= i <-> b <= f i).
Proof.
  intros Hs Hi.
  destruct (Z_le_dec b (f i)) as [Hle|Hgt].
  - split; [intros _; assumption|intros _].
    replace N with (Z.to_nat i + (N - Z.to_nat i))%nat by lia.
    rewrite count_lt_app.
    rewrite (count_lt_none f (N - Z.to_nat i)).
    + pose proof (count_lt_range f 0 (Z.to_nat i) b). lia.
    + intros j Hj. specialize (Hs i j ltac:(lia) ltac:(lia)). lia.
  - split; [|intros; lia]. intros Hc. exfalso.
    replace N with (S (Z.to_nat i) + (N - S (Z.to_nat i)))%nat in Hc by lia.
    rewrite count_lt_app in Hc.
    rewrite (count_lt_all f (S (Z.to_nat i))) in Hc.
    + pose proof (count_lt_range f (0 + Z.of_nat (S (Z.to_nat i)))
                    (N - S (Z.to_nat i)) b). lia.
    + intros j Hj. specialize (Hs j i ltac:(lia) ltac:(lia)). lia.
Qed.

Lemma total_cons c t : total (c :: t) = c + total t.
Proof. reflexivity. Qed.

Lemma vec_incr_firstn v : forall p v' b,
  vec_incr v p = Ret v' ->
  Forall (fun c => 0 <= c) v -> total v + 1 < 2 ^ 64 ->
  total (firstn b v') = total (firstn b v) + (if (p <? b)%nat then 1 else 0).
Proof.
  induction v as [|c t IH]; intros p v' b Hv Hnn Hsum; cbn [vec_incr] in Hv.
  - discriminate Hv.
  - inversion Hnn as [|? ? Hc Ht]; subst.
    pose proof (total_nonneg t Ht). rewrite total_cons in Hsum.
    destruct p as [|p].
    + injection Hv as <-. destruct b as [|b]; [reflexivity|].
      cbn [firstn]. rewrite !total_cons, wrap64_small by lia.
      cbn [Nat.ltb Nat.leb]. lia.
    + destruct (vec_incr t p) as [t'| | |] eqn:Et; cbn [bind] in Hv;
        try discriminate Hv.
      injection Hv as <-. destruct b as [|b]; [reflexivity|].
      cbn [firstn]. rewrite !total_cons.
      rewrite (IH p t' b Et Ht) by lia.
      change (S p <? S b)%nat with (p <? b)%nat. lia.
Qed.

Lemma total_firstn_repeat0 b : forall n, total (firstn b (repeat 0 n)) = 0.
Proof.
  induction b as [|b IH]; intros [|n]; try reflexivity.
  cbn [repeat firstn]. rewrite total_cons, IH. reflexivity.
Qed.

Lemma pair_bin_range db r nt i :
  db_mapped db r -> 1 <= nt <= 15 -> nt <= key_bits db / 2 ->
  0 <= pair_bin db r nt i < 4 ^ nt.
Proof.
  intros Hm Hnt Hntk. apply bin_key_value_range; try assumption.
  destruct Hm. change (2 ^ 64) with 18446744073709551616. lia.
Qed.

(** The counting loop of [make_index]: the counters of the bins below [b]
    grow by the number of pairs read whose bin key is below [b]. *)
Lemma count_bins_firstn db r nt n :
  db_mapped db r -> 1 <= nt <= 15 -> nt <= key_bits db / 2 ->
  forall i counts counts',
    count_bins db nt (get_pair_ptr db) n i counts = Ret counts' ->
    0 <= i -> i + Z.of_nat n <= key_ct db ->
    Forall (fun c => 0 <= c) counts -> total counts + Z.of_nat n < 2 ^ 64 ->
    forall b, total (firstn b counts')
              = total (firstn b counts) + count_lt (pair_bin db r nt) i n (Z.of_nat b).
Proof.
  intros Hm Hnt Hntk.
  induction n as [|n IH]; intros i counts counts' Hc Hi Hend Hnn Hsum b;
    cbn [count_bins count_lt] in *.
  - injection Hc as <-. lia.
  - rewrite Z.mul_comm, (db_load_key db r i Hm) in Hc by lia. cbn [bind] in Hc.
    rewrite bin_key_nt_returns in Hc by assumption. cbn [bind] in Hc.
    fold (pair_bin db r nt i) in Hc.
    pose proof (pair_bin_range db r nt i Hm Hnt Hntk) as Hb.
    destruct (vec_incr counts (Z.to_nat (pair_bin db r nt i))) as [c1| | |] eqn:Ev;
      cbn [bind] in Hc; try discriminate Hc.
    destruct (vec_incr_total _ _ _ Ev) as [_ Hs1].
    destruct (Hs1 Hnn ltac:(lia)) as [Hnn1 Ht1].
    rewrite (IH (i + 1) c1 counts' Hc) by (try assumption; lia).
    rewrite (vec_incr_firstn _ _ _ b Ev Hnn) by lia.
    destruct (Nat.ltb_spec (Z.to_nat (pair_bin db r nt i)) b);
      destruct (Z.ltb_spec (pair_bin db r nt i) (Z.of_nat b)); lia.
Qed.

Lemma key_ct_small db r : db_mapped db r -> 0 <= key_ct db < 2 ^ 62.
Proof.
  intros Hm. destruct (pair_size_value db r Hm) as [Hps Hkl].
  pose proof (header_size_value db r Hm).
  destruct Hm as [_ ? _ _ ? ? ?].
  change (2 ^ 64) with (4 * 2 ^ 62) in *. nia.
Qed.

(** What [make_index] writes: the v2 file type code, [nt], and for each [b]
    the number of pairs whose bin key is below [b]. *)
Lemma make_index_file db r nt_arg file :
  db_mapped db r -> 1 <= nt_arg <= 15 -> nt_arg <= key_bits db / 2 ->
  make_index db nt_arg = Ret file ->
  let ix := {| idx_type := 2; idx_fptr := file; nt := nt_arg |} in
  KrakenDBIndex_open file = Ret ix /\
  Z.of_nat (List.length file) = 8 + 8 * (4 ^ nt_arg + 1) /\
  forall b, 0 <= b <= 4 ^ nt_arg ->
    offset_entry ix b
    = count_lt (pair_bin db r nt_arg) 0 (Z.to_nat (key_ct db)) b.
Proof.
  intros Hm Hnt Hntk Hfile.
  pose proof (key_ct_small db r Hm) as Hct.
  assert (H62 : 2 ^ 62 < 2 ^ 64) by reflexivity.
  pose proof (pow4_bounds nt_arg Hnt) as Hp4.
  unfold make_index, make_index_offsets in Hfile.
  rewrite shl_u64_one in Hfile by lia. cbn [bind] in Hfile.
  replace (nt_arg * 2) with (2 * nt_arg) in Hfile by lia.
  rewrite <- pow4_pow2 in Hfile by lia. cbv zeta in Hfile.
  destruct (count_bins db nt_arg (get_pair_ptr db) (Z.to_nat (key_ct db)) 0
              (repeat 0 (Z.to_nat (4 ^ nt_arg)))) as [counts| | |] eqn:Ec;
    cbn [bind] in Hfile; try discriminate Hfile.
  assert (Hfile' : file = list_byte_of_string KRAKEN_INDEX2_STRING
                          ++ [byte_of_Z nt_arg]
                          ++ flat_map (le_bytes 8) (0 :: offsets_from 0 counts))
    by (injection Hfile as <-; reflexivity).
  clear Hfile. subst file.
  assert (Hz : Forall (fun c => 0 <= c) (repeat 0 (Z.to_nat (4 ^ nt_arg)))).
  { apply Forall_forall. intros c Hc. apply repeat_spec in Hc. lia. }
  destruct (count_bins_total _ _ _ _ _ _ _ Ec) as [Hlen Htot].
  rewrite repeat_length in Hlen.
  destruct (Htot Hz) as [Hnn Hsum]; [rewrite total_repeat0; lia|].
  rewrite total_repeat0, Z2Nat.id in Hsum by lia. cbn [Z.add] in Hsum.
  pose proof (count_bins_firstn db r nt_arg _ Hm Hnt Hntk _ _ _ Ec
                ltac:(lia) ltac:(lia) Hz ltac:(rewrite total_repeat0; lia))
    as Hfirst.
  set (offsets := 0 :: offsets_from 0 counts).
  assert (Holen : List.length offsets = S (Z.to_nat (4 ^ nt_arg))).
  { subst offsets. cbn [List.length]. rewrite offsets_from_length. lia. }
  assert (Hnth : forall i, (i <= List.length counts)%nat ->
                           nth i offsets 0 = total (firstn i counts)).
  { intros i Hi. subst offsets. rewrite offsets_nth by (assumption || lia). lia. }
  assert (Hb : byte_of_Z nt_arg
               = byte_of_Z (byte_val (byte_of_Z nt_arg))).
  { apply byte_val_inj. rewrite !byte_val_of_Z. rewrite Z.mod_mod by lia.
    reflexivity. }
  assert (Hbv : byte_val (byte_of_Z nt_arg) = nt_arg)
    by (rewrite byte_val_of_Z; apply Z.mod_small; lia).
  cbv zeta. split; [|split].
  - rewrite open_v2_file, Hbv. reflexivity.
  - rewrite !length_app, words_length, Holen.
    change (List.length (list_byte_of_string KRAKEN_INDEX2_STRING)) with 7%nat.
    cbn [List.length]. lia.
  - intros b Hbr. unfold offset_entry. cbn [idx_fptr].
    change (get_array _) with 8.
    rewrite <- (Z2Nat.id b) at 1 by lia.
    rewrite offset_entry_of_file.
    + rewrite Hnth by lia. rewrite Hfirst.
      rewrite total_firstn_repeat0, Z2Nat.id by lia. reflexivity.
    + lia.
    + rewrite Hnth by lia.
      pose proof (total_firstn_le counts (Z.to_nat b) Hnn).
      pose proof (total_firstn_nonneg counts (Z.to_nat b) Hnn). lia.
Qed.

Lemma stored_key_mod db r i :
  0 <= key_bits db ->
  stored_key db r i
  = word_at r (header_size db + pair_size db * i) (key_len db) mod 2 ^ key_bits db.
Proof.
  intros Hkb. unfold stored_key.
  change (2 ^ key_bits db - 1) with (Z.pred (2 ^ key_bits db)).
  rewrite <- Z.ones_equiv, Z.land_ones by lia. reflexivity.
Qed.

(** The bin of a stored key under the bound v2 index is the bin [make_index]
    counted the pair in. *)
Lemma bin_of_stored_key db r ix i :
  db_mapped db r -> idx_type ix = 2 -> 1 <= nt ix <= 15 -> nt ix <= key_bits db / 2 ->
  bin_of (set_index db ix) (stored_key db r i) = pair_bin db r (nt ix) i.
Proof.
  intros Hm Hty Hnt Hntk.
  assert (Hkb : 0 <= key_bits db < 2 ^ 64)
    by (destruct Hm; change (2 ^ 64) with 18446744073709551616; lia).
  unfold bin_of.
  rewrite (bin_key_returns (set_index db ix) ix) by (cbn; auto).
  rewrite Hty. cbn [Z.eqb Pos.eqb set_index key_bits].
  rewrite stored_key_mod by lia.
  rewrite bin_key_value_low; try assumption; [reflexivity|].
  Z.to_euclidean_division_equations; lia.
Qed.

Lemma set_index_mapped db r ix : db_mapped db r -> db_mapped (set_index db ix) r.
Proof. intros [? ? ? ? ? ? ?]. constructor; assumption. Qed.

Lemma make_index_bound db r nt_arg file :
  db_mapped db r -> 1 <= nt_arg <= 15 -> nt_arg <= key_bits db / 2 ->
  make_index db nt_arg = Ret file ->
  let ix := {| idx_type := 2; idx_fptr := file; nt := nt_arg |} in
  KrakenDBIndex_open file = Ret ix /\
  db_bound (set_index db ix) r ix /\
  ((forall i j, 0 <= i <= j -> j < key_ct db ->
      bin_of (set_index db ix) (stored_key db r i)
      <= bin_of (set_index db ix) (stored_key db r j)) ->
   index_invariants (set_index db ix) r ix).
Proof.
  intros Hm Hnt Hntk Hfile.
  destruct (make_index_file db r nt_arg file Hm Hnt Hntk Hfile)
    as (Hopen & Hlen & Hoff).
  cbv zeta in *. set (ix := {| idx_type := 2; idx_fptr := file; nt := nt_arg |}) in *.
  assert (Hmap : index_mapped ix).
  { unfold index_mapped. cbn [idx_fptr nt ix]. change (get_array _) with 8. lia. }
  pose proof (key_ct_small db r Hm) as Hct.
  pose proof (pow4_bounds nt_arg Hnt) as Hp4.
  split; [assumption|]. split.
  - constructor; try assumption; try reflexivity.
    apply set_index_mapped. assumption.
  - intros Hsorted.
    assert (Hbin : forall i, bin_of (set_index db ix) (stored_key db r i)
                             = pair_bin db r nt_arg i).
    { intros i. apply (bin_of_stored_key db r ix); try assumption. reflexivity. }
    assert (Hs : forall j j', 0 <= j <= j' -> j' < Z.of_nat (Z.to_nat (key_ct db)) ->
                              pair_bin db r nt_arg j <= pair_bin db r nt_arg j').
    { intros j j' Hj Hj'. rewrite <- !Hbin. apply Hsorted; lia. }
    constructor; cbn [nt ix set_index key_ct].
    + rewrite Hoff by lia. apply count_lt_none.
      intros j _. apply pair_bin_range; assumption.
    + intros b Hb. rewrite !Hoff by lia. apply count_lt_mono. lia.
    + rewrite Hoff by lia. rewrite count_lt_all; [lia|].
      intros j _. apply pair_bin_range; assumption.
    + intros b i Hb Hi. change (stored_key (set_index db ix) r i)
        with (stored_key db r i).
      rewrite Hbin, !Hoff by lia.
      pose proof (count_lt_sorted _ _ b i Hs ltac:(lia)) as H1.
      pose proof (count_lt_sorted _ _ (b + 1) i Hs ltac:(lia)) as H2.
      lia.
Qed.

(** X9.  The index [make_index] writes for a supported minimizer length has
    [8 + 8 (4^nt + 1)] bytes and, once opened and bound with [set_index], is
    a v2 index for that length under which [bin_key(kmer)] is the
    [bin_key(kmer, nt)] the builder used.  Its
    entry [b] is the number of pairs whose bin key is below [b], in whatever
    order the pairs are; and if the pairs are in non-decreasing order of
    their bin keys, the offsets delimit the bins: pair [i] has bin key [b]
    exactly when [offsets[b] <= i < offsets[b+1]]. *)
Theorem make_index_delimits_bins (db : KrakenDB) (r : region) (nt_arg : Z)
        (file : region) :
  db_mapped db r -> 1 <= nt_arg <= 15 -> nt_arg <= key_bits db / 2 ->
  make_index db nt_arg = Ret file ->
  exists ix,
    KrakenDBIndex_open file = Ret ix /\
    idx_type ix = 2 /\ nt ix = nt_arg /\
    Z.of_nat (List.length file) = 8 + 8 * (4 ^ nt_arg + 1) /\
    db_bound (set_index db ix) r ix /\
    (forall x, bin_key (set_index db ix) x = bin_key_nt db x nt_arg) /\
    (forall b, 0 <= b <= 4 ^ nt_arg ->
       offset_entry ix b
       = count_lt (pair_bin db r nt_arg) 0 (Z.to_nat (key_ct db)) b) /\
    ((forall i j, 0 <= i <= j -> j < key_ct db ->
        bin_of (set_index db ix) (stored_key db r i)
        <= bin_of (set_index db ix) (stored_key db r j)) ->
     index_invariants (set_index db ix) r ix).
Proof.
  intros Hm Hnt Hntk Hfile.
  destruct (make_index_bound db r nt_arg file Hm Hnt Hntk Hfile)
    as (Hopen & Hbound & Hinv).
  destruct (make_index_file db r nt_arg file Hm Hnt Hntk Hfile)
    as (_ & Hlen & Hoff).
  eexists. split; [exact Hopen|].
  split; [reflexivity|]. split; [reflexivity|]. split; [exact Hlen|].
  split; [exact Hbound|]. split; [|split; [exact Hoff|exact Hinv]].
  intros x.
  rewrite (bin_key_returns _ _ x (bound_index _ _ _ Hbound)) by assumption.
  rewrite bin_key_nt_returns by assumption. reflexivity.
Qed.

Lemma make_index_delimits_bins_witness :
  exists ix,
    KrakenDBIndex_open example_index_file = Ret ix /\
    idx_type ix = 2 /\ nt ix = 2 /\
    Z.of_nat (List.length example_index_file) = 8 + 8 * (4 ^ 2 + 1) /\
    db_bound (set_index example_db ix) example_file ix /\
    (forall x, bin_key (set_index example_db ix) x = bin_key_nt example_db x 2) /\
    (forall b, 0 <= b <= 4 ^ 2 ->
       offset_entry ix b
       = count_lt (pair_bin example_db example_file 2) 0
           (Z.to_nat (key_ct example_db)) b) /\
    ((forall i j, 0 <= i <= j -> j < key_ct example_db ->
        bin_of (set_index example_db ix) (stored_key example_db example_file i)
        <= bin_of (set_index example_db ix) (stored_key example_db example_file j)) ->
     index_invariants (set_index example_db ix) example_file ix).
Proof.
  apply (make_index_delimits_bins example_db example_file 2 example_index_file).
  - exact example_db_mapped.
  - lia.
  - cbn. lia.
  - reflexivity.
Defined.

(** The stateless lookup on a well-formed database with its index. *)
Lemma stateless_lookup_spec TESTING db r ix x m :
  db_bound db r ix -> key_bits db < 64 ->
  pair_array_invariants db r -> index_invariants db r ix ->
  (forall i, 0 <= i < key_ct db -> stored_key db r i = x ->
     exists p, kmer_query_1 TESTING db x m = Ret (Some p, m) /\
               load_value db p = Ret (stored_value db r i))
  /\ ((forall i, 0 <= i < key_ct db -> stored_key db r i <> x) ->
      kmer_query_1 TESTING db x m = Ret (None, m)).
Proof.
  intros Hb Hkb Hinv Hidx.
  pose proof (bound_mapped db r ix Hb) as Hm.
  destruct (bin_key_bin_of db r ix Hb Hkb x) as [_ Hbr].
  destruct (window_bounds db r ix Hidx _ Hbr) as [Hlo Hhi].
  destruct (window_search_spec db r Hm Hkb x _ _ Hlo Hhi) as (res & Hws & Hspec).
  assert (Hq : kmer_query_1 TESTING db x m = Ret (res, m)).
  { unfold kmer_query_1, kmer_query. rewrite kmer_query_rec_no_retry.
    unfold lift. rewrite (fresh_lookup_unfold TESTING db r ix Hb Hkb Hidx x), Hws.
    reflexivity. }
  rewrite Hq. split.
  - intros i Hi Hk.
    assert (Hin : offset_entry ix (bin_of db x) <= i
                  <= offset_entry ix (bin_of db x + 1) - 1).
    { pose proof (proj2 (inv_delimits db r ix Hidx (bin_of db x) i Hbr Hi)) as Hd.
      rewrite Hk in Hd. specialize (Hd eq_refl). lia. }
    pose proof (window_increasing db r ix Hidx _ Hinv Hbr) as Hinc.
    destruct res as [p|].
    + destruct Hspec as (i' & Hi' & Hk' & Hp).
      assert (i' = i).
      { destruct (Z.lt_trichotomy i' i) as [Hlt|[Heq|Hgt]]; [|assumption|].
        - pose proof (Hinc i' i ltac:(lia) ltac:(lia)). lia.
        - pose proof (Hinc i i' ltac:(lia) ltac:(lia)). lia. }
      subst i'. exists p. split; [reflexivity|].
      rewrite Hp. apply (load_value_returns db r Hm). assumption.
    + exfalso. apply (Hspec Hinc i Hin Hk).
  - intros Hnone. destruct res as [p|]; [|reflexivity].
    destruct Hspec as (i & Hi & Hk & _). exfalso.
    apply (Hnone i); [|assumption].
    destruct (window_bin db r ix Hidx _ i Hbr Hi) as [Hr _]. exact Hr.
Qed.

(** A database opened from a file that holds its pairs is a mapped
    database. *)
Lemma KrakenDB_open_mapped r db :
  KrakenDB_open r = Ret db -> key_bits db <= 64 ->
  header_size db + key_ct db * pair_size db <= Z.of_nat (List.length r) < 2 ^ 64 ->
  db_mapped db r.
Proof.
  intros Ho Hkb Hsize.
  destruct (KrakenDB_open_fields r db Ho) as (Hf & _ & Hk & _ & Hl & Hv & _ & Hc).
  constructor; try assumption; lia.
Qed.

(** X10.  Open, build, open, bind, query: for a database file with [key_bits < 64]
    that holds its [key_ct] pairs ordered by bin key and, within a bin, by
    key, every stored k-mer is found with its value through the index written
    by [make_index], and a k-mer that is not stored gives [NULL]. *)
Theorem make_index_then_query (TESTING : bool) (db : KrakenDB) (r : region)
        (nt_arg : Z) (file : region) (ix : KrakenDBIndex) (x : Z) (m : memory) :
  KrakenDB_open r = Ret db -> key_bits db < 64 ->
  header_size db + key_ct db * pair_size db <= Z.of_nat (List.length r) < 2 ^ 64 ->
  1 <= nt_arg <= 15 -> nt_arg <= key_bits db / 2 ->
  make_index db nt_arg = Ret file ->
  KrakenDBIndex_open file = Ret ix ->
  pair_array_invariants (set_index db ix) r ->
  (forall i, 0 <= i < key_ct db -> stored_key db r i = x ->
     exists p, kmer_query_1 TESTING (set_index db ix) x m = Ret (Some p, m) /\
               load_value (set_index db ix) p = Ret (stored_value db r i))
  /\ ((forall i, 0 <= i < key_ct db -> stored_key db r i <> x) ->
      kmer_query_1 TESTING (set_index db ix) x m = Ret (None, m)).
Proof.
  intros Hdb Hkb Hsize Hnt Hntk Hfile Hopen Hinv.
  pose proof (KrakenDB_open_mapped r db Hdb ltac:(lia) Hsize) as Hm.
  destruct (make_index_bound db r nt_arg file Hm Hnt Hntk Hfile)
    as (Hopen' & Hb & Hidx').
  rewrite Hopen in Hopen'. injection Hopen' as ->.
  apply (stateless_lookup_spec TESTING _ r _ x m Hb Hkb Hinv).
  apply Hidx'. apply (inv_bin_order _ r Hinv).
Qed.

Lemma make_index_then_query_witness :
  (forall i, 0 <= i < key_ct example_db ->
     stored_key example_db example_file i = 0x55 ->
     exists p, kmer_query_1 false (set_index example_db example_index) 0x55 empty_memory
               = Ret (Some p, empty_memory) /\
               load_value (set_index example_db example_index) p
               = Ret (stored_value example_db example_file i))
  /\ ((forall i, 0 <= i < key_ct example_db ->
         stored_key example_db example_file i <> 0x55) ->
      kmer_query_1 false (set_index example_db example_index) 0x55 empty_memory
      = Ret (None, empty_memory)).
Proof.
  apply (make_index_then_query false example_db example_file 2 example_index_file
           example_index 0x55 empty_memory).
  - exact example_db_opened.
  - cbn. lia.
  - cbn. lia.
  - lia.
  - cbn. lia.
  - reflexivity.
  - reflexivity.
  - exact example_pair_array.
Defined.

(* ================================================================== *)
(** * What a query can return, whatever the database holds *)













(* ------------------------------------------------------------------ *)

(** X13.  A database cannot be queried before an index is bound: the stateless
    query, and the stateful query from a state without a cached window, read
    through the null index pointer.  This is the state [KrakenDB(ptr)] and
    [KrakenDB()] leave the database in. *)
Theorem kmer_query_needs_index (TESTING : bool) (db : KrakenDB) (kmer : Z)
        (st : query_state) (m : memory) :
  index_ptr db = None ->
  kmer_query_1 TESTING db kmer m = Undef
  /\ (snd (fst st) > snd st -> kmer_query_state TESTING db kmer st = Undef)
  /\ (forall ptr db', KrakenDB_open ptr = Ret db' ->
                      kmer_query_1 TESTING db' kmer m = Undef)
  /\ kmer_query_1 TESTING KrakenDB_default kmer m = Undef.
Proof.
  intros Hix.
  assert (Hq : forall d, index_ptr d = None -> kmer_query_1 TESTING d kmer m = Undef).
  { intros d Hd. unfold kmer_query_1, kmer_query.
    rewrite kmer_query_rec_no_retry.
    unfold lift, fresh_lookup, bin_window, bin_key. rewrite Hd. reflexivity. }
  split; [apply Hq; assumption|]. split; [|split].
  - destruct st as [[lbk mn] mx]. cbn [fst snd]. intros Hgt.
    unfold kmer_query_state, kmer_query.
    set (depth := 1%nat) at 1. clearbody depth.
    cbn [kmer_query_rec].
    unfold mbind, ret, lift, deref, assign.
    cbn [bind fst snd cells accesses state_memory state_cells].
    replace (mn <=? mx) with false by (symmetry; apply Z.leb_gt; lia).
    cbn [bind fst snd]. unfold bin_key. rewrite Hix. reflexivity.
  - intros ptr db' Ho. apply Hq.
    destruct (KrakenDB_open_fields ptr db' Ho) as (_ & Hi & _). exact Hi.
  - apply Hq. reflexivity.
Qed.

Lemma kmer_query_needs_index_witness :
  kmer_query_1 false example_db 27 empty_memory = Undef
  /\ (snd (fst (0, 1, 0)) > snd (0, 1, 0) ->
      kmer_query_state false example_db 27 (0, 1, 0) = Undef)
  /\ (forall ptr db', KrakenDB_open ptr = Ret db' ->
                      kmer_query_1 false db' 27 empty_memory = Undef)
  /\ kmer_query_1 false KrakenDB_default 27 empty_memory = Undef.
Proof.
  apply (kmer_query_needs_index false example_db 27 (0, 1, 0) empty_memory).
  reflexivity.
Defined.

(* ================================================================== *)
(** * Bins of at most 15 pairs are searched linearly *)

Lemma binary_search_narrow fuel db ptr pair_sz kmer min max :
  - 2 ^ 63 <= min + 15 < 2 ^ 63 -> max < min + 15 ->
  binary_search (S fuel) db ptr pair_sz kmer min max = Ret (inr (min, max)).
Proof.
  intros Hr Hn. cbn [binary_search].
  rewrite int64_ok_returns by assumption. cbn [bind].
  replace (min + 15 <=? max) with false by (symmetry; apply Z.leb_gt; lia).
  reflexivity.
Qed.

(** X15.  When no bin holds more than 15 pairs, the lookup needs no order among
    the keys of a bin: with an index that delimits the bins, the stateless
    query finds a pair holding the k-mer whenever one is stored, and returns
    [NULL] otherwise. *)
Theorem kmer_query_small_bins (TESTING : bool) (db : KrakenDB) (r : region)
        (ix : KrakenDBIndex) (x : Z) (m : memory) :
  db_bound db r ix ->
  key_bits db < 64 ->
  index_invariants db r ix ->
  (forall b, 0 <= b < 4 ^ nt ix ->
             offset_entry ix (b + 1) - offset_entry ix b <= 15) ->
  (forall i, 0 <= i < key_ct db -> stored_key db r i = x ->
     exists p i',
       kmer_query_1 TESTING db x m = Ret (Some p, m) /\
       0 <= i' < key_ct db /\ stored_key db r i' = x /\
       load_value db p = Ret (stored_value db r i'))
  /\ ((forall i, 0 <= i < key_ct db -> stored_key db r i <> x) ->
      kmer_query_1 TESTING db x m = Ret (None, m)).
Proof.
  intros Hb Hkb Hidx Hsmall.
  pose proof (bound_mapped db r ix Hb) as Hm.
  pose proof (key_ct_small db r Hm) as Hct.
  assert (H62 : 2 ^ 62 + 15 < 2 ^ 63) by reflexivity.
  destruct (bin_key_bin_of db r ix Hb Hkb x) as [_ Hbr].
  destruct (window_bounds db r ix Hidx _ Hbr) as [Hlo Hhi].
  specialize (Hsmall _ Hbr).
  set (lo := offset_entry ix (bin_of db x)) in *.
  set (hi := offset_entry ix (bin_of db x + 1) - 1) in *.
  destruct (linear_search_spec db r Hm Hkb x (S (Z.to_nat (hi - lo + 1))) lo hi
              ltac:(lia) Hlo Hhi) as (res & Hls & Hspec).
  assert (Hq : kmer_query_1 TESTING db x m = Ret (res, m)).
  { unfold kmer_query_1, kmer_query. rewrite kmer_query_rec_no_retry.
    unfold lift. rewrite (fresh_lookup_unfold TESTING db r ix Hb Hkb Hidx x).
    fold lo hi. unfold window_search.
    rewrite binary_search_narrow by lia. cbn [bind].
    rewrite Hls. reflexivity. }
  rewrite Hq. split.
  - intros i Hi Hk.
    assert (Hin : lo <= i <= hi).
    { pose proof (proj2 (inv_delimits db r ix Hidx (bin_of db x) i Hbr Hi)) as Hd.
      rewrite Hk in Hd. specialize (Hd eq_refl). subst lo hi. lia. }
    destruct res as [p|].
    + destruct Hspec as (i' & Hi' & Hk' & Hp).
      destruct (window_bin db r ix Hidx _ i' Hbr Hi') as [Hr' _].
      exists p, i'. split; [reflexivity|]. split; [assumption|].
      split; [assumption|].
      rewrite Hp. apply (load_value_returns db r Hm). assumption.
    + exfalso. apply (Hspec i Hin Hk).
  - intros Hnone. destruct res as [p|]; [|reflexivity].
    destruct Hspec as (i & Hi & Hk & _). exfalso.
    destruct (window_bin db r ix Hidx _ i Hbr Hi) as [Hr' _].
    apply (Hnone i); assumption.
Qed.

Lemma kmer_query_small_bins_witness :
  (forall i, 0 <= i < key_ct example_bound_db ->
     stored_key example_bound_db example_file i = 0x1B ->
     exists p i',
       kmer_query_1 true example_bound_db 0x1B empty_memory
       = Ret (Some p, empty_memory) /\
       0 <= i' < key_ct example_bound_db /\
       stored_key example_bound_db example_file i' = 0x1B /\
       load_value example_bound_db p
       = Ret (stored_value example_bound_db example_file i'))
  /\ ((forall i, 0 <= i < key_ct example_bound_db ->
         stored_key example_bound_db example_file i <> 0x1B) ->
      kmer_query_1 true example_bound_db 0x1B empty_memory
      = Ret (None, empty_memory)).
Proof.
  apply (kmer_query_small_bins true example_bound_db example_file example_index
           0x1B empty_memory).
  - exact example_db_bound.
  - cbn. lia.
  - exact example_index_invariants.
  - intros b Hb. change (4 ^ nt example_index) with 16 in Hb.
    range_cases b 16%nat ltac:(vm_compute; discriminate).
Defined.

(* ================================================================== *)
(** * Only canonical k-mers are found *)

(** X14.  The pair array holds canonical k-mers, and the lookup compares its
    argument as it is: on a well-formed database a k-mer that differs from
    its canonical form gives [NULL], whatever is stored; the caller has to
    pass [canonical_representation(kmer)]. *)
Theorem kmer_query_needs_canonical (TESTING : bool) (db : KrakenDB) (r : region)
        (ix : KrakenDBIndex) (x c : Z) (m : memory) :
  db_bound db r ix -> key_bits db < 64 ->
  pair_array_invariants db r -> index_invariants db r ix ->
  canonical_representation x (k db) = Ret c -> c <> x ->
  kmer_query_1 TESTING db x m = Ret (None, m).
Proof.
  intros Hb Hkb Hinv Hidx Hc Hne.
  apply (stateless_lookup_spec TESTING db r ix x m Hb Hkb Hinv Hidx).
  intros i Hi Hk.
  pose proof (inv_canonical db r Hinv i Hi) as Hcan.
  rewrite Hk, Hc in Hcan. injection Hcan as Heq. contradiction.
Qed.

Lemma kmer_query_needs_canonical_witness :
  kmer_query_1 true example_bound_db 0xFF empty_memory = Ret (None, empty_memory).
Proof.
  apply (kmer_query_needs_canonical true example_bound_db example_file example_index
           0xFF 0 empty_memory).
  - exact example_db_bound.
  - cbn. lia.
  - exact example_pair_array.
  - exact example_index_invariants.
  - reflexivity.
  - lia.
Defined.

(* ================================================================== *)
(** * [FAST_COPY] and [memcpy] read the same key *)

Lemma le_value_app l1 l2 :
  le_value (l1 ++ l2) = le_value l1 + 256 ^ Z.of_nat (List.length l1) * le_value l2.
Proof.
  induction l1 as [|b l1 IH]; cbn [app le_value List.length].
  - change (256 ^ Z.of_nat 0) with 1. lia.
  - rewrite IH, Nat2Z.inj_succ, Z.pow_succ_r by lia. lia.
Qed.

Lemma le_value_zeros n : le_value (repeat x00 n) = 0.
Proof.
  induction n as [|n IH]; [reflexivity|].
  cbn [repeat le_value]. rewrite IH. reflexivity.
Qed.

(** One iteration of the copy loop. *)
Lemma FAST_COPY_from_step fuel done src off nbytes b :
  Z.of_nat (List.length done) < nbytes ->
  (List.length done < 8)%nat ->
  nth_error src (Z.to_nat (off + Z.of_nat (List.length done))) = Some b ->
  FAST_COPY_from (S fuel) (copied done) src off nbytes (Z.of_nat (List.length done))
  = FAST_COPY_from fuel (copied (done ++ [b])) src off nbytes
      (Z.of_nat (List.length (done ++ [b]))).
Proof.
  intros Hlt H8 Hb. cbn [FAST_COPY_from].
  replace (Z.of_nat (List.length done) <? nbytes) with true
    by (symmetry; apply Z.ltb_lt; lia).
  rewrite Hb.
  assert (Hl : List.length (copied done) = 8%nat)
    by (unfold copied; rewrite length_app, repeat_length; lia).
  rewrite Hl.
  replace (Z.of_nat (List.length done) <? Z.of_nat 8) with true
    by (symmetry; apply Z.ltb_lt; lia).
  replace (Z.of_nat (List.length done) + 1 <? 2 ^ 31) with true
    by (symmetry; apply Z.ltb_lt; change (2 ^ 31) with 2147483648; lia).
  rewrite Nat2Z.id.
  replace (Z.of_nat (List.length done) + 1) with (Z.of_nat (List.length (done ++ [b])))
    by (rewrite length_app; cbn [List.length]; lia).
  f_equal. unfold copied.
  rewrite firstn_app, firstn_all, Nat.sub_diag, firstn_O, app_nil_r.
  rewrite skipn_app, (skipn_all2 done) by lia. cbn [app].
  replace (S (List.length done) - List.length done)%nat with 1%nat by lia.
  rewrite length_app. cbn [List.length].
  replace (8 - List.length done)%nat
    with (S (8 - (List.length done + 1)))%nat by lia.
  cbn [repeat skipn]. rewrite <- app_assoc. reflexivity.
Qed.

Lemma firstn_snoc {A : Type} (l : list A) : forall n b,
  nth_error l n = Some b -> firstn (S n) l = firstn n l ++ [b].
Proof.
  induction l as [|a l IH]; intros [|n] b H; cbn in H; try discriminate H.
  - injection H as ->. reflexivity.
  - cbn [firstn app]. f_equal. apply IH. assumption.
Qed.

Lemma prefix_snoc (src : list byte) off done b :
  done = firstn (List.length done) (skipn off src) ->
  nth_error src (off + List.length done) = Some b ->
  done ++ [b] = firstn (List.length (done ++ [b])) (skipn off src).
Proof.
  intros Hdone Hb. rewrite length_app. cbn [List.length].
  rewrite Nat.add_1_r.
  rewrite (firstn_snoc _ (List.length done) b), <- Hdone; [reflexivity|].
  rewrite nth_error_skipn. assumption.
Qed.

Lemma FAST_COPY_from_ok fuel src off nbytes :
  0 <= off -> nbytes <= 8 -> off + nbytes <= Z.of_nat (List.length src) ->
  forall done,
    Z.of_nat (List.length done) <= nbytes ->
    done = firstn (List.length done) (skipn (Z.to_nat off) src) ->
    (Z.to_nat (nbytes - Z.of_nat (List.length done)) < fuel)%nat ->
    FAST_COPY_from fuel (copied done) src off nbytes (Z.of_nat (List.length done))
    = Ret (copied (firstn (Z.to_nat nbytes) (skipn (Z.to_nat off) src))).
Proof.
  intros Hoff H8 Hsrc.
  induction fuel as [|fuel IH]; intros done Hle Hdone Hfuel; [lia|].
  destruct (Z.eq_dec (Z.of_nat (List.length done)) nbytes) as [Heq|Hne].
  - cbn [FAST_COPY_from].
    replace (Z.of_nat (List.length done) <? nbytes) with false
      by (symmetry; apply Z.ltb_ge; lia).
    rewrite <- Heq, Nat2Z.id, <- Hdone. reflexivity.
  - destruct (nth_error src (Z.to_nat (off + Z.of_nat (List.length done))))
      as [b|] eqn:Hb.
    + rewrite (FAST_COPY_from_step fuel done src off nbytes b) by (assumption || lia).
      apply IH.
      * rewrite length_app. cbn [List.length]. lia.
      * apply prefix_snoc; [assumption|].
        rewrite <- Hb. f_equal. lia.
      * rewrite length_app. cbn [List.length]. lia.
    + apply nth_error_None in Hb. lia.
Qed.

Lemma FAST_COPY_from_bad fuel src off nbytes :
  0 <= off -> 8 < nbytes \/ Z.of_nat (List.length src) < off + nbytes ->
  forall done,
    Z.of_nat (List.length done) < nbytes -> (List.length done <= 8)%nat ->
    (Z.to_nat (off + Z.of_nat (List.length done)) <= List.length src)%nat ->
    (Z.to_nat (nbytes - Z.of_nat (List.length done)) < fuel)%nat ->
    FAST_COPY_from fuel (copied done) src off nbytes (Z.of_nat (List.length done))
    = Undef.
Proof.
  intros Hoff Hbad.
  induction fuel as [|fuel IH]; intros done Hlt H8 Hin Hfuel; [lia|].
  destruct (nth_error src (Z.to_nat (off + Z.of_nat (List.length done))))
    as [b|] eqn:Hb.
  - assert (Hs : (Z.to_nat (off + Z.of_nat (List.length done)) < List.length src)%nat)
      by (apply nth_error_Some; rewrite Hb; discriminate).
    destruct (Nat.eq_dec (List.length done) 8) as [Hfull|Hroom].
    + cbn [FAST_COPY_from].
      replace (Z.of_nat (List.length done) <? nbytes) with true
        by (symmetry; apply Z.ltb_lt; lia).
      rewrite Hb.
      assert (Hl : List.length (copied done) = 8%nat)
        by (unfold copied; rewrite length_app, repeat_length; lia).
      rewrite Hl.
      replace (Z.of_nat (List.length done) <? Z.of_nat 8) with false
        by (symmetry; apply Z.ltb_ge; lia).
      reflexivity.
    + rewrite (FAST_COPY_from_step fuel done src off nbytes b) by (assumption || lia).
      apply IH; rewrite length_app; cbn [List.length]; lia.
  - cbn [FAST_COPY_from].
    replace (Z.of_nat (List.length done) <? nbytes) with true
      by (symmetry; apply Z.ltb_lt; lia).
    rewrite Hb. reflexivity.
Qed.

(** X17.  [kmer_query] reads a key with [FAST_COPY] and [make_index] with
    [memcpy]: both give a zeroed [uint64_t] the same value, the
    little-endian number of the bytes, and both are undefined for more than 8
    bytes or bytes outside the mapped file. *)
Theorem FAST_COPY_is_memcpy (src : region) (off nbytes : Z) :
  0 <= off <= Z.of_nat (List.length src) -> 0 <= nbytes ->
  FAST_COPY src off nbytes = load_le src off nbytes
  /\ (nbytes <= 8 -> off + nbytes <= Z.of_nat (List.length src) ->
      FAST_COPY src off nbytes = Ret (word_at src off nbytes))
  /\ (8 < nbytes \/ Z.of_nat (List.length src) < off + nbytes ->
      FAST_COPY src off nbytes = Undef).
Proof.
  intros Hoff Hn.
  assert (Hok : nbytes <= 8 -> off + nbytes <= Z.of_nat (List.length src) ->
                FAST_COPY src off nbytes = Ret (word_at src off nbytes)).
  { intros H8 Hs. unfold FAST_COPY.
    replace (off <? 0) with false by (symmetry; apply Z.ltb_ge; lia).
    pose proof (FAST_COPY_from_ok (S (Z.to_nat nbytes)) src off nbytes
                  ltac:(lia) H8 Hs [] ltac:(cbn; lia) eq_refl ltac:(cbn; lia)) as H.
    change (FAST_COPY_from (S (Z.to_nat nbytes)) (repeat x00 8) src off nbytes 0
            = Ret (copied (firstn (Z.to_nat nbytes) (skipn (Z.to_nat off) src))))
      in H.
    rewrite H. cbn [bind]. f_equal.
    unfold copied. rewrite le_value_app, le_value_zeros. unfold word_at, bytes_at.
    lia. }
  assert (Hbad : 8 < nbytes \/ Z.of_nat (List.length src) < off + nbytes ->
                 FAST_COPY src off nbytes = Undef).
  { intros Hb. unfold FAST_COPY.
    replace (off <? 0) with false by (symmetry; apply Z.ltb_ge; lia).
    pose proof (FAST_COPY_from_bad (S (Z.to_nat nbytes)) src off nbytes
                  ltac:(lia) Hb [] ltac:(cbn; lia) ltac:(cbn; lia)
                  ltac:(cbn; lia) ltac:(cbn; lia)) as H.
    change (FAST_COPY_from (S (Z.to_nat nbytes)) (repeat x00 8) src off nbytes 0
            = Undef) in H.
    rewrite H. reflexivity. }
  split; [|split; assumption].
  destruct (Z_le_dec nbytes 8) as [H8|H8].
  - destruct (Z_le_dec (off + nbytes) (Z.of_nat (List.length src))) as [Hs|Hs].
    + rewrite Hok by assumption. symmetry. apply load_le_ok; lia.
    + rewrite Hbad by lia. unfold load_le, read_bytes.
      replace (8 <? nbytes) with false by (symmetry; apply Z.ltb_ge; lia).
      replace (off + nbytes <=? Z.of_nat (List.length src)) with false
        by (symmetry; apply Z.leb_gt; lia).
      rewrite andb_false_r. reflexivity.
  - rewrite Hbad by lia. unfold load_le.
    replace (8 <? nbytes) with true by (symmetry; apply Z.ltb_lt; lia).
    reflexivity.
Qed.

Lemma FAST_COPY_is_memcpy_witness :
  FAST_COPY example_file 213 1 = load_le example_file 213 1
  /\ (1 <= 8 -> 213 + 1 <= Z.of_nat (List.length example_file) ->
      FAST_COPY example_file 213 1 = Ret (word_at example_file 213 1))
  /\ (8 < 1 \/ Z.of_nat (List.length example_file) < 213 + 1 ->
      FAST_COPY example_file 213 1 = Undef).
Proof.
  apply (FAST_COPY_is_memcpy example_file 213 1); cbn; lia.
Defined.

(* ================================================================== *)
(** * The encoders as base-4 numbers modulo the word size *)

Lemma lor_step_mod w acc b :
  2 <= w -> 0 <= acc -> 0 <= b < 4 ->
  Z.lor (Z.shiftl acc 2 mod 2 ^ w) b = (4 * acc + b) mod 2 ^ w.
Proof.
  intros Hw Hacc Hb.
  assert (Hp : 0 < 2 ^ (w - 2)) by (apply Z.pow_pos_nonneg; lia).
  assert (H2w : 2 ^ w = 4 * 2 ^ (w - 2)).
  { replace w with (2 + (w - 2)) at 1 by lia. rewrite Z.pow_add_r by lia.
    reflexivity. }
  rewrite Z.shiftl_mul_pow2 by lia. change (2 ^ 2) with 4.
  rewrite H2w, (Z.mul_comm acc 4), Z.mul_mod_distr_l by lia.
  pose proof (Z.mod_pos_bound acc (2 ^ (w - 2)) Hp) as Hu.
  rewrite (Z.mul_comm 4 (acc mod _)).
  change 4 with (2 ^ 2) at 1. rewrite <- Z.shiftl_mul_pow2 by lia.
  rewrite lor_low by (try lia; change (2 ^ 2) with 4; lia).
  change (2 ^ 2) with 4.
  apply Z.mod_unique with (q := acc / 2 ^ (w - 2)); [lia|].
  pose proof (Z.div_mod acc (2 ^ (w - 2)) ltac:(lia)). lia.
Qed.

Lemma mod_step M acc b :
  0 < M -> (4 * (acc mod M) + b) mod M = (4 * acc + b) mod M.
Proof.
  intros HM.
  rewrite <- (Z.add_mod_idemp_l (4 * (acc mod M))) by lia.
  rewrite Z.mul_mod_idemp_r by lia.
  rewrite Z.add_mod_idemp_l by lia. reflexivity.
Qed.

Lemma string_to_kmer_from_value s :
  forall acc,
    valid_dna s = true -> 0 <= acc ->
    string_to_kmer_from s (acc mod 2 ^ 64) = Ret (dna_value_from s acc mod 2 ^ 64).
Proof.
  induction s as [|c rest IH]; intros acc Hv Hacc; [reflexivity|].
  cbn [valid_dna] in Hv.
  rewrite string_to_kmer_from_cons. cbn [dna_value_from].
  destruct (base_of c) as [b|] eqn:Hc; [|discriminate Hv].
  pose proof (base_of_range c b Hc) as Hb.
  pose proof (Z.mod_pos_bound acc (2 ^ 64) ltac:(lia)) as Hm.
  unfold wrap64. rewrite lor_step_mod by lia.
  rewrite mod_step by lia. apply IH; [assumption|lia].
Qed.

Lemma string_to_kmer128_from_cons c rest acc :
  string_to_kmer128_from (String c rest) acc =
  match base_of c with
  | Some b => string_to_kmer128_from rest (Z.lor (wrap128 (Z.shiftl acc 2)) b)
  | None => Errx 1 "Invalid character in DNA string"
  end.
Proof.
  cbn [string_to_kmer128_from]. unfold base_of.
  destruct (Ascii.eqb c "A" || Ascii.eqb c "a")%bool; [reflexivity|].
  destruct (Ascii.eqb c "C" || Ascii.eqb c "c")%bool; [reflexivity|].
  destruct (Ascii.eqb c "G" || Ascii.eqb c "g")%bool; [reflexivity|].
  destruct (Ascii.eqb c "T" || Ascii.eqb c "t")%bool; reflexivity.
Qed.

Lemma string_to_kmer128_from_value s :
  forall acc,
    valid_dna s = true -> 0 <= acc ->
    string_to_kmer128_from s (acc mod 2 ^ 128)
    = Ret (dna_value_from s acc mod 2 ^ 128).
Proof.
  induction s as [|c rest IH]; intros acc Hv Hacc; [reflexivity|].
  cbn [valid_dna] in Hv.
  rewrite string_to_kmer128_from_cons. cbn [dna_value_from].
  destruct (base_of c) as [b|] eqn:Hc; [|discriminate Hv].
  pose proof (base_of_range c b Hc) as Hb.
  pose proof (Z.mod_pos_bound acc (2 ^ 128) ltac:(lia)) as Hm.
  unfold wrap128. rewrite lor_step_mod by lia.
  rewrite mod_step by lia. apply IH; [assumption|lia].
Qed.

Lemma string_to_kmer_from_invalid s :
  forall acc,
    valid_dna s = false ->
    string_to_kmer_from s acc = Errx 1 "Invalid character in DNA string"
    /\ string_to_kmer128_from s acc = Errx 1 "Invalid character in DNA string".
Proof.
  induction s as [|c rest IH]; intros acc Hv; [discriminate Hv|].
  cbn [valid_dna] in Hv.
  rewrite string_to_kmer_from_cons, string_to_kmer128_from_cons.
  destruct (base_of c) as [b|]; [|split; reflexivity].
  split; apply IH; assumption.
Qed.

Lemma dna_value_from_shift s :
  forall acc,
    valid_dna s = true ->
    dna_value_from s acc
    = acc * 4 ^ Z.of_nat (String.length s) + dna_value_from s 0.
Proof.
  induction s as [|c rest IH]; intros acc Hv.
  - cbn. lia.
  - cbn [valid_dna] in Hv. cbn [dna_value_from String.length].
    destruct (base_of c) as [b|]; [|discriminate Hv].
    rewrite pow4_S.
    rewrite (IH (4 * acc + b) Hv), (IH (4 * 0 + b) Hv). lia.
Qed.

Lemma dna_value_from_range s :
  valid_dna s = true ->
  0 <= dna_value_from s 0 < 4 ^ Z.of_nat (String.length s).
Proof.
  induction s as [|c rest IH]; intros Hv.
  - cbn. lia.
  - cbn [valid_dna] in Hv. cbn [dna_value_from String.length].
    destruct (base_of c) as [b|] eqn:Hc; [|discriminate Hv].
    pose proof (base_of_range c b Hc) as Hb.
    rewrite pow4_S, dna_value_from_shift by assumption.
    specialize (IH Hv). nia.
Qed.

Lemma dna_value_from_app s1 :
  forall s2 acc,
    valid_dna s1 = true ->
    dna_value_from (s1 ++ s2) acc = dna_value_from s2 (dna_value_from s1 acc).
Proof.
  induction s1 as [|c rest IH]; intros s2 acc Hv; [reflexivity|].
  cbn [valid_dna] in Hv. cbn [append dna_value_from].
  destruct (base_of c) as [b|]; [|discriminate Hv].
  apply IH. assumption.
Qed.

Lemma valid_dna_app s1 s2 :
  valid_dna (s1 ++ s2) = valid_dna s1 && valid_dna s2.
Proof.
  induction s1 as [|c rest IH]; [reflexivity|].
  cbn [append valid_dna]. destruct (base_of c); [assumption|reflexivity].
Qed.

Lemma dna_value_from_upcase s :
  forall acc,
    valid_dna s = true ->
    dna_value_from (string_map upcase s) acc = dna_value_from s acc.
Proof.
  induction s as [|c rest IH]; intros acc Hv; [reflexivity|].
  cbn [valid_dna] in Hv. cbn [string_map dna_value_from].
  destruct (base_of c) as [b|] eqn:Hc; [|discriminate Hv].
  rewrite (upcase_base c b Hc).
  rewrite base_of_char by (apply (base_of_range c); assumption).
  apply IH. assumption.
Qed.

Lemma string_to_kmer_dna_value s :
  valid_dna s = true -> string_to_kmer s = Ret (dna_value s mod 2 ^ 64).
Proof.
  intros Hv. unfold string_to_kmer, dna_value.
  apply (string_to_kmer_from_value s 0 Hv). lia.
Qed.

Lemma string_to_kmer128_dna_value s :
  valid_dna s = true -> string_to_kmer128 s = Ret (dna_value s mod 2 ^ 128).
Proof.
  intros Hv. unfold string_to_kmer128, dna_value.
  apply (string_to_kmer128_from_value s 0 Hv). lia.
Qed.

Lemma dna_value_app s1 s2 :
  valid_dna s1 = true -> valid_dna s2 = true ->
  dna_value (s1 ++ s2)
  = dna_value s1 * 4 ^ Z.of_nat (String.length s2) + dna_value s2.
Proof.
  intros H1 H2. unfold dna_value.
  rewrite dna_value_from_app, dna_value_from_shift by assumption. reflexivity.
Qed.

(** X20.  [string_to_kmer] ends the process with [exit(1)] exactly when a character
    is none of A, C, G, T in either case; otherwise it returns a 64-bit
    value, the same for lower and upper case; and of a string longer than 32
    nucleotides only the last 32 are kept. *)
Theorem string_to_kmer_errors_and_overflow (s : string) :
  (valid_dna s = false ->
   string_to_kmer s = Errx 1 "Invalid character in DNA string")
  /\ (valid_dna s = true ->
      exists x,
        string_to_kmer s = Ret x /\ 0 <= x < 2 ^ 64 /\
        string_to_kmer (string_map upcase s) = Ret x /\
        (String.length s = 32%nat ->
         forall s0, valid_dna s0 = true -> string_to_kmer (s0 ++ s) = Ret x)).
Proof.
  split.
  - intros Hv. apply (string_to_kmer_from_invalid s 0 Hv).
  - intros Hv. exists (dna_value s mod 2 ^ 64).
    split; [apply string_to_kmer_dna_value; assumption|].
    split; [apply Z.mod_pos_bound; lia|].
    split.
    + rewrite string_to_kmer_dna_value by (apply string_map_upcase_valid; assumption).
      unfold dna_value. rewrite dna_value_from_upcase by assumption. reflexivity.
    + intros Hlen s0 Hv0.
      rewrite string_to_kmer_dna_value
        by (rewrite valid_dna_app, Hv0, Hv; reflexivity).
      rewrite dna_value_app by assumption. rewrite Hlen.
      change (4 ^ Z.of_nat 32) with (2 ^ 64).
      rewrite Z.add_comm, Z.mod_add by lia. reflexivity.
Qed.

(** X22.  The low word of [string_to_kmer128] is [string_to_kmer], for every
    string; and the 128-bit code of at most 32 nucleotides followed by
    exactly 32 has the code of the former as its high word and the code of
    the latter as its low word. *)
Theorem string_to_kmer128_words (s : string) :
  string_to_kmer s = (x <- string_to_kmer128 s ;; Ret (x mod 2 ^ 64))
  /\ (forall s1 s2 hi lo,
        s = (s1 ++ s2)%string ->
        (String.length s1 <= 32)%nat -> String.length s2 = 32%nat ->
        string_to_kmer s1 = Ret hi -> string_to_kmer s2 = Ret lo ->
        string_to_kmer128 s = Ret (hi * 2 ^ 64 + lo)).
Proof.
  split.
  - destruct (valid_dna s) eqn:Hv.
    + rewrite string_to_kmer_dna_value, string_to_kmer128_dna_value by assumption.
      cbn [bind]. f_equal.
      change (2 ^ 128) with (2 ^ 64 * 2 ^ 64).
      rewrite Z.rem_mul_r by lia.
      rewrite Z.mul_comm, Z.mod_add by lia. rewrite Z.mod_mod by lia. reflexivity.
    + destruct (string_to_kmer_from_invalid s 0 Hv) as [H1 H2].
      unfold string_to_kmer, string_to_kmer128. rewrite H1, H2. reflexivity.
  - intros s1 s2 hi lo -> Hl1 Hl2 Hhi Hlo.
    assert (Hv1 : valid_dna s1 = true).
    { destruct (valid_dna s1) eqn:E; [reflexivity|].
      unfold string_to_kmer in Hhi.
      rewrite (proj1 (string_to_kmer_from_invalid s1 0 E)) in Hhi. discriminate Hhi. }
    assert (Hv2 : valid_dna s2 = true).
    { destruct (valid_dna s2) eqn:E; [reflexivity|].
      unfold string_to_kmer in Hlo.
      rewrite (proj1 (string_to_kmer_from_invalid s2 0 E)) in Hlo. discriminate Hlo. }
    rewrite string_to_kmer_dna_value in Hhi, Hlo by assumption.
    pose proof (dna_value_from_range s1 Hv1) as Hr1.
    pose proof (dna_value_from_range s2 Hv2) as Hr2.
    fold (dna_value s1) in Hr1. fold (dna_value s2) in Hr2.
    rewrite Hl2 in Hr2. change (4 ^ Z.of_nat 32) with (2 ^ 64) in Hr2.
    assert (H1 : 4 ^ Z.of_nat (String.length s1) <= 2 ^ 64).
    { rewrite pow4_pow2 by lia. apply Z.pow_le_mono_r; lia. }
    rewrite Z.mod_small in Hhi, Hlo by lia.
    injection Hhi as <-. injection Hlo as <-.
    rewrite string_to_kmer128_dna_value
      by (rewrite valid_dna_app, Hv1, Hv2; reflexivity).
    rewrite dna_value_app by assumption. rewrite Hl2.
    change (4 ^ Z.of_nat 32) with (2 ^ 64).
    f_equal. apply Z.mod_small.
    change (2 ^ 128) with (2 ^ 64 * 2 ^ 64). nia.
Qed.

(* ================================================================== *)
(** * Printing a 128-bit number *)

Lemma to_string_digit d :
  0 <= d <= 9 ->
  exists c, to_string (wrap64 d) = String c EmptyString /\
            Z.of_nat (nat_of_ascii c) - 48 = d.
Proof.
  intros Hd. exists (ascii_of_nat (48 + Z.to_nat d)).
  rewrite wrap64_small by (change (2 ^ 64) with 18446744073709551616; lia).
  split.
  - unfold to_string. cbn [to_string_from].
    replace (d <? 10) with true by (symmetry; apply Z.ltb_lt; lia).
    rewrite Z.mod_small by lia. reflexivity.
  - rewrite nat_ascii_embedding by lia. lia.
Qed.

Lemma decimal_value_from_app s1 :
  forall s2 acc,
    decimal_value_from (s1 ++ s2) acc
    = match decimal_value_from s1 acc with
      | Some v => decimal_value_from s2 v
      | None => None
      end.
Proof.
  induction s1 as [|c rest IH]; intros s2 acc; [reflexivity|].
  cbn [append decimal_value_from].
  destruct (_ && _); [apply IH|reflexivity].
Qed.

Lemma string_append_assoc (s1 s2 s3 : string) :
  (s1 ++ s2 ++ s3 = (s1 ++ s2) ++ s3)%string.
Proof.
  induction s1 as [|a s1 IH]; [reflexivity|]. cbn [append]. rewrite IH. reflexivity.
Qed.

Lemma pow10_S n : 10 ^ Z.of_nat (S n) = 10 * 10 ^ Z.of_nat n.
Proof. rewrite Nat2Z.inj_succ, Z.pow_succ_r by lia. reflexivity. Qed.

Lemma pow10_pos n : 0 < 10 ^ Z.of_nat n.
Proof. apply Z.pow_pos_nonneg; lia. Qed.

(** The loop writes the digits of [temp], most significant first, before
    [result]. *)
Lemma uint128_to_string_loop_spec fuel :
  forall temp result,
    0 <= temp < 10 ^ Z.of_nat (pred fuel) -> (0 < fuel)%nat ->
    exists s,
      uint128_to_string_loop fuel temp result = Ret (s ++ result)%string /\
      (String.length s < fuel)%nat /\
      (forall acc, decimal_value_from s acc
                   = Some (acc * 10 ^ Z.of_nat (String.length s) + temp)) /\
      match s with
      | EmptyString => temp = 0
      | String c _ => c <> "0"%char /\ 10 ^ Z.of_nat (pred (String.length s)) <= temp
      end.
Proof.
  induction fuel as [|fuel IH]; intros temp result Ht Hf; [lia|].
  cbn [uint128_to_string_loop]. cbn [pred] in Ht.
  destruct (Z.gtb_spec temp 0) as [Hpos|Hzero].
  - destruct fuel as [|fuel]; [cbn in Ht; lia|].
    cbn [pred] in IH. rewrite pow10_S in Ht.
    pose proof (pow10_pos fuel) as Hp.
    assert (Hq : 0 <= temp / 10 < 10 ^ Z.of_nat fuel).
    { split; [apply Z.div_pos; lia|apply Z.div_lt_upper_bound; lia]. }
    pose proof (Z.mod_pos_bound temp 10 ltac:(lia)) as Hr.
    destruct (to_string_digit (temp mod 10) ltac:(lia)) as (c & Hc & Hcd).
    rewrite Hc.
    destruct (IH (temp / 10) (String c EmptyString ++ result)%string Hq ltac:(lia))
      as (s & Hs & Hlen & Hval & Hlead).
    exists (s ++ String c EmptyString)%string.
    assert (Hl : String.length (s ++ String c EmptyString)
                 = S (String.length s)).
    { clear. induction s as [|a s IHs]; [reflexivity|]. cbn. rewrite IHs. reflexivity. }
    split; [|split; [|split]].
    + rewrite Hs. f_equal. apply string_append_assoc.
    + rewrite Hl. lia.
    + intros acc. rewrite decimal_value_from_app, Hval, Hl, pow10_S.
      cbn [decimal_value_from]. rewrite Hcd.
      replace ((0 <=? temp mod 10) && (temp mod 10 <=? 9)) with true
        by (symmetry; apply andb_true_iff; split; apply Z.leb_le; lia).
      f_equal. pose proof (Z.div_mod temp 10 ltac:(lia)). lia.
    + destruct s as [|a s].
      * cbn [append String.length pred]. change (10 ^ Z.of_nat 0) with 1.
        split; [|lia]. intros ->.
        change (Z.of_nat (nat_of_ascii "0") - 48) with 0 in Hcd.
        pose proof (Z.div_mod temp 10 ltac:(lia)). lia.
      * cbn [append]. destruct Hlead as [Ha Hge].
        split; [assumption|].
        change (String.length (String a (s ++ String c EmptyString)))
          with (String.length (String a s ++ String c EmptyString)).
        rewrite Hl. cbn [pred]. cbn [String.length pred] in Hge.
        cbn [String.length]. rewrite pow10_S.
        pose proof (Z.div_mod temp 10 ltac:(lia)). lia.
  - exists EmptyString. cbn [append String.length].
    split; [reflexivity|]. split; [lia|]. split; [|lia].
    intros acc. cbn [decimal_value_from]. f_equal.
    change (10 ^ Z.of_nat 0) with 1. lia.
Qed.

(** X23.  [uint128_to_string] writes the decimal notation of every 128-bit value:
    one to 39 digits, no leading zero except for the number 0 itself, and
    read as a decimal number they give the value back. *)
Theorem uint128_to_string_decimal (value : Z) :
  0 <= value < 2 ^ 128 ->
  exists s,
    uint128_to_string value = Ret s /\
    decimal_value s = Some value /\
    (1 <= String.length s <= 39)%nat /\
    (value = 0 -> s = "0"%string) /\
    (value <> 0 -> exists c rest, s = String c rest /\ c <> "0"%char).
Proof.
  intros Hv. unfold uint128_to_string.
  destruct (Z.eqb_spec value 0) as [->|Hne].
  - exists "0"%string. repeat split; try reflexivity; cbn; lia.
  - assert (H39 : 2 ^ 128 < 10 ^ Z.of_nat (pred 40)) by reflexivity.
    destruct (uint128_to_string_loop_spec 40 value EmptyString ltac:(lia) ltac:(lia))
      as (s & Hs & Hlen & Hval & Hlead).
    rewrite append_empty_r in Hs.
    exists s. split; [assumption|].
    split; [unfold decimal_value; rewrite Hval; f_equal; lia|].
    destruct s as [|c rest]; [lia|].
    split; [cbn [String.length] in *; lia|].
    split; [intros; contradiction|].
    intros _. exists c, rest. split; [reflexivity|apply Hlead].
Qed.

Lemma uint128_to_string_decimal_witness :
  exists s,
    uint128_to_string (2 ^ 100 + 7) = Ret s /\
    decimal_value s = Some (2 ^ 100 + 7) /\
    (1 <= String.length s <= 39)%nat /\
    (2 ^ 100 + 7 = 0 -> s = "0"%string) /\
    (2 ^ 100 + 7 <> 0 -> exists c rest, s = String c rest /\ c <> "0"%char).
Proof.
  apply (uint128_to_string_decimal (2 ^ 100 + 7)). split; [lia|reflexivity].
Defined.

(* ================================================================== *)
(** * Minimizer lengths [make_index] cannot build an index for *)

Lemma vec_incr_out v : forall i, (List.length v <= i)%nat -> vec_incr v i = Undef.
Proof.
  induction v as [|c t IH]; intros i Hi; [reflexivity|].
  destruct i as [|i]; cbn [List.length] in Hi; [lia|].
  cbn [vec_incr]. rewrite IH by lia. reflexivity.
Qed.

Lemma wrap8_small z : 0 <= z < 256 -> wrap8 z = z.
Proof. intros Hz. unfold wrap8. apply Z.mod_small. change (2 ^ 8) with 256. lia. Qed.

Lemma shl_u64_undef a n : 64 <= n -> shl_u64 a n = Undef.
Proof.
  intros Hn. unfold shl_u64.
  replace (n <? 64) with false by (symmetry; apply Z.ltb_ge; lia).
  rewrite andb_false_r. reflexivity.
Qed.

(** X11.  [make_index] does not check [nt].  On a database that holds a pair it has
    no defined result for [nt = 0], for [nt >= 16], and for [nt = k + 1]
    (where the bin key [~0] indexes outside the counters); for [nt >= 32]
    already the number of entries [1ull << (nt * 2)] is undefined, whatever
    the database. *)
Theorem make_index_unsupported (db : KrakenDB) (r : region) (nt_arg : Z) :
  db_mapped db r -> 0 < key_ct db -> 0 <= nt_arg < 256 ->
  (nt_arg = 0 \/ 16 <= nt_arg \/ nt_arg = key_bits db / 2 + 1 ->
   make_index db nt_arg = Undef)
  /\ (32 <= nt_arg -> forall db', make_index db' nt_arg = Undef).
Proof.
  intros Hm Hct Hnt.
  assert (Hbig : 32 <= nt_arg -> forall db', make_index db' nt_arg = Undef).
  { intros H32 db'. unfold make_index, make_index_offsets.
    rewrite shl_u64_undef by lia. reflexivity. }
  split; [|assumption].
  intros Hcase.
  destruct (Z_le_dec 32 nt_arg) as [H32|H32]; [apply Hbig; assumption|].
  assert (Hkb : 0 <= key_bits db < 2 ^ 64)
    by (destruct Hm; change (2 ^ 64) with 18446744073709551616; lia).
  unfold make_index, make_index_offsets.
  rewrite shl_u64_one by lia. cbn [bind]. cbv zeta.
  destruct (Z.to_nat (key_ct db)) as [|n] eqn:Hn; [lia|].
  cbn [count_bins].
  change (0 * pair_size db) with 0.
  replace 0 with (pair_size db * 0) at 1 by lia.
  rewrite (db_load_key db r 0 Hm) by lia. cbn [bind].
  destruct (Z_le_dec 1 nt_arg) as [H1|H1]; [destruct (Z_le_dec nt_arg 15) as [H15|H15]|].
  - (* nt = k + 1 *)
    assert (Heq : nt_arg = key_bits db / 2 + 1) by lia.
    rewrite bin_key_nt_returns by lia. cbn [bind].
    unfold bin_key_value.
    replace (key_bits db / 2 - nt_arg + 1) with 0 by lia.
    change (Z.to_nat (wrap64 0)) with 0%nat. cbn [bin_key_loop_value].
    rewrite vec_incr_out; [reflexivity|].
    rewrite repeat_length.
    pose proof (pow2_mono (nt_arg * 2) 30 ltac:(lia)).
    change (wrap64 (-1)) with (2 ^ 64 - 1).
    assert (2 ^ 30 < 2 ^ 64 - 1) by reflexivity. lia.
  - unfold bin_key_nt. cbv zeta.
    rewrite (wrap8_small nt_arg) by lia.
    rewrite (proj1 (bin_key_prelude_undef db _ nt_arg Hkb Hnt ltac:(lia))).
    reflexivity.
  - unfold bin_key_nt. cbv zeta.
    rewrite (wrap8_small nt_arg) by lia.
    rewrite (proj1 (bin_key_prelude_undef db _ nt_arg Hkb Hnt ltac:(lia))).
    reflexivity.
Qed.

Lemma make_index_unsupported_witness :
  (16 = 0 \/ 16 <= 16 \/ 16 = key_bits example_db / 2 + 1 ->
   make_index example_db 16 = Undef)
  /\ (32 <= 16 -> forall db', make_index db' 16 = Undef).
Proof.
  apply (make_index_unsupported example_db example_file 16).
  - exact example_db_mapped.
  - cbn. lia.
  - lia.
Defined.

(* ================================================================== *)
(** * The cached window of the stateful query *)

Lemma kmer_query_state_fresh TESTING db r ix kmer lbk mn mx :
  db_bound db r ix -> key_bits db < 64 -> index_invariants db r ix ->
  mn > mx ->
  exists res,
    kmer_query_state TESTING db kmer (lbk, mn, mx)
    = Ret (res, (bin_of db kmer, offset_entry ix (bin_of db kmer),
                 offset_entry ix (bin_of db kmer + 1) - 1)).
Proof.
  intros Hb Hkb Hidx Hgt.
  pose proof (bound_mapped db r ix Hb) as Hm.
  destruct (bin_key_bin_of db r ix Hb Hkb kmer) as [Hbk Hbr].
  set (b := bin_of db kmer) in *.
  destruct (window_bounds db r ix Hidx b Hbr) as [Hlo Hhi].
  pose proof (pow4_bounds (nt ix) (bound_nt db r ix Hb)) as Hp.
  assert (H30 : 2 ^ 30 < 2 ^ 64 - 1) by reflexivity.
  pose proof (key_ct_small db r Hm) as Hct.
  assert (H62 : 2 ^ 62 < 2 ^ 63) by reflexivity.
  destruct (window_search_spec db r Hm Hkb kmer _ _ Hlo Hhi) as (res0 & Hws & _).
  assert (Hat : forall idx, 0 <= idx <= 4 ^ nt ix ->
                  index_ptr_at TESTING db idx = Ret (offset_entry ix idx))
    by (intros; apply (index_ptr_at_returns TESTING db r ix); assumption).
  exists res0.
  unfold kmer_query_state, kmer_query.
  set (depth := 1%nat) at 1. clearbody depth.
  cbn [kmer_query_rec].
  unfold mbind, ret, lift, deref, assign, set_local, get_local.
  cbn [bind fst snd cells accesses state_memory state_cells].
  replace (mn <=? mx) with false by (symmetry; apply Z.leb_gt; lia).
  cbn [bind fst snd cells accesses state_memory state_cells].
  rewrite Hbk. cbn [bind fst snd].
  rewrite (wrap64_small (b + 1)) by lia.
  rewrite !Hat by lia.
  cbn [bind fst snd cells accesses update addr_eqb Nat.eqb andb].
  rewrite to_int64_small, to_int64_wrap by lia.
  rewrite Hws. cbn [bind fst snd].
  destruct res0 as [p|].
  - reflexivity.
  - cbn [bind fst snd cells accesses update addr_eqb Nat.eqb andb].
    rewrite Z.eqb_refl. reflexivity.
Qed.

(** X16.  The state of the stateful query stays in step with the index.  From a
    state that is empty ([min_pos > max_pos]) or holds the window of its
    cached bin key, a stateful query returns and leaves such a state; from an
    empty state it leaves the window of the bin of the k-mer it looked up;
    hence every state a caller can reach is of this kind. *)
Theorem kmer_query_state_keeps_window (TESTING : bool) (db : KrakenDB)
        (r : region) (ix : KrakenDBIndex) (st : query_state) (kmer : Z) :
  db_bound db r ix -> key_bits db < 64 -> index_invariants db r ix ->
  state_consistent db ix st ->
  (exists res st',
      kmer_query_state TESTING db kmer st = Ret (res, st') /\
      state_consistent db ix st' /\
      (snd (fst st) > snd st ->
       st' = (bin_of db kmer, offset_entry ix (bin_of db kmer),
              offset_entry ix (bin_of db kmer + 1) - 1)))
  /\ (forall st0, reachable_state TESTING db st0 -> state_consistent db ix st0).
Proof.
  intros Hb Hkb Hidx Hst. split.
  - destruct (kmer_query_state_step TESTING db r ix Hb Hkb Hidx st kmer Hst)
      as (res & st' & _ & Hq & Hc).
    exists res, st'. split; [assumption|]. split; [assumption|].
    destruct st as [[lbk mn] mx]. cbn [fst snd]. intros Hgt.
    destruct (kmer_query_state_fresh TESTING db r ix kmer lbk mn mx Hb Hkb Hidx Hgt)
      as (res' & Hq').
    rewrite Hq in Hq'. injection Hq' as _ ->. reflexivity.
  - intros st0. apply (reachable_consistent TESTING db r ix Hb Hkb Hidx).
Qed.

Lemma kmer_query_state_keeps_window_witness :
  (exists res st',
      kmer_query_state true example_bound_db 0x55 (0, 1, 0) = Ret (res, st') /\
      state_consistent example_bound_db example_index st' /\
      (snd (fst (0, 1, 0)) > snd (0, 1, 0) ->
       st' = (bin_of example_bound_db 0x55,
              offset_entry example_index (bin_of example_bound_db 0x55),
              offset_entry example_index (bin_of example_bound_db 0x55 + 1) - 1)))
  /\ (forall st0, reachable_state true example_bound_db st0 ->
                  state_consistent example_bound_db example_index st0).
Proof.
  apply (kmer_query_state_keeps_window true example_bound_db example_file
           example_index (0, 1, 0) 0x55).
  - exact example_db_bound.
  - cbn. lia.
  - exact example_index_invariants.
  - left. lia.
Defined.

(* ================================================================== *)
(** * The order of k-mers is the lexicographic order of DNA strings *)

Lemma dna_value_cons c s b :
  base_of c = Some b -> valid_dna s = true ->
  dna_value (String c s) = b * 4 ^ Z.of_nat (String.length s) + dna_value s.
Proof.
  intros Hc Hv. unfold dna_value. cbn [dna_value_from]. rewrite Hc.
  rewrite dna_value_from_shift by assumption. lia.
Qed.

Lemma dna_value_lt s :
  forall t,
    valid_dna s = true -> valid_dna t = true ->
    String.length s = String.length t ->
    (dna_value s < dna_value t <-> dna_lt s t = true).
Proof.
  induction s as [|c s IH]; intros [|d t] Hs Ht Hl; try discriminate Hl.
  - cbn. split; [lia|discriminate].
  - cbn [valid_dna] in Hs, Ht. cbn [dna_lt].
    destruct (base_of c) as [a|] eqn:Hc; [|discriminate Hs].
    destruct (base_of d) as [b|] eqn:Hd; [|discriminate Ht].
    injection Hl as Hl.
    rewrite (dna_value_cons c s a Hc Hs), (dna_value_cons d t b Hd Ht), Hl.
    pose proof (dna_value_from_range s Hs) as Hrs.
    pose proof (dna_value_from_range t Ht) as Hrt.
    fold (dna_value s) in Hrs. fold (dna_value t) in Hrt. rewrite Hl in Hrs.
    pose proof (pow4_pos (String.length t)) as Hp.
    specialize (IH t Hs Ht Hl).
    destruct (Z.ltb_spec a b) as [Hlt|Hge]; cbn [orb].
    + split; [reflexivity|]. intros _. nia.
    + destruct (Z.eqb_spec a b) as [->|Hne]; cbn [andb].
      * rewrite <- IH. lia.
      * split; [|discriminate]. intros H. exfalso. nia.
Qed.

Lemma string_to_kmer_small s :
  valid_dna s = true -> (String.length s <= 32)%nat ->
  string_to_kmer s = Ret (dna_value s)
  /\ 0 <= dna_value s < 4 ^ Z.of_nat (String.length s).
Proof.
  intros Hv Hlen.
  pose proof (dna_value_from_range s Hv) as Hr. fold (dna_value s) in Hr.
  assert (H1 : 4 ^ Z.of_nat (String.length s) <= 2 ^ 64).
  { rewrite pow4_pow2 by lia. apply Z.pow_le_mono_r; lia. }
  split; [|assumption].
  rewrite string_to_kmer_dna_value by assumption.
  rewrite Z.mod_small by lia. reflexivity.
Qed.

Lemma kmer_to_string_dna_value s :
  valid_dna s = true -> (String.length s <= 32)%nat ->
  kmer_to_string (dna_value s) (Z.of_nat (String.length s)) = string_map upcase s.
Proof.
  intros Hv Hlen.
  assert (Hb : (0 + 1) * 4 ^ Z.of_nat (String.length s) <= 2 ^ 64).
  { rewrite pow4_pow2 by lia. rewrite Z.mul_1_l. apply Z.pow_le_mono_r; lia. }
  destruct (string_to_kmer_from_spec s 0 Hv ltac:(lia) Hb) as (x & Hx & _ & Hs).
  destruct (string_to_kmer_small s Hv Hlen) as [Hd _].
  unfold string_to_kmer in Hd. rewrite Hx in Hd. injection Hd as ->.
  unfold kmer_to_string. rewrite Nat2Z.id, Hs. apply append_empty_r.
Qed.

(** X21.  [string_to_kmer] preserves order: for two strings of the same length, at
    most 32, the codes compare as the strings do lexicographically (with
    A < C < G < T), and the codes are equal exactly when the strings are the
    same up to case. *)
Theorem string_to_kmer_preserves_order (s t : string) :
  valid_dna s = true -> valid_dna t = true ->
  String.length s = String.length t -> (String.length s <= 32)%nat ->
  exists x y,
    string_to_kmer s = Ret x /\ string_to_kmer t = Ret y /\
    (x < y <-> dna_lt s t = true) /\
    (x = y <-> string_map upcase s = string_map upcase t).
Proof.
  intros Hs Ht Hl Hlen.
  destruct (string_to_kmer_small s Hs Hlen) as [Hx _].
  destruct (string_to_kmer_small t Ht ltac:(lia)) as [Hy _].
  exists (dna_value s), (dna_value t).
  split; [assumption|]. split; [assumption|].
  split; [apply dna_value_lt; assumption|].
  split.
  - intros Heq.
    rewrite <- (kmer_to_string_dna_value s Hs Hlen).
    rewrite <- (kmer_to_string_dna_value t Ht ltac:(lia)).
    rewrite Heq, Hl. reflexivity.
  - intros Heq. unfold dna_value.
    rewrite <- (dna_value_from_upcase s 0 Hs), <- (dna_value_from_upcase t 0 Ht).
    rewrite Heq. reflexivity.
Qed.

Lemma string_to_kmer_preserves_order_witness :
  exists x y,
    string_to_kmer "ACGT" = Ret x /\ string_to_kmer "acTA" = Ret y /\
    (x < y <-> dna_lt "ACGT" "acTA" = true) /\
    (x = y <-> string_map upcase "ACGT" = string_map upcase "acTA").
Proof.
  apply (string_to_kmer_preserves_order "ACGT" "acTA");
    try reflexivity. cbn. lia.
Defined.

(** X4.  [canonical_representation] returns the code of the lexicographically
    smaller of a DNA string and its reverse complement, as the comment on the
    function says. *)
Theorem canonical_representation_of_string (s : string) :
  valid_dna s = true -> (1 <= String.length s <= 32)%nat ->
  exists x c,
    string_to_kmer s = Ret x /\
    canonical_representation x (Z.of_nat (String.length s)) = Ret c /\
    kmer_to_string c (Z.of_nat (String.length s))
    = (if dna_lt (reverse_complement_string s) s
       then reverse_complement_string s else string_map upcase s).
Proof.
  intros Hv Hlen. set (n := String.length s) in *.
  destruct (string_to_kmer_small s Hv ltac:(lia)) as [Hx Hxr]. fold n in Hxr.
  destruct (rc_value_of_string s (dna_value s) Hv Hlen Hx) as [_ Hrc]. fold n in Hrc.
  set (x := dna_value s) in *. set (y := rc_value x (Z.of_nat n)) in *.
  assert (H4 : 4 ^ Z.of_nat n <= 2 ^ 64).
  { rewrite pow4_pow2 by lia. apply Z.pow_le_mono_r; lia. }
  assert (Hyr : 0 <= y < 4 ^ Z.of_nat n).
  { rewrite pow4_pow2 by lia. apply rc_value_range; lia. }
  set (t := reverse_complement_string s) in *.
  assert (Ht : valid_dna t = true /\ String.length t = n).
  { rewrite <- Hrc. unfold kmer_to_string. rewrite Nat2Z.id.
    rewrite kmer_to_string_loop_chars by lia.
    split; [|apply chars_length].
    apply valid_dna_chars. intros j _. exists (nucleotide y j).
    split; [apply nucleotide_range; lia|reflexivity]. }
  destruct Ht as [Htv Htl].
  assert (Hty : dna_value t = y).
  { destruct (string_to_kmer_small t Htv ltac:(lia)) as [Hd Hdr].
    assert (Hstk : string_to_kmer t = Ret y).
    { rewrite <- Hrc. unfold kmer_to_string, string_to_kmer.
      rewrite string_to_kmer_from_chars by (rewrite ?Nat2Z.id; lia).
      cbn [string_to_kmer_from]. rewrite Nat2Z.id. f_equal.
      rewrite Z.mul_0_l, Z.add_0_l. apply Z.mod_small. lia. }
    rewrite Hd in Hstk. injection Hstk as ->. reflexivity. }
  exists x, (canonical_value x (Z.of_nat n)).
  split; [assumption|].
  split; [apply canonical_representation_value; lia|].
  pose proof (dna_value_lt t s Htv Hv ltac:(lia)) as Hlt.
  rewrite Hty in Hlt. fold x in Hlt.
  unfold canonical_value. fold y.
  destruct (dna_lt t s).
  - rewrite Z.min_r by (pose proof (proj2 Hlt eq_refl); lia). exact Hrc.
  - rewrite Z.min_l.
    + apply kmer_to_string_dna_value; [assumption|lia].
    + destruct (Z_lt_dec y x) as [H|H]; [|lia].
      apply Hlt in H. discriminate H.
Qed.

Lemma canonical_representation_of_string_witness :
  exists x c,
    string_to_kmer "CGAT" = Ret x /\
    canonical_representation x (Z.of_nat (String.length "CGAT")) = Ret c /\
    kmer_to_string c (Z.of_nat (String.length "CGAT"))
    = (if dna_lt (reverse_complement_string "CGAT") "CGAT"
       then reverse_complement_string "CGAT" else string_map upcase "CGAT").
Proof.
  apply (canonical_representation_of_string "CGAT"); [reflexivity|cbn; lia].
Defined.

(* ================================================================== *)
(** * Header fields the constructor does not check *)

(** X26.  [KrakenDB(ptr)] checks the file type code and [val_len] only.
    Whatever the [key_bits] and [key_ct] fields hold and however long the
    file is beyond its first 56 bytes, a header with the code and
    [val_len = 4] opens, with no index bound.  The field [k] is
    [key_bits/2] cut to its 8 bits: it is [key_bits/2] exactly when
    [key_bits < 512]. *)
Theorem KrakenDB_open_fields_unchecked (ptr : region) :
  56 <= Z.of_nat (List.length ptr) ->
  firstn 8 ptr = list_byte_of_string DATABASE_FILE_TYPE ->
  word_at ptr 16 8 = 4 ->
  exists db,
    KrakenDB_open ptr = Ret db /\
    fptr db = Some ptr /\ index_ptr db = None /\
    key_bits db = word_at ptr 8 8 /\ key_ct db = word_at ptr 48 8 /\
    k db = (key_bits db / 2) mod 256 /\
    (k db = key_bits db / 2 <-> key_bits db < 512) /\
    key_len db = (key_bits db + 7) / 8.
Proof.
  intros Hlen Hmagic Hval.
  rewrite (KrakenDB_open_cases ptr Hlen).
  destruct (list_eq_dec Byte.byte_eq_dec (firstn 8 ptr)
              (list_byte_of_string DATABASE_FILE_TYPE)) as [_|Hne];
    [|contradiction].
  rewrite Hval. cbn [Z.eqb Pos.eqb].
  eexists. split; [reflexivity|].
  cbn [fptr index_ptr key_bits key_ct k key_len].
  pose proof (word_at_range ptr 8 8 ltac:(lia) ltac:(lia) ltac:(lia)) as Hr.
  repeat split; try reflexivity.
  - intros Heq.
    pose proof (Z.mod_pos_bound (word_at ptr 8 8 / 2) 256 ltac:(lia)) as Hb.
    rewrite Heq in Hb. Z.to_euclidean_division_equations. lia.
  - intros Hsmall. apply Z.mod_small.
    Z.to_euclidean_division_equations. lia.
Qed.

Lemma KrakenDB_open_fields_unchecked_witness :
  exists db,
    KrakenDB_open wide_key_header = Ret db /\
    fptr db = Some wide_key_header /\ index_ptr db = None /\
    key_bits db = word_at wide_key_header 8 8 /\
    key_ct db = word_at wide_key_header 48 8 /\
    k db = (key_bits db / 2) mod 256 /\
    (k db = key_bits db / 2 <-> key_bits db < 512) /\
    key_len db = (key_bits db + 7) / 8.
Proof.
  apply (KrakenDB_open_fields_unchecked wide_key_header).
  - vm_compute. discriminate.
  - reflexivity.
  - reflexivity.
Defined.
